(** * Area extraction engine: a shallow embedding of
      python-service/app/services/area_extractor.py

    Modelling conventions.

    - A Python [str] is a list of Unicode code points ([str := list N]);
      literals are written [u "..."] and decoded from UTF-8.
    - [str.strip] and the regex class [\s] use the full set of code points
      for which Python's [str.isspace] holds.  [\d] is the ASCII digits;
      [\w] and case folding cover ASCII and Latin-1: the text layer is
      taken to contain no decimal digits, cased letters or alphanumerics
      outside these.
    - Regular expressions are a small abstract syntax with a backtracking
      matcher (leftmost, greedy, first alternative first) as in Python's
      [re]; every pattern of the source has at most one capturing group.
    - A Python [float] is modelled by the exact rational it denotes
      ([Q]); [float(s)] is modelled on the strings that reach it here
      (ASCII digits and periods), [round(x, 2)] is round-half-even on
      the exact value, and [repr] prints the exact decimal expansion.
      Binary64 representation error, overflow to [inf] and the exponent
      form of [repr] are outside the model.  Python rounds the binary64
      value, so at a decimal half ([round(6.175, 2)], [round(1.015, 2)])
      it may take the other neighbour of hundredths than the model.
    - A raised exception is the [Err] case of [result]; nothing in the
      extractors catches one except where the source has [try/except].
    - The opened document is the list of its pages' texts.
    - The pdfplumber fallback, the dictionaries of [to_dict] and the
      endpoint [/extract/areas] of python-service/app/main.py are
      embedded after the vocabulary of the properties, each for a file
      that opens; page indices are natural numbers throughout. *)

From Stdlib Require Import String Ascii.
From Stdlib Require Import List Bool Arith NArith ZArith QArith Qround Qabs Lia Lqa.
From Stdlib Require Import Sorted.
Import ListNotations.

Set Implicit Arguments.

(* ================================================================== *)
(** ** Strings *)
(* ================================================================== *)

Definition str := list N.

Fixpoint utf8_decode (bs : list N) : str :=
  match bs with
  | [] => []
  | b0 :: t =>
      if (b0 <? 128)%N then b0 :: utf8_decode t
      else if (b0 <? 224)%N then
        match t with
        | b1 :: t' => ((b0 - 192) * 64 + (b1 - 128))%N :: utf8_decode t'
        | _ => []
        end
      else if (b0 <? 240)%N then
        match t with
        | b1 :: b2 :: t' =>
            ((b0 - 224) * 4096 + (b1 - 128) * 64 + (b2 - 128))%N
              :: utf8_decode t'
        | _ => []
        end
      else
        match t with
        | b1 :: b2 :: b3 :: t' =>
            ((b0 - 240) * 262144 + (b1 - 128) * 4096
             + (b2 - 128) * 64 + (b3 - 128))%N :: utf8_decode t'
        | _ => []
        end
  end.

(** [u "text"]: the Python string literal ['text']. *)
Definition u (s : string) : str :=
  utf8_decode (map N_of_ascii (list_ascii_of_string s)).

(** The code point of a one-character literal. *)
Definition ch (s : string) : N := hd 0%N (u s).

Definition str_eqb (a b : str) : bool :=
  if list_eq_dec N.eq_dec a b then true else false.

Fixpoint starts_with (p s : str) : bool :=
  match p, s with
  | [], _ => true
  | c :: p', d :: s' => (c =? d)%N && starts_with p' s'
  | _ :: _, [] => false
  end.

(** [sub in s] on Python strings. *)
Fixpoint py_in (sub s : str) : bool :=
  starts_with sub s ||
  match s with
  | [] => false
  | _ :: s' => py_in sub s'
  end.

(** [str.isspace] on one code point. *)
Definition is_space (c : N) : bool :=
  ((9 <=? c) && (c <=? 13) || (28 <=? c) && (c <=? 32)
   || (c =? 133) || (c =? 160) || (c =? 5760)
   || (8192 <=? c) && (c <=? 8202)
   || (c =? 8232) || (c =? 8233) || (c =? 8239) || (c =? 8287)
   || (c =? 12288))%N.

Fixpoint lstrip (s : str) : str :=
  match s with
  | c :: s' => if is_space c then lstrip s' else s
  | [] => []
  end.

Definition rstrip (s : str) : str := rev (lstrip (rev s)).

(** [s.strip()] *)
Definition strip (s : str) : str := rstrip (lstrip s).

Definition is_digit (c : N) : bool := ((48 <=? c) && (c <=? 57))%N.

Definition is_upper (c : N) : bool :=
  ((65 <=? c) && (c <=? 90)
   || (192 <=? c) && (c <=? 222) && negb (c =? 215))%N.

Definition is_lower (c : N) : bool :=
  ((97 <=? c) && (c <=? 122)
   || (224 <=? c) && (c <=? 254) && negb (c =? 247))%N.

Definition to_lower (c : N) : N := if is_upper c then (c + 32)%N else c.
Definition to_upper (c : N) : N := if is_lower c then (c - 32)%N else c.

(** [s.lower()] *)
Definition lower (s : str) : str := map to_lower s.

(** [\w]: the underscore and the characters for which [str.isalnum]
    holds, up to U+00FF (letters, digits, the superscripts 1 to 3, the
    vulgar fractions, the ordinal indicators and the micro sign). *)
Definition is_word (c : N) : bool :=
  (is_digit c || is_upper c || is_lower c || (c =? 95) || (c =? 170)
   || (c =? 178) || (c =? 179) || (c =? 181) || (c =? 185) || (c =? 186)
   || (188 <=? c) && (c <=? 190) || (c =? 223) || (c =? 255))%N.

(** The line feed, ['\n']. *)
Definition newline : N := 10.

(** [sep.join(parts)] and [s.split(sep)] for a one-character separator. *)
Fixpoint join (sep : N) (parts : list str) : str :=
  match parts with
  | [] => []
  | [p] => p
  | p :: rest => p ++ sep :: join sep rest
  end.

Fixpoint split_aux (sep : N) (s : str) (cur : str) : list str :=
  match s with
  | [] => [rev cur]
  | c :: s' =>
      if (c =? sep)%N then rev cur :: split_aux sep s' []
      else split_aux sep s' (c :: cur)
  end.

Definition split (sep : N) (s : str) : list str := split_aux sep s [].

(** [a] occurs in [b] as a contiguous run of characters. *)
Definition substring_of (a b : str) : Prop :=
  exists pre post, b = pre ++ a ++ post.

(* ================================================================== *)
(** ** Exceptions *)
(* ================================================================== *)

Inductive exn := ValueError.

Inductive result (A : Type) :=
| OK (a : A)
| Err (e : exn).
Arguments OK {A} a.
Arguments Err {A} e.

Definition bind {A B} (m : result A) (f : A -> result B) : result B :=
  match m with
  | OK a => f a
  | Err e => Err e
  end.

Notation "x <- m ;; k" := (bind m (fun x => k))
  (at level 61, m at next level, right associativity).

(* ================================================================== *)
(** ** Regular expressions *)
(* ================================================================== *)

Inductive citem :=
| CChar (c : N)          (* a literal member *)
| CRange (lo hi : N)     (* lo-hi *)
| CDigit                 (* \d *)
| CSpace.                (* \s *)

Inductive re :=
| Chr (c : N)            (* one literal character *)
| Cls (items : list citem)   (* [...] *)
| Seq (r1 r2 : re)
| Alt (r1 r2 : re)       (* r1|r2 *)
| Star (r : re)          (* r*, greedy *)
| Opt (r : re)           (* r?, greedy *)
| Grp (r : re)           (* the capturing group *)
| Bol                    (* ^ *)
| Eol                    (* $ *)
| Wb                     (* \b *)
| Eps.

Definition Plus (r : re) : re := Seq r (Star r).
Definition Digit : re := Cls [CDigit].
Definition Space : re := Cls [CSpace].

Fixpoint lit_of (cs : str) : re :=
  match cs with
  | [] => Eps
  | [c] => Chr c
  | c :: cs' => Seq (Chr c) (lit_of cs')
  end.

(** A run of literal characters. *)
Definition lit (s : string) : re := lit_of (u s).

Fixpoint seqs (rs : list re) : re :=
  match rs with
  | [] => Eps
  | [r] => r
  | r :: rs' => Seq r (seqs rs')
  end.

Fixpoint alts (rs : list re) : re :=
  match rs with
  | [] => Eps
  | [r] => r
  | r :: rs' => Alt r (alts rs')
  end.

Definition item_has (i : citem) (c : N) : bool :=
  match i with
  | CChar d => (c =? d)%N
  | CRange lo hi => ((lo <=? c) && (c <=? hi))%N
  | CDigit => is_digit c
  | CSpace => is_space c
  end.

(** With [re.IGNORECASE] a character matches when one of its case variants
    does. *)
Definition item_match (ic : bool) (i : citem) (c : N) : bool :=
  item_has i c ||
  (ic && (item_has i (to_lower c) || item_has i (to_upper c))).

Definition chr_match (ic : bool) (d c : N) : bool :=
  (c =? d)%N || (ic && (to_lower c =? to_lower d)%N).

(** Matcher state: the character before the cursor, the cursor's offset,
    the text from the cursor on, and the capture of the group. *)
Record mst := MSt {
  m_prev : option N;
  m_pos : nat;
  m_rest : str;
  m_cap : option str
}.

Definition advance (s : mst) : option (N * mst) :=
  match m_rest s with
  | [] => None
  | c :: t => Some (c, MSt (Some c) (S (m_pos s)) t (m_cap s))
  end.

Definition word_before (s : mst) : bool :=
  match m_prev s with Some c => is_word c | None => false end.

Definition word_after (s : mst) : bool :=
  match m_rest s with c :: _ => is_word c | [] => false end.

(** [$] without MULTILINE: the end, or just before a final newline. *)
Definition at_eol (s : mst) : bool :=
  match m_rest s with
  | [] => true
  | [c] => (c =? 10)%N
  | _ => false
  end.

Section Matcher.
Variable ic : bool.
Variable A : Type.

(** Greedy repetition of [step]: at most [n] more rounds, each of which
    must move the cursor. *)
Fixpoint star_loop (step : mst -> (mst -> option A) -> option A)
    (k : mst -> option A) (n : nat) (s : mst) {struct n} : option A :=
  match n with
  | O => k s
  | S n' =>
      match
        step s
          (fun s' =>
             if (m_pos s' =? m_pos s)%nat then None
             else star_loop step k n' s')
      with
      | Some x => Some x
      | None => k s
      end
  end.

Fixpoint rmatch (r : re) (s : mst) (k : mst -> option A) {struct r}
  : option A :=
  match r with
  | Eps => k s
  | Chr d =>
      match advance s with
      | Some (c, s') => if chr_match ic d c then k s' else None
      | None => None
      end
  | Cls items =>
      match advance s with
      | Some (c, s') =>
          if existsb (fun i => item_match ic i c) items then k s' else None
      | None => None
      end
  | Seq r1 r2 => rmatch r1 s (fun s' => rmatch r2 s' k)
  | Alt r1 r2 =>
      match rmatch r1 s k with
      | Some x => Some x
      | None => rmatch r2 s k
      end
  | Opt r1 =>
      match rmatch r1 s k with
      | Some x => Some x
      | None => k s
      end
  | Star r1 => star_loop (rmatch r1) k (S (List.length (m_rest s))) s
  | Grp r1 =>
      rmatch r1 s
        (fun s' =>
           k (MSt (m_prev s') (m_pos s') (m_rest s')
                (Some (firstn (m_pos s' - m_pos s) (m_rest s)))))
  | Bol => if (m_pos s =? 0)%nat then k s else None
  | Eol => if at_eol s then k s else None
  | Wb => if xorb (word_before s) (word_after s) then k s else None
  end.
End Matcher.

(** A match object: the text of group 1, when the group took part. *)
Definition mobj := option str.

(** [m.group(1)] *)
Definition group1 (m : mobj) : str :=
  match m with Some g => g | None => [] end.

(** [re.match(r, s)] / [re.match(r, s, re.IGNORECASE)] *)
Definition re_match (ic : bool) (r : re) (s : str) : option mobj :=
  rmatch ic r (MSt None 0 s None) (fun s' => Some (m_cap s')).

Fixpoint search_from (ic : bool) (r : re) (n : nat) (s : mst) : option mobj :=
  match rmatch ic r s (fun s' => Some (m_cap s')) with
  | Some m => Some m
  | None =>
      match n with
      | O => None
      | S n' =>
          match advance s with
          | Some (_, s') => search_from ic r n' s'
          | None => None
          end
      end
  end.

(** [re.search(r, s)] *)
Definition re_search (ic : bool) (r : re) (s : str) : option mobj :=
  search_from ic r (length s) (MSt None 0 s None).

Definition matches (ic : bool) (r : re) (s : str) : bool :=
  match re_match ic r s with Some _ => true | None => false end.

Definition found (ic : bool) (r : re) (s : str) : bool :=
  match re_search ic r s with Some _ => true | None => false end.

(* ================================================================== *)
(** ** Numbers *)
(* ================================================================== *)

Open Scope Q_scope.

Fixpoint take_digits (s : str) : str * str :=
  match s with
  | c :: s' =>
      if is_digit c then let (d, r) := take_digits s' in (c :: d, r)
      else ([], s)
  | [] => ([], [])
  end.

Definition digits_value (ds : str) : Z :=
  fold_left (fun acc c => (acc * 10 + (Z.of_N c - 48))%Z) ds 0%Z.

Definition decimal (ip fp : str) : Q :=
  Qred (Qmake (digits_value (ip ++ fp))
              (Z.to_pos (10 ^ Z.of_nat (List.length fp)))).

(** [float(s)] on a string of digits and periods: digits with at most one
    period and at least one digit; anything else raises ValueError.
    Python's [float] also reads a sign, an exponent, underscores, [inf]
    and [nan], and white space around the number: none of these reaches
    it from a capture group of the source's patterns, which deliver
    digits, periods and commas. *)
Definition py_float (s : str) : result Q :=
  let (ip, r1) := take_digits s in
  match r1 with
  | [] => match ip with [] => Err ValueError | _ => OK (decimal ip []) end
  | c :: r2 =>
      if (c =? ch ".")%N then
        let (fp, r3) := take_digits r2 in
        match r3, ip ++ fp with
        | [], _ :: _ => OK (decimal ip fp)
        | _, _ => Err ValueError
        end
      else Err ValueError
  end.

(** [s.replace(a, b)] for a one-character [a]. *)
Definition replace (a : N) (b : str) (s : str) : str :=
  flat_map (fun c => if (c =? a)%N then b else [c]) s.

Definition has_char (c : N) (s : str) : bool := existsb (N.eqb c) s.

Definition parse_german_number (s : str) : result Q :=
  let s := strip s in
  let s :=
    if has_char (ch ".") s && has_char (ch ",") s
    then replace (ch ",") (u ".") (replace (ch ".") (u "") s)
    else replace (ch ",") (u ".") s in
  py_float s.

(** Round-half-even to an integer. *)
Definition round_half_even (x : Q) : Z :=
  let f := Qfloor x in
  match Qcompare (x - inject_Z f) (1 # 2) with
  | Lt => f
  | Gt => (f + 1)%Z
  | Eq => if Z.even f then f else (f + 1)%Z
  end.

(** [round(x, 2)] on the exact value: the nearest number of hundredths,
    the even one at an exact half.  Python rounds the binary64 value,
    which at a decimal half lies just above or just below it, and so may
    take either neighbour there. *)
Definition round2 (x : Q) : Q :=
  Qred (Qmake (round_half_even (x * 100)) 100).

(** Truthiness of a float: [if x:] *)
Definition truthy (x : Q) : bool := negb (Qeq_bool x 0).

Definition digit_char (d : Z) : N := (48 + Z.to_N d)%N.

Fixpoint nat_digits (fuel : nat) (n : Z) (acc : str) : str :=
  match fuel with
  | O => acc
  | S fuel' =>
      let acc' := digit_char (n mod 10) :: acc in
      if (n / 10 =? 0)%Z then acc' else nat_digits fuel' (n / 10)%Z acc'
  end.

Fixpoint frac_digits (fuel : nat) (r d : Z) : str :=
  match fuel with
  | O => []
  | S fuel' =>
      if (r =? 0)%Z then []
      else digit_char (r * 10 / d) :: frac_digits fuel' ((r * 10) mod d)%Z d
  end.

(** [repr(x)] for a float, as used by an f-string: the integer part, a
    period and the fractional digits (at least one, at most twenty).
    Python prints the shortest digits that read back as the same float,
    which are all the digits of a value with at most 15 significant
    digits, and switches to exponent notation below 0.0001 and from
    1e16 on. *)
Definition float_repr (x : Q) : str :=
  let n := Z.abs (Qnum x) in
  let d := Zpos (Qden x) in
  let ip := nat_digits (S (Z.to_nat n)) (n / d)%Z [] in
  let fp := frac_digits 20 (n mod d)%Z d in
  (if (Qnum x <? 0)%Z then u "-" else [])
    ++ ip ++ u "." ++ match fp with [] => u "0" | _ => fp end.

(* ================================================================== *)
(** ** Enumerations and records *)
(* ================================================================== *)

Inductive BlueprintStyle := HAARDTRING | LEIQ | OMNITURM | UNKNOWN.

Definition style_value (s : BlueprintStyle) : str :=
  match s with
  | HAARDTRING => u "haardtring"
  | LEIQ => u "leiq"
  | OMNITURM => u "omniturm"
  | UNKNOWN => u "unknown"
  end.

Inductive RoomCategory :=
| OFFICE | RESIDENTIAL | CIRCULATION | STAIRS | ELEVATORS | SHAFTS
| TECHNICAL | SANITARY | STORAGE | OUTDOOR | OTHER.

Definition RoomCategory_eq_dec (a b : RoomCategory) : {a = b} + {a <> b}.
Proof. decide equality. Defined.

Definition cat_eqb (a b : RoomCategory) : bool :=
  if RoomCategory_eq_dec a b then true else false.

Definition ROOM_CATEGORIES : list (RoomCategory * list str) :=
  [ (OFFICE, map u ["büro"; "office"; "nutzungseinheit"; "back office"]);
    (RESIDENTIAL,
      map u ["schlafen"; "wohnen"; "essen"; "kochen"; "zimmer"; "küche"]);
    (CIRCULATION,
      map u ["flur"; "diele"; "schleuse"; "vorraum"; "eingang"; "lobby"]);
    (STAIRS, map u ["treppe"; "treppenhaus"; "trh"]);
    (ELEVATORS, map u ["aufzug"; "lift"; "aufzugsschacht"; "aufzugsvorr"]);
    (SHAFTS, map u ["schacht"; "lüftung"; "medien"; "druckbelüftung"]);
    (TECHNICAL,
      map u ["elektro"; "technik"; "hwr"; "it verteiler"; "elt"; "glt";
             "fiz"]);
    (SANITARY,
      map u ["wc"; "bad"; "dusche"; "gästebad"; "umkleide"; "sanitär"]);
    (STORAGE, map u ["lager"; "abstellraum"; "müll"; "fahrrad"]);
    (OUTDOOR,
      map u ["balkon"; "terrasse"; "loggia"; "dachterrasse"; "freisitz"]) ]%string.

Record BoundingBox := { x0 : Q; y0 : Q; x1 : Q; y1 : Q }.

Record ExtractedRoom := mkRoom {
  room_number : str;
  room_name : str;
  area_m2 : Q;
  counted_m2 : Q;
  factor : Q;
  page : nat;
  source_text : str;
  bbox : option BoundingBox;
  category : RoomCategory;
  perimeter_m : option Q;
  height_m : option Q;
  factor_source : option str;
  extraction_pattern : str
}.

Record ExtractionResult := mkResult {
  rooms : list ExtractedRoom;
  total_area_m2 : Q;
  total_counted_m2 : Q;
  room_count : nat;
  page_count : nat;
  blueprint_style : BlueprintStyle;
  extraction_method : str;
  warnings : list str;
  totals_by_category : list (RoomCategory * Q)
}.

Fixpoint categorize_in (name_lower : str)
    (table : list (RoomCategory * list str)) : RoomCategory :=
  match table with
  | [] => OTHER
  | (category, keywords) :: table' =>
      if existsb (fun keyword => py_in keyword name_lower) keywords
      then category
      else categorize_in name_lower table'
  end.

Definition categorize_room (room_name : str) : RoomCategory :=
  categorize_in (lower room_name) ROOM_CATEGORIES.

Definition is_outdoor_room (room_name : str) : bool :=
  cat_eqb (categorize_room room_name) OUTDOOR.

(** [x or default] on an optional string: [None] and [''] are falsy. *)
Definition str_or (x : option str) (default : str) : str :=
  match x with
  | Some (c :: s) => c :: s
  | _ => default
  end.

(** [lines[j].strip()] *)
Definition line_at (lines : list str) (j : nat) : str :=
  strip (nth j lines []).

(** [range(a, b)] *)
Definition py_range (a b : nat) : list nat := seq a (b - a).

(** The first pattern of a list that matches, as in
    [for pattern in patterns: m = pattern.match(line); if m: break]. *)
Fixpoint first_match (ic : bool) (patterns : list re) (line : str)
  : option mobj :=
  match patterns with
  | [] => None
  | p :: ps =>
      match re_match ic p line with
      | Some m => Some m
      | None => first_match ic ps line
      end
  end.

(** The body of a [while i < len(lines): ...; i += 1] loop that appends at
    most one room per index; an exception ends the loop. *)
Fixpoint collect (body : nat -> result (option ExtractedRoom))
    (idxs : list nat) : result (list ExtractedRoom) :=
  match idxs with
  | [] => OK []
  | i :: idxs' =>
      r <- body i ;;
      rest <- collect body idxs' ;;
      OK (match r with Some x => x :: rest | None => rest end)
  end.

Definition nonempty (s : str) : bool :=
  match s with [] => false | _ => true end.

(* ================================================================== *)
(** ** Haardtring *)
(* ================================================================== *)

Definition AZ : citem := CRange (ch "A") (ch "Z").
Definition d09 : citem := CRange (ch "0") (ch "9").
Definition az : citem := CRange (ch "a") (ch "z").

(** [[\d,]+] and [[\d.,]+] *)
Definition num_comma : re := Plus (Cls [CDigit; CChar (ch ",")]).
Definition num_any : re :=
  Plus (Cls [CDigit; CChar (ch "."); CChar (ch ",")]).

(** [\s*m[²2]?] *)
Definition unit_m2 : re :=
  seqs [Star Space; Chr (ch "m"); Opt (Cls [CChar (ch "²"); CChar (ch "2")])].

(** [R\d+\.E\d+\.\d+\.\d+] *)
Definition r_full : re :=
  seqs [Chr (ch "R"); Plus Digit; lit ".E"; Plus Digit; Chr (ch ".");
        Plus Digit; Chr (ch "."); Plus Digit].
(** [R\d+[A-Z]] *)
Definition r_simple : re := seqs [Chr (ch "R"); Plus Digit; Cls [AZ]].
(** [E\.[A-Z0-9]+(?:\.\d+)+] *)
Definition e_apartment : re :=
  seqs [lit "E."; Plus (Cls [AZ; d09]); Plus (Seq (Chr (ch ".")) (Plus Digit))].

Definition haardtring_room_patterns : list re :=
  [ Seq Bol (Grp r_full); Seq Bol (Grp r_simple); Seq Bol (Grp e_apartment) ].

(** [^(F:|BA:|B:|W:|D:|[\d,]+)] *)
Definition haardtring_not_name : re :=
  Seq Bol (Grp (alts [lit "F:"; lit "BA:"; lit "B:"; lit "W:"; lit "D:";
                      num_comma])).

(** [^F:\s*([\d,]+)\s*m[²2]?] with IGNORECASE *)
Definition haardtring_area : re :=
  seqs [Bol; lit "F:"; Star Space; Grp num_comma; unit_m2].

(** [^50%:\s*([\d,]+)\s*m[²2]?] *)
Definition haardtring_balcony : re :=
  seqs [Bol; lit "50%:"; Star Space; Grp num_comma; unit_m2].

(** [^([\d,]+)\s*m[²2]?] *)
Definition value_comma : re := seqs [Bol; Grp num_comma; unit_m2].

(** The three patterns that end the lookahead:
    [^R\d+\.E\d+\.\d+\.\d+], [^R\d+[A-Z]$], [^E\.[A-Z0-9]+(?:\.\d+)+]. *)
Definition haardtring_stop (curr : str) : bool :=
  matches false (Seq Bol r_full) curr
  || matches false (seqs [Bol; r_simple; Eol]) curr
  || matches false (Seq Bol e_apartment) curr.

(** [if k < len(lines): b_match = re.match(50%..., lines[k].strip());
     if b_match: balcony_area = parse_german_number(b_match.group(1))] *)
Definition haardtring_balcony_at (lines : list str) (k : nat)
  : result (option Q) :=
  if (k <? List.length lines)%nat then
    match re_match false haardtring_balcony (line_at lines k) with
    | Some b_match =>
        v <- parse_german_number (group1 b_match) ;; OK (Some v)
    | None => OK None
    end
  else OK None.

(** The [for j in range(i + 1, min(len(lines), i + 15))] loop: the pair
    [(area, balcony_area)] at its end. *)
Fixpoint haardtring_lookahead (lines : list str) (js : list nat)
  : result (option Q * option Q) :=
  match js with
  | [] => OK (None, None)
  | j :: js' =>
      let curr := line_at lines j in
      match re_match true haardtring_area curr with
      | Some f_match =>
          area <- parse_german_number (group1 f_match) ;;
          balcony_area <- haardtring_balcony_at lines (j + 1) ;;
          OK (Some area, balcony_area)
      | None =>
          match
            (if str_eqb curr (u "F:") && (j + 1 <? List.length lines)%nat
             then re_match false value_comma (line_at lines (j + 1))
             else None)
          with
          | Some area_match =>
              area <- parse_german_number (group1 area_match) ;;
              balcony_area <- haardtring_balcony_at lines (j + 2) ;;
              OK (Some area, balcony_area)
          | None =>
              if haardtring_stop curr then OK (None, None)
              else haardtring_lookahead lines js'
          end
      end
  end.

(** The room name taken from the line after the anchor. *)
Definition name_after (not_name : str -> bool) (lines : list str) (i : nat)
  : option str :=
  if (i + 1 <? List.length lines)%nat then
    let next_line := line_at lines (i + 1) in
    if nonempty next_line && negb (not_name next_line)
    then Some next_line else None
  else None.

(** [x] when [if x:] holds for an optional float ([None] and [0.0] are
    falsy). *)
Definition if_truthy (x : option Q) : option Q :=
  match x with
  | Some v => if truthy v then Some v else None
  | None => None
  end.

(** The [if area:] block of [extract_haardtring]. *)
Definition haardtring_emit (room_num : str) (room_name : option str)
    (area : option Q) (balcony_area : option Q) (page_idx : nat)
  : option ExtractedRoom :=
  match if_truthy area with
  | Some area =>
      let '(factor, counted, factor_source) :=
        match if_truthy balcony_area with
        | Some balcony_area => (1 # 2, balcony_area, Some (u "explicit_50%"))
        | None =>
            if match room_name with
               | Some n => nonempty n && is_outdoor_room n
               | None => false
               end
            then (1 # 2, round2 (area * (1 # 2)), Some (u "default_outdoor"))
            else (1, area, None)
        end in
      Some (mkRoom room_num (str_or room_name (u "Unknown")) area counted
              factor page_idx (u "F: " ++ float_repr area) None
              (categorize_room (str_or room_name [])) None None
              factor_source (u "F:"))
  | None => None
  end.

(** One iteration of the outer loop of [extract_haardtring]. *)
Definition haardtring_at (lines : list str) (page_idx i : nat)
  : result (option ExtractedRoom) :=
  match first_match false haardtring_room_patterns (line_at lines i) with
  | Some room_match =>
      let room_num := group1 room_match in
      let room_name :=
        name_after (matches false haardtring_not_name) lines i in
      found <- haardtring_lookahead lines
                 (py_range (i + 1) (Nat.min (List.length lines) (i + 15))) ;;
      OK (haardtring_emit room_num room_name (fst found) (snd found) page_idx)
  | None => OK None
  end.

Definition extract_haardtring (lines : list str) (page_idx : nat)
  : result (list ExtractedRoom) :=
  collect (haardtring_at lines page_idx) (py_range 0 (List.length lines)).

(* ================================================================== *)
(** ** LeiQ *)
(* ================================================================== *)

Definition eq_or_colon : re := Cls [CChar (ch "="); CChar (ch ":")].

(** [^(B\.\d+\.[0-9A-Z]+\.[A-Z]?\d+(?:-[A-Z])?)] *)
Definition leiq_room_pattern : re :=
  Seq Bol
    (Grp (seqs [lit "B."; Plus Digit; Chr (ch "."); Plus (Cls [d09; AZ]);
                Chr (ch "."); Opt (Cls [AZ]); Plus Digit;
                Opt (Seq (Chr (ch "-")) (Cls [AZ]))])).

(** [^(NRF|F[=:]|U[=:]|LH[=:]|LRH[=:]|B\.|[\d,]+)] with IGNORECASE *)
Definition leiq_not_name : re :=
  Seq Bol
    (Grp (alts [lit "NRF"; Seq (lit "F") eq_or_colon;
                Seq (lit "U") eq_or_colon; Seq (lit "LH") eq_or_colon;
                Seq (lit "LRH") eq_or_colon; lit "B."; num_comma])).

(** [^NRF[=:]\s*([\d.,]+)\s*m[²2]?] with IGNORECASE *)
Definition leiq_nrf : re :=
  seqs [Bol; lit "NRF"; eq_or_colon; Star Space; Grp num_any; unit_m2].

(** [^F[=:]\s*([\d.,]+)\s*m[²2]?] with IGNORECASE *)
Definition leiq_f : re :=
  seqs [Bol; lit "F"; eq_or_colon; Star Space; Grp num_any; unit_m2].

(** [^([\d.,]+)\s*m[²2]?] *)
Definition value_any : re := seqs [Bol; Grp num_any; unit_m2].

(** [^U[=:]\s*([\d.,]+)\s*m\b] with IGNORECASE *)
Definition leiq_u : re :=
  seqs [Bol; lit "U"; eq_or_colon; Star Space; Grp num_any; Star Space;
        Chr (ch "m"); Wb].

(** [^L(?:R)?H[=:]\s*([\d.,]+)\s*m\b] with IGNORECASE *)
Definition leiq_lh : re :=
  seqs [Bol; lit "L"; Opt (lit "R"); lit "H"; eq_or_colon; Star Space;
        Grp num_any; Star Space; Chr (ch "m"); Wb].

(** The local variables of one candidate of [extract_leiq]. *)
Record leiq_vars := LeiqVars {
  lv_area : option Q;
  lv_perimeter : option Q;
  lv_height : option Q;
  lv_pattern_used : option str
}.

Definition is_none {A} (x : option A) : bool :=
  match x with None => true | Some _ => false end.

Definition split_labels : list str := map u ["NRF:"; "NRF="; "F:"; "F="]%string.

Definition str_in (s : str) (l : list str) : bool := existsb (str_eqb s) l.

(** The body of the lookahead loop of [extract_leiq] from the split-label
    test on (reached when neither inline form has set the area). *)
Definition leiq_rest (lines : list str) (j : nat) (curr : str)
    (v : leiq_vars) (continue : leiq_vars -> result leiq_vars)
  : result leiq_vars :=
  match
    (if str_in curr split_labels && (j + 1 <? List.length lines)%nat
     then
       match re_match false value_any (line_at lines (j + 1)) with
       | Some area_match =>
           if is_none (lv_area v) then Some area_match else None
       | None => None
       end
     else None)
  with
  | Some area_match =>
      area <- parse_german_number (group1 area_match) ;;
      continue (LeiqVars (Some area) (lv_perimeter v) (lv_height v)
                  (Some curr))
  | None =>
      match re_match true leiq_u curr with
      | Some u_match =>
          perimeter <- parse_german_number (group1 u_match) ;;
          continue (LeiqVars (lv_area v) (Some perimeter) (lv_height v)
                      (lv_pattern_used v))
      | None =>
          match re_match true leiq_lh curr with
          | Some lh_match =>
              height <- parse_german_number (group1 lh_match) ;;
              continue (LeiqVars (lv_area v) (lv_perimeter v) (Some height)
                          (lv_pattern_used v))
          | None =>
              if matches false leiq_room_pattern curr then OK v
              else continue v
          end
      end
  end.

Fixpoint leiq_lookahead (lines : list str) (js : list nat) (v : leiq_vars)
  : result leiq_vars :=
  match js with
  | [] => OK v
  | j :: js' =>
      let curr := line_at lines j in
      let continue := leiq_lookahead lines js' in
      match
        (if is_none (lv_area v) then re_match true leiq_nrf curr else None)
      with
      | Some nrf_match =>
          area <- parse_german_number (group1 nrf_match) ;;
          continue (LeiqVars (Some area) (lv_perimeter v) (lv_height v)
                      (Some (u "NRF:")))
      | None =>
          match
            (if is_none (lv_area v) then re_match true leiq_f curr else None)
          with
          | Some f_match =>
              area <- parse_german_number (group1 f_match) ;;
              continue (LeiqVars (Some area) (lv_perimeter v) (lv_height v)
                          (Some (u "F=")))
          | None => leiq_rest lines j curr v continue
          end
      end
  end.

(** The [if area:] block of [extract_leiq]. *)
Definition leiq_emit (room_num : str) (room_name : option str)
    (v : leiq_vars) (page_idx : nat) : option ExtractedRoom :=
  match if_truthy (lv_area v) with
  | Some area =>
      Some (mkRoom room_num (str_or room_name (u "Unknown")) area area 1
              page_idx
              (str_or (lv_pattern_used v) (u "NRF:") ++ u " "
                 ++ float_repr area)
              None (categorize_room (str_or room_name []))
              (lv_perimeter v) (lv_height v) None
              (str_or (lv_pattern_used v) (u "NRF:")))
  | None => None
  end.

Definition leiq_at (lines : list str) (page_idx i : nat)
  : result (option ExtractedRoom) :=
  match re_match false leiq_room_pattern (line_at lines i) with
  | Some room_match =>
      let room_num := group1 room_match in
      let room_name := name_after (matches true leiq_not_name) lines i in
      v <- leiq_lookahead lines
             (py_range (i + 1) (Nat.min (List.length lines) (i + 15)))
             (LeiqVars None None None None) ;;
      OK (leiq_emit room_num room_name v page_idx)
  | None => OK None
  end.

Definition extract_leiq (lines : list str) (page_idx : nat)
  : result (list ExtractedRoom) :=
  collect (leiq_at lines page_idx) (py_range 0 (List.length lines)).

(* ================================================================== *)
(** ** Omniturm *)
(* ================================================================== *)

(** [^(\d+_[a-z]\d+\.\d+|BT\d+\.[A-Z]+\.\d+)] *)
Definition omniturm_room_pattern : re :=
  Seq Bol
    (Grp (Alt
            (seqs [Plus Digit; Chr (ch "_"); Cls [az]; Plus Digit;
                   Chr (ch "."); Plus Digit])
            (seqs [lit "BT"; Plus Digit; Chr (ch "."); Plus (Cls [AZ]);
                   Chr (ch "."); Plus Digit]))).

(** [^(NGF|UKRD|UKFD|OKFF|OKRF|LRH|[\d,]+\s*m|Schacht)] *)
Definition omniturm_not_name : re :=
  Seq Bol
    (Grp (alts [lit "NGF"; lit "UKRD"; lit "UKFD"; lit "OKFF"; lit "OKRF";
                lit "LRH"; seqs [num_comma; Star Space; Chr (ch "m")];
                lit "Schacht"])).

(** [^NGF:\s*([\d.,]+)\s*m[²2]?] with IGNORECASE *)
Definition omniturm_ngf : re :=
  seqs [Bol; lit "NGF:"; Star Space; Grp num_any; unit_m2].

(** [^(Schacht \d+)] *)
Definition omniturm_schacht : re :=
  Seq Bol (Grp (Seq (lit "Schacht ") (Plus Digit))).

(** [^[\d,]] *)
Definition digit_or_comma_first : re :=
  Seq Bol (Cls [CDigit; CChar (ch ",")]).

(** The lookahead loop of [extract_omniturm]: the pair
    [(room_name, area)] at its end. *)
Fixpoint omniturm_lookahead (lines : list str) (js : list nat)
    (room_name : option str) : result (option str * option Q) :=
  match js with
  | [] => OK (room_name, None)
  | j :: js' =>
      let curr := line_at lines j in
      if matches false omniturm_room_pattern curr then OK (room_name, None)
      else
        let room_name :=
          if is_none room_name && nonempty curr
             && negb (matches false omniturm_not_name curr)
          then Some curr else room_name in
        match re_match true omniturm_ngf curr with
        | Some ngf_match =>
            area <- parse_german_number (group1 ngf_match) ;;
            OK (room_name, Some area)
        | None =>
            match
              (if str_eqb curr (u "NGF:") && (j + 1 <? List.length lines)%nat
               then re_match false value_any (line_at lines (j + 1))
               else None)
            with
            | Some area_match =>
                area <- parse_german_number (group1 area_match) ;;
                OK (room_name, Some area)
            | None =>
                match re_match false omniturm_schacht curr with
                | Some schacht_match =>
                    let room_name := Some (group1 schacht_match) in
                    if (j + 2 <? List.length lines)%nat then
                      let type_line := line_at lines (j + 1) in
                      let area_line := line_at lines (j + 2) in
                      let room_name :=
                        if negb (matches false digit_or_comma_first type_line)
                        then Some (group1 schacht_match ++ u " ("
                                     ++ type_line ++ u ")")
                        else room_name in
                      match re_match false value_comma area_line with
                      | Some area_match =>
                          area <- parse_german_number (group1 area_match) ;;
                          OK (room_name, Some area)
                      | None => omniturm_lookahead lines js' room_name
                      end
                    else omniturm_lookahead lines js' room_name
                | None => omniturm_lookahead lines js' room_name
                end
            end
        end
  end.

(** The [if area:] block of [extract_omniturm]. *)
Definition omniturm_emit (room_num : str) (room_name : option str)
    (area : option Q) (page_idx : nat) : option ExtractedRoom :=
  match if_truthy area with
  | Some area =>
      Some (mkRoom room_num (str_or room_name (u "Unknown")) area area 1
              page_idx (u "NGF: " ++ float_repr area) None
              (categorize_room (str_or room_name [])) None None None
              (u "NGF:"))
  | None => None
  end.

(** One iteration of the outer loop, given the [processed] set. *)
Definition omniturm_at (lines : list str) (page_idx : nat)
    (processed : list str) (i : nat) : result (option ExtractedRoom) :=
  let line := line_at lines i in
  if matches false omniturm_room_pattern line && negb (str_in line processed)
  then
    let room_num := line in
    found <- omniturm_lookahead lines
               (py_range (i + 1) (Nat.min (List.length lines) (i + 15)))
               None ;;
    OK (omniturm_emit room_num (fst found) (snd found) page_idx)
  else OK None.

(** The outer loop: [rooms] and [processed] are updated together. *)
Fixpoint omniturm_loop (lines : list str) (page_idx : nat)
    (idxs : list nat) (rooms : list ExtractedRoom) (processed : list str)
  : result (list ExtractedRoom) :=
  match idxs with
  | [] => OK rooms
  | i :: idxs' =>
      r <- omniturm_at lines page_idx processed i ;;
      match r with
      | Some room =>
          omniturm_loop lines page_idx idxs' (rooms ++ [room])
            (room_number room :: processed)
      | None => omniturm_loop lines page_idx idxs' rooms processed
      end
  end.

Definition extract_omniturm (lines : list str) (page_idx : nat)
  : result (list ExtractedRoom) :=
  omniturm_loop lines page_idx (py_range 0 (List.length lines)) [] [].

(* ================================================================== *)
(** ** Generic extractor *)
(* ================================================================== *)

(** [\s*[=:]\s*([\d.,]+)] *)
Definition eq_value : re :=
  seqs [Star Space; eq_or_colon; Star Space; Grp num_any].

(** All three are compiled with IGNORECASE. *)
Definition FLEXIBLE_AREA_PATTERNS : list re :=
  [ (* (?:NRF|NGF|BGF|Fläche|Fl|FL|GF|WF|NF)\s*[=:]\s*([\d.,]+)\s*m[²2]? *)
    seqs [alts [lit "NRF"; lit "NGF"; lit "BGF"; lit "Fläche"; lit "Fl";
                lit "FL"; lit "GF"; lit "WF"; lit "NF"];
          eq_value; unit_m2];
    (* ^F\s*[=:]\s*([\d.,]+)\s*m[²2]? *)
    seqs [Bol; lit "F"; eq_value; unit_m2];
    (* (?:NRF|NGF|Fläche)\s*[=:]\s*([\d.,]+)\s*qm\b *)
    seqs [alts [lit "NRF"; lit "NGF"; lit "Fläche"]; eq_value; Star Space;
          lit "qm"; Wb] ].

Definition dot_or_underscore : re := Cls [CChar (ch "."); CChar (ch "_")].
Definition alnum_run : re := Plus (Cls [AZ; d09]).

(** Each pattern with its IGNORECASE flag. *)
Definition FLEXIBLE_ROOM_PATTERNS : list (bool * re) :=
  [ (* ^([A-Z]+\d*[\._][A-Z0-9]+[\._][A-Z0-9]+[\._][A-Z0-9]+) *)
    (true, Seq Bol (Grp (seqs [Plus (Cls [AZ]); Star Digit;
                               dot_or_underscore; alnum_run;
                               dot_or_underscore; alnum_run;
                               dot_or_underscore; alnum_run])));
    (* ^(\d+_[a-z]\d+\.\d+) *)
    (false, Seq Bol (Grp (seqs [Plus Digit; Chr (ch "_"); Cls [az];
                                Plus Digit; Chr (ch "."); Plus Digit])));
    (* ^([EOU]G\d*[\._]\d{3}) *)
    (true, Seq Bol (Grp (seqs [Cls [CChar (ch "E"); CChar (ch "O");
                                    CChar (ch "U")];
                               Chr (ch "G"); Star Digit; dot_or_underscore;
                               Digit; Digit; Digit])));
    (* ^([A-Z][\._]\d{3}) *)
    (true, Seq Bol (Grp (seqs [Cls [AZ]; dot_or_underscore;
                               Digit; Digit; Digit]))) ].

(** [^[\d,.\s]+$] *)
Definition numeric_only : re :=
  seqs [Bol;
        Plus (Cls [CDigit; CChar (ch ","); CChar (ch "."); CSpace]); Eol].

(** [^(NRF|NGF|F|U|LH|BA|B|W|D|OK|UK|UKRD|OKFF)[\s:=]] with IGNORECASE *)
Definition label_first : re :=
  seqs [Bol;
        Grp (alts [lit "NRF"; lit "NGF"; lit "F"; lit "U"; lit "LH";
                   lit "BA"; lit "B"; lit "W"; lit "D"; lit "OK"; lit "UK";
                   lit "UKRD"; lit "OKFF"]);
        Cls [CSpace; CChar (ch ":"); CChar (ch "=")]].

(** [^[\d.,]+\s*m[²2]?$] *)
Definition value_only : re := seqs [Bol; num_any; unit_m2; Eol].

(** An entry of [found_areas]. *)
Record area_info := AreaInfo {
  line_idx : nat;
  area : Q;
  source_line : str
}.

Fixpoint first_search (ic : bool) (patterns : list re) (line : str)
  : option mobj :=
  match patterns with
  | [] => None
  | p :: ps =>
      match re_search ic p line with
      | Some m => Some m
      | None => first_search ic ps line
      end
  end.

(** [enumerate(l)] *)
Definition enumerate {A} (l : list A) : list (nat * A) :=
  combine (seq 0 (List.length l)) l.

(** First pass, one line: the [try] block swallows a ValueError. *)
Definition generic_area_at (i : nat) (line : str) : option area_info :=
  let line := strip line in
  match first_search true FLEXIBLE_AREA_PATTERNS line with
  | Some m =>
      match parse_german_number (group1 m) with
      | OK area =>
          if Qle_bool (1 # 2) area && Qle_bool area 10000
          then Some (AreaInfo i area line) else None
      | Err _ => None
      end
  | None => None
  end.

Definition generic_find_areas (lines : list str) : list area_info :=
  flat_map (fun il => match generic_area_at (fst il) (snd il) with
                      | Some a => [a]
                      | None => []
                      end) (enumerate lines).

Fixpoint first_room_match (patterns : list (bool * re)) (line : str)
  : option mobj :=
  match patterns with
  | [] => None
  | (ic, p) :: ps =>
      match re_match ic p line with
      | Some m => Some m
      | None => first_room_match ps line
      end
  end.

Definition has_key (k : str) (d : list (str * nat)) : bool :=
  existsb (fun kv => str_eqb k (fst kv)) d.

(** Second pass, one line: the identifier is recorded with its line index
    unless it is already a key. *)
Definition record_room_id (found : list (str * nat)) (il : nat * str)
  : list (str * nat) :=
  match first_room_match FLEXIBLE_ROOM_PATTERNS (strip (snd il)) with
  | Some m =>
      let room_id := group1 m in
      if has_key room_id found then found
      else found ++ [(room_id, fst il)]
  | None => found
  end.

(** Second pass: [found_room_ids], a dict in insertion order. *)
Definition generic_find_room_ids (lines : list str) : list (str * nat) :=
  fold_left record_room_id (enumerate lines) [].

(** [abs(area_line - room_line)], less 0.5 when the area comes later. *)
Definition distance (area_line room_line : nat) : Q :=
  let d := inject_Z (Z.abs (Z.of_nat area_line - Z.of_nat room_line)) in
  if (room_line <? area_line)%nat then d - (1 # 2) else d.

Definition Qlt_bool (a b : Q) : bool := negb (Qle_bool b a).

(** [d < best_distance], where [None] is [float('inf')]. *)
Definition below (d : Q) (best_distance : option Q) : bool :=
  match best_distance with
  | None => true
  | Some b => Qlt_bool d b
  end.

(** The loop over [enumerate(found_areas)]: the final
    [(best_distance, (best_area_idx, best_area))]. *)
Fixpoint best_area_loop (room_line_idx : nat) (used_areas : list nat)
    (cands : list (nat * area_info))
    (best_distance : option Q) (best : option (nat * area_info))
  : option (nat * area_info) :=
  match cands with
  | [] => best
  | (area_idx, info) :: cands' =>
      if existsb (Nat.eqb area_idx) used_areas
      then best_area_loop room_line_idx used_areas cands' best_distance best
      else
        let d := distance (line_idx info) room_line_idx in
        if below d best_distance && Qlt_bool d 15
        then best_area_loop room_line_idx used_areas cands'
               (Some d) (Some (area_idx, info))
        else best_area_loop room_line_idx used_areas cands' best_distance best
  end.

Definition name_candidate (candidate : str) : bool :=
  nonempty candidate
  && (1 <? List.length candidate)%nat
  && negb (matches false numeric_only candidate)
  && negb (matches true label_first candidate)
  && negb (matches false value_only candidate).

Fixpoint generic_room_name (lines : list str) (js : list nat) : option str :=
  match js with
  | [] => None
  | j :: js' =>
      if (j <? List.length lines)%nat && name_candidate (line_at lines j)
      then Some (line_at lines j)
      else generic_room_name lines js'
  end.

(** The record appended for an identifier and its area. *)
Definition generic_room (lines : list str) (page_idx : nat)
    (room_id : str) (room_line_idx : nat) (best_area : area_info)
  : ExtractedRoom :=
  let start_search := (room_line_idx + 1)%nat in
  let end_search := line_idx best_area in
  let room_name :=
    generic_room_name lines
      (py_range start_search (Nat.min end_search (start_search + 5))) in
  mkRoom room_id (str_or room_name (u "Unknown")) (area best_area)
    (area best_area) 1 page_idx (source_line best_area) None
    (categorize_room (str_or room_name [])) None None None (u "generic").

(** Third pass over [found_room_ids.items()], threading [used_areas]. *)
Fixpoint generic_assign (lines : list str) (page_idx : nat)
    (found_areas : list area_info) (ids : list (str * nat))
    (used_areas : list nat) : list ExtractedRoom :=
  match ids with
  | [] => []
  | (room_id, room_line_idx) :: ids' =>
      match best_area_loop room_line_idx used_areas (enumerate found_areas)
              None None with
      | Some (best_area_idx, best_area) =>
          generic_room lines page_idx room_id room_line_idx best_area
            :: generic_assign lines page_idx found_areas ids'
                 (best_area_idx :: used_areas)
      | None => generic_assign lines page_idx found_areas ids' used_areas
      end
  end.

Definition extract_generic (lines : list str) (page_idx : nat)
  : result (list ExtractedRoom) :=
  OK (generic_assign lines page_idx (generic_find_areas lines)
        (generic_find_room_ids lines) []).

(* ================================================================== *)
(** ** Style detection *)
(* ================================================================== *)

(** The ten probes of [detect_blueprint_style], each a [re.search]. *)
Definition has_f_colon (text : str) : bool :=       (* \bF:\s*[\d,]+ *)
  found false (seqs [Wb; lit "F:"; Star Space; num_comma]) text.
Definition has_f_equals (text : str) : bool :=      (* \bF=\s*[\d.,]+ *)
  found false (seqs [Wb; lit "F="; Star Space; num_any]) text.
Definition has_nrf (text : str) : bool :=    (* \bNRF:\s*[\d,]+, IGNORECASE *)
  found true (seqs [Wb; lit "NRF:"; Star Space; num_comma]) text.
Definition has_ngf (text : str) : bool :=   (* \bNGF:\s*[\d.,]+, IGNORECASE *)
  found true (seqs [Wb; lit "NGF:"; Star Space; num_any]) text.
Definition has_r_full (text : str) : bool :=   (* \bR\d+\.E\d+\.\d+\.\d+\b *)
  found false (seqs [Wb; r_full; Wb]) text.
Definition has_r_simple (text : str) : bool :=      (* \bR\d+[A-Z]\b *)
  found false (seqs [Wb; r_simple; Wb]) text.
Definition has_e_apartment (text : str) : bool :=
  (* \bE\.[A-Z0-9]+\.\d+\.\d+\b *)
  found false (seqs [Wb; lit "E."; Plus (Cls [AZ; d09]); Chr (ch ".");
                     Plus Digit; Chr (ch "."); Plus Digit; Wb]) text.
Definition has_b_pattern (text : str) : bool :=     (* \bB\.\d+\.\d+\.\d+\b *)
  found false (seqs [Wb; lit "B."; Plus Digit; Chr (ch "."); Plus Digit;
                     Chr (ch "."); Plus Digit; Wb]) text.
Definition has_grid_pattern (text : str) : bool :=  (* \b\d+_[a-z]\d+\.\d+\b *)
  found false (seqs [Wb; Plus Digit; Chr (ch "_"); Cls [az]; Plus Digit;
                     Chr (ch "."); Plus Digit; Wb]) text.
Definition has_haardtring_codes (text : str) : bool :=
  (* \b(BA:|B:|W:|D:)\s*\d *)
  found false (seqs [Wb; Grp (alts [lit "BA:"; lit "B:"; lit "W:"; lit "D:"]);
                     Star Space; Digit]) text.

Definition detect_blueprint_style (text : str) : BlueprintStyle :=
  let has_haardtring_rooms :=
    has_r_full text || has_r_simple text || has_e_apartment text in
  if has_f_colon text && has_haardtring_rooms then HAARDTRING
  else if has_f_colon text && has_haardtring_codes text then HAARDTRING
  else if has_nrf text && has_b_pattern text then LEIQ
  else if has_f_equals text && has_b_pattern text then LEIQ
  else if has_ngf text && (has_grid_pattern text || has_b_pattern text)
  then OMNITURM
  else if has_ngf text then OMNITURM
  else if has_nrf text || has_f_equals text then LEIQ
  else if has_f_colon text then HAARDTRING
  else UNKNOWN.

(* ================================================================== *)
(** ** Orchestrator *)
(* ================================================================== *)

(** The four extraction functions as values that can be compared. *)
Inductive extractor := fn_haardtring | fn_leiq | fn_omniturm | fn_generic.

Definition extractor_eq_dec (a b : extractor) : {a = b} + {a <> b}.
Proof. decide equality. Defined.

Definition fn_eqb (a b : extractor) : bool :=
  if extractor_eq_dec a b then true else false.

Definition call (f : extractor) (lines : list str) (page_idx : nat)
  : result (list ExtractedRoom) :=
  match f with
  | fn_haardtring => extract_haardtring lines page_idx
  | fn_leiq => extract_leiq lines page_idx
  | fn_omniturm => extract_omniturm lines page_idx
  | fn_generic => extract_generic lines page_idx
  end.

(** The dispatch table's [.get(detected_style)]. *)
Definition dispatch (s : BlueprintStyle) : option extractor :=
  match s with
  | HAARDTRING => Some fn_haardtring
  | LEIQ => Some fn_leiq
  | OMNITURM => Some fn_omniturm
  | UNKNOWN => None
  end.

(** [str(n)] for a non-negative int. *)
Definition nat_str (n : nat) : str := nat_digits (S n) (Z.of_nat n) [].

Definition fallback_order : list (BlueprintStyle * extractor) :=
  [ (HAARDTRING, fn_haardtring); (LEIQ, fn_leiq); (OMNITURM, fn_omniturm) ].

(** The accumulators [rooms] and [warnings]. *)
Definition acc := (list ExtractedRoom * list str)%type.

(** The [for alt_style, alt_fn in [...]] loop. *)
Fixpoint try_alternatives (extract_fn : extractor)
    (alts : list (BlueprintStyle * extractor))
    (lines : list str) (page_idx : nat) (a : acc) : result acc :=
  match alts with
  | [] => OK a
  | (alt_style, alt_fn) :: alts' =>
      if negb (fn_eqb alt_fn extract_fn) then
        alt_rooms <- call alt_fn lines page_idx ;;
        match alt_rooms with
        | _ :: _ =>
            OK (fst a ++ alt_rooms,
                snd a ++ [u "Page " ++ nat_str page_idx ++ u ": Used "
                            ++ style_value alt_style
                            ++ u " pattern as fallback"])
        | [] => try_alternatives extract_fn alts' lines page_idx a
        end
      else try_alternatives extract_fn alts' lines page_idx a
  end.

(** The body of the page loop for an existing page. *)
Definition process_page (extract_fn : extractor) (text : str)
    (page_idx : nat) (a : acc) : result acc :=
  let lines := split newline text in
  page_rooms <- call extract_fn lines page_idx ;;
  let a := (fst a ++ page_rooms, snd a) in
  match page_rooms with
  | [] =>
      a <- try_alternatives extract_fn fallback_order lines page_idx a ;;
      (* [if not page_rooms and extract_fn != extract_generic]:
         [page_rooms] is still the primary extractor's empty list. *)
      if negb (fn_eqb extract_fn fn_generic) then
        generic_rooms <- extract_generic lines page_idx ;;
        match generic_rooms with
        | _ :: _ =>
            OK (fst a ++ generic_rooms,
                snd a ++ [u "Page " ++ nat_str page_idx
                            ++ u ": Used generic flexible extraction"])
        | [] => OK a
        end
      else OK a
  | _ :: _ => OK a
  end.

Fixpoint page_loop (extract_fn : extractor) (doc : list str)
    (page_indices : list nat) (a : acc) : result acc :=
  match page_indices with
  | [] => OK a
  | page_idx :: rest =>
      if (List.length doc <=? page_idx)%nat then
        page_loop extract_fn doc rest
          (fst a, snd a ++ [u "Page " ++ nat_str page_idx
                              ++ u " does not exist"])
      else
        a <- process_page extract_fn (nth page_idx doc []) page_idx a ;;
        page_loop extract_fn doc rest a
  end.

(** [sum(xs)] *)
Definition py_sum (xs : list Q) : Q := fold_left Qplus xs 0.

(** [d[cat] = d.get(cat, 0) + x] on a dict kept in insertion order. *)
Fixpoint dict_add (d : list (RoomCategory * Q)) (cat : RoomCategory) (x : Q)
  : list (RoomCategory * Q) :=
  match d with
  | [] => [(cat, 0 + x)]
  | (k, v) :: d' =>
      if cat_eqb k cat then (k, v + x) :: d'
      else (k, v) :: dict_add d' cat x
  end.

Definition category_sums (rooms : list ExtractedRoom)
  : list (RoomCategory * Q) :=
  fold_left (fun d room => dict_add d (category room) (counted_m2 room))
    rooms [].

(** The part of [extract_room_areas] after the document is opened; [doc]
    holds each page's [get_text()], [pages] is a list of non-negative
    indices. *)
Definition extract_room_areas (doc : list str)
    (style : option BlueprintStyle) (pages : option (list nat))
  : result ExtractionResult :=
  let full_text := concat doc in
  let detected_style :=
    match style with
    | Some s => s
    | None => detect_blueprint_style full_text
    end in
  let '(extract_fn, warnings) :=
    match dispatch detected_style with
    | Some f => (f, [])
    | None =>
        (fn_generic, [u "Unknown blueprint style, trying flexible extraction"])
    end in
  let page_indices :=
    match pages with
    | Some ps => ps
    | None => py_range 0 (List.length doc)
    end in
  a <- page_loop extract_fn doc page_indices ([], warnings) ;;
  let rooms := fst a in
  OK (mkResult rooms
        (round2 (py_sum (map area_m2 rooms)))
        (round2 (py_sum (map counted_m2 rooms)))
        (List.length rooms) (List.length doc) detected_style
        (u "unified_extraction") (snd a)
        (map (fun kv => (fst kv, round2 (snd kv))) (category_sums rooms))).

(* ================================================================== *)
(** ** Vocabulary of the properties *)
(* ================================================================== *)

Unset Implicit Arguments.

(** Every character is an ASCII digit. *)
Definition all_digits (s : str) : Prop := Forall (fun c => is_digit c = true) s.

(** The strings [float] accepts: digits with at most one period and at
    least one digit. *)
Definition numeric (s : str) : Prop :=
  (all_digits s /\ s <> [])
  \/ exists ip fp,
       all_digits ip /\ all_digits fp /\ ip ++ fp <> []
       /\ s = ip ++ ch "." :: fp.

(** The window scanned after the anchor at line [i]. *)
Definition window (lines : list str) (i : nat) : list nat :=
  py_range (i + 1) (Nat.min (List.length lines) (i + 15)).

(** The area [a] was read at line [j] (inline, or as a bare [F:] with the
    value on the next line) and [b] is the override read from the line
    after the value. *)
Definition haardtring_found_at (lines : list str) (j : nat)
    (a : Q) (b : option Q) : Prop :=
  (exists f_match,
      re_match true haardtring_area (line_at lines j) = Some f_match
      /\ parse_german_number (group1 f_match) = OK a
      /\ haardtring_balcony_at lines (j + 1) = OK b)
  \/ (line_at lines j = u "F:" /\ (j + 1 < List.length lines)%nat
      /\ exists area_match,
           re_match false value_comma (line_at lines (j + 1))
             = Some area_match
           /\ parse_german_number (group1 area_match) = OK a
           /\ haardtring_balcony_at lines (j + 2) = OK b).

(** The lines of a page, from their literals. *)
Definition text_lines (l : list string) : list str := map u l.

(** Example pages and the records they yield. *)
Definition leiq_example_lines : list str :=
  text_lines ["B.00.2.002"; "Dachterrasse"; "NRF: 10,00 m2"]%string.

Definition leiq_example_room : ExtractedRoom :=
  mkRoom (u "B.00.2.002") (u "Dachterrasse") 10 10 1 0 (u "NRF: 10.0") None
    OUTDOOR None None None (u "NRF:").


Definition generic_example_lines : list str :=
  text_lines ["B.00.2.002"; "  NRF: 50,37 m2 "]%string.

Definition generic_example_room : ExtractedRoom :=
  mkRoom (u "B.00.2.002") (u "Unknown") (Qred 50.37) (Qred 50.37) 1 0
    (u "NRF: 50,37 m2") None OTHER None None None (u "generic").

(** A test on one character: a literal or a class. *)
Inductive ctest :=
| TChr (d : N)
| TCls (items : list citem).

(** Whether [c] passes the test, with or without IGNORECASE. *)
Definition test_ok (ic : bool) (c : N) (t : ctest) : bool :=
  match t with
  | TChr d => chr_match ic d c
  | TCls items => existsb (fun i => item_match ic i c) items
  end.

(** Whether [r] may match without consuming a character. *)
Fixpoint nullable (r : re) : bool :=
  match r with
  | Chr _ | Cls _ => false
  | Seq r1 r2 => nullable r1 && nullable r2
  | Alt r1 r2 => nullable r1 || nullable r2
  | Grp r1 => nullable r1
  | Star _ | Opt _ | Bol | Eol | Wb | Eps => true
  end.

(** The tests one of which the first consumed character passes. *)
Fixpoint first_tests (r : re) : list ctest :=
  match r with
  | Chr d => [TChr d]
  | Cls items => [TCls items]
  | Seq r1 r2 => first_tests r1 ++ (if nullable r1 then first_tests r2 else [])
  | Alt r1 r2 => first_tests r1 ++ first_tests r2
  | Star r1 | Opt r1 | Grp r1 => first_tests r1
  | Bol | Eol | Wb | Eps => []
  end.

(** The text at the cursor starts with a character that [r] can consume
    first. *)
Definition first_ok (ic : bool) (r : re) (s : mst) : Prop :=
  exists c t, m_rest s = c :: t /\ existsb (test_ok ic c) (first_tests r) = true.

(** Closes a boolean goal once a disjunct has been rewritten to [true]. *)
Ltac btrue :=
  cbn [andb orb]; rewrite ?orb_true_r, ?orb_true_l; cbn [andb orb];
  reflexivity.

(** The identifier a line anchors for a style, if any. *)
Definition anchor_id (f : extractor) (line : str) : option str :=
  match f with
  | fn_haardtring =>
      option_map group1 (first_match false haardtring_room_patterns line)
  | fn_leiq => option_map group1 (re_match false leiq_room_pattern line)
  | fn_omniturm =>
      if matches false omniturm_room_pattern line then Some line else None
  | fn_generic => None
  end.

(** Line [j] carries the style's area label: inline with its value, or
    bare with the value on line [j + 1]. *)
Definition labelled_area_at (f : extractor) (lines : list str) (j : nat)
  : bool :=
  let curr := line_at lines j in
  let next_ok r :=
    (j + 1 <? List.length lines)%nat
    && matches false r (line_at lines (j + 1)) in
  match f with
  | fn_haardtring =>
      matches true haardtring_area curr
      || (str_eqb curr (u "F:") && next_ok value_comma)
  | fn_leiq =>
      matches true leiq_nrf curr || matches true leiq_f curr
      || (str_in curr split_labels && next_ok value_any)
  | fn_omniturm =>
      matches true omniturm_ngf curr
      || (str_eqb curr (u "NGF:") && next_ok value_any)
  | fn_generic => false
  end.

(** Line [j] names a shaft and line [j + 2] carries its value
    (omniturm only). *)
Definition shaft_area_at (f : extractor) (lines : list str) (j : nat)
  : bool :=
  match f with
  | fn_omniturm =>
      matches false omniturm_schacht (line_at lines j)
      && (j + 2 <? List.length lines)%nat
      && matches false value_comma (line_at lines (j + 2))
  | _ => false
  end.

(** The state of the inner loop: no best yet, or a best candidate that is
    unused, eligible and recorded with its own distance. *)
Definition best_state (room_line_idx : nat) (used_areas : list nat)
    (best_distance : option Q) (best : option (nat * area_info)) : Prop :=
  match best_distance, best with
  | None, None => True
  | Some d0, Some (k0, i0) =>
      d0 = distance (line_idx i0) room_line_idx /\ d0 < 15
      /\ ~ In k0 used_areas
  | _, _ => False
  end.

(** The choice made for an identifier: its id, its line, and the index
    and entry of the area it takes. *)
Definition pick := (str * nat * nat * area_info)%type.

(** The index of the area a pick takes. *)
Definition pick_idx (p : pick) : nat := snd (fst p).

Definition pick_room (lines : list str) (page_idx : nat) (p : pick)
  : ExtractedRoom :=
  let '(room_id, room_line_idx, _, best_area) := p in
  generic_room lines page_idx room_id room_line_idx best_area.

(** The third pass without the construction of the records. *)
Fixpoint generic_picks (found_areas : list area_info)
    (ids : list (str * nat)) (used_areas : list nat) : list pick :=
  match ids with
  | [] => []
  | (room_id, room_line_idx) :: ids' =>
      match best_area_loop room_line_idx used_areas (enumerate found_areas)
              None None with
      | Some (best_area_idx, best_area) =>
          (room_id, room_line_idx, best_area_idx, best_area)
            :: generic_picks found_areas ids' (best_area_idx :: used_areas)
      | None => generic_picks found_areas ids' used_areas
      end
  end.

(** [used_areas] after the picks made so far. *)
Definition used_after (picks : list pick) (used_areas : list nat)
  : list nat :=
  rev (map pick_idx picks) ++ used_areas.

(** The area the identifier at [room_line_idx] takes when the identifiers
    [ids1] have been served before it. *)
Definition choice_after (found_areas : list area_info)
    (ids1 : list (str * nat)) (room_line_idx : nat)
  : option (nat * area_info) :=
  best_area_loop room_line_idx
    (used_after (generic_picks found_areas ids1 []) [])
    (enumerate found_areas) None None.

(** A successful match calls its continuation on a later state of the
    same text; the capture is the old one or a piece of the text ahead. *)
Definition later_state (s s' : mst) : Prop :=
  exists mid,
    m_rest s = mid ++ m_rest s'
    /\ m_pos s' = (m_pos s + List.length mid)%nat
    /\ (m_cap s' = m_cap s
        \/ exists g, m_cap s' = Some g /\ substring_of g (m_rest s)).

(** The value [a] is the parse of a token that occurs literally in one of
    the lines. *)
Definition token_source (lines : list str) (a : Q) : Prop :=
  exists line token,
    In line lines /\ substring_of token line
    /\ parse_german_number token = OK a.

(** The identifier the generic extractor reads at line [i], if any. *)
Definition room_id_at (lines : list str) (i : nat) : option str :=
  match nth_error lines i with
  | Some line =>
      option_map group1
        (first_room_match FLEXIBLE_ROOM_PATTERNS (strip line))
  | None => None
  end.

(** The sum of a list, summed from the right. *)
Definition sum_list (xs : list Q) : Q := fold_right Qplus 0 xs.

(** The counted areas of the rooms of one category. *)
Definition sum_cat (c : RoomCategory) (rooms : list ExtractedRoom) : Q :=
  sum_list
    (map counted_m2 (filter (fun r => cat_eqb (category r) c) rooms)).

(** [d.get(c)] *)
Fixpoint dict_get (d : list (RoomCategory * Q)) (c : RoomCategory)
  : option Q :=
  match d with
  | [] => None
  | (k, v) :: d' => if cat_eqb k c then Some v else dict_get d' c
  end.

(** [d.get(c, 0)] *)
Definition get_or_0 (d : list (RoomCategory * Q)) (c : RoomCategory) : Q :=
  match dict_get d c with Some v => v | None => 0 end.

(** One step of the loop that fills [totals_by_category]. *)
Definition add_room (d : list (RoomCategory * Q)) (room : ExtractedRoom)
  : list (RoomCategory * Q) :=
  dict_add d (category room) (counted_m2 room).

(** The eleven members of [RoomCategory]. *)
Definition all_categories : list RoomCategory :=
  [OFFICE; RESIDENTIAL; CIRCULATION; STAIRS; ELEVATORS; SHAFTS; TECHNICAL;
   SANITARY; STORAGE; OUTDOOR; OTHER].

(** A one-page haardtring document and its extraction result. *)
Definition example_doc : list str :=
  [join newline
     (text_lines ["R2.E5.3.5"; "Schlafen"; "F: 12,34 m²";
                  "R1A"; "Balkon"; "F: 10,00 m²"; "50%: 5,00 m²";
                  "R1B"; "Bad"; "F: 4,50 m²"]%string)].

Definition example_result : ExtractionResult :=
  Eval vm_compute in
    match extract_room_areas example_doc None None with
    | OK res => res
    | Err _ => mkResult [] 0 0 0 0 UNKNOWN [] [] []
    end.

(* ================================================================== *)
(** ** Vocabulary of the further properties *)
(* ================================================================== *)

(** Some keyword of the list occurs in the lower-cased name. *)
Definition keyword_in (name : str) (keywords : list str) : Prop :=
  exists keyword, In keyword keywords /\ substring_of keyword (lower name).

(** A token as the numeric capture groups deliver it: ASCII digits,
    periods and commas only. *)
Definition token_char (c : N) : bool :=
  is_digit c || (c =? ch ".")%N || (c =? ch ",")%N.

Definition is_token (s : str) : Prop :=
  Forall (fun c => token_char c = true) s.

(** The identifier a line of the page anchors for an extractor: the
    style's room-number grammar, or one of the flexible room patterns for
    the generic extractor. *)
Definition page_anchor (f : extractor) (lines : list str) (i : nat)
  : option str :=
  match f with
  | fn_generic => room_id_at lines i
  | _ => anchor_id f (line_at lines i)
  end.

Definition is_some {A} (x : option A) : bool :=
  match x with Some _ => true | None => false end.

(** The indices of the page's anchor lines. *)
Definition anchor_lines (f : extractor) (lines : list str) : list nat :=
  filter (fun i => is_some (page_anchor f lines i))
    (seq 0 (List.length lines)).

(** The identifier of a pick. *)
Definition pick_id (p : pick) : str := fst (fst (fst p)).

(** The name and the page a record is built with: [room_name or "Unknown"],
    [categorize_room(room_name or "")], and no bounding box. *)
Definition built_with (name : option str) (page_idx : nat)
    (r : ExtractedRoom) : Prop :=
  room_name r = str_or name (u "Unknown")
  /\ category r = categorize_room (str_or name [])
  /\ page r = page_idx /\ bbox r = None.

(** The values of [extraction_pattern] an extractor writes. *)
Definition extractor_patterns (f : extractor) : list str :=
  match f with
  | fn_haardtring => [u "F:"]
  | fn_leiq => split_labels
  | fn_omniturm => [u "NGF:"]
  | fn_generic => [u "generic"]
  end.

(** [pattern_used] is unset or one of the four labels. *)
Definition pattern_ok (v : leiq_vars) : Prop :=
  match lv_pattern_used v with
  | Some p => In p split_labels
  | None => True
  end.

(** The style the orchestrator works with: the one passed in, or the one
    detected in the text of the whole document. *)
Definition working_style (doc : list str) (style : option BlueprintStyle)
  : BlueprintStyle :=
  match style with
  | Some s => s
  | None => detect_blueprint_style (concat doc)
  end.

(** The extraction function the orchestrator selects for it. *)
Definition primary_extractor (doc : list str)
    (style : option BlueprintStyle) : extractor :=
  match dispatch (working_style doc style) with
  | Some f => f
  | None => fn_generic
  end.

(** The warnings before the first page is read. *)
Definition initial_warnings (doc : list str)
    (style : option BlueprintStyle) : list str :=
  match dispatch (working_style doc style) with
  | Some _ => []
  | None => [u "Unknown blueprint style, trying flexible extraction"]
  end.

(** The page indices the orchestrator walks through. *)
Definition requested (doc : list str) (pages : option (list nat))
  : list nat :=
  match pages with
  | Some ps => ps
  | None => py_range 0 (List.length doc)
  end.

(** The lines of page [p]. *)
Definition page_lines (doc : list str) (p : nat) : list str :=
  split newline (nth p doc []).

(** The accumulators [a] extended by the rooms and warnings [r]. *)
Definition acc_app (a r : acc) : acc := (fst a ++ fst r, snd a ++ snd r).

Definition missing_page_warning (p : nat) : str :=
  u "Page " ++ nat_str p ++ u " does not exist".

(** The result built from the final accumulators. *)
Definition result_of (doc : list str) (detected_style : BlueprintStyle)
    (a : acc) : ExtractionResult :=
  mkResult (fst a)
    (round2 (py_sum (map area_m2 (fst a))))
    (round2 (py_sum (map counted_m2 (fst a))))
    (List.length (fst a)) (List.length doc) detected_style
    (u "unified_extraction") (snd a)
    (map (fun kv => (fst kv, round2 (snd kv))) (category_sums (fst a))).

(* ================================================================== *)
(** ** The pdfplumber fallback *)
(* ================================================================== *)

(** A match with its extent: [m.group(0)], the capture of group 1, and
    the matcher state at its end. *)
Record span := Span {
  sp_group0 : str;
  sp_group1 : mobj;
  sp_end : mst
}.

(** [pattern.match(text, pos)]: a match that starts at the cursor. *)
Definition match_at (ic : bool) (r : re) (s : mst) : option span :=
  rmatch ic r (MSt (m_prev s) (m_pos s) (m_rest s) None)
    (fun s' =>
       Some (Span (firstn (m_pos s' - m_pos s) (m_rest s)) (m_cap s') s')).

(** [pattern.finditer(text)] from the cursor on: the matches from left to
    right, each search starting where the last match ended (one character
    further after a match of nothing). *)
Fixpoint finditer_from (ic : bool) (r : re) (fuel : nat) (s : mst)
  : list span :=
  match fuel with
  | O => []
  | S fuel' =>
      let step :=
        match advance s with
        | Some (_, s') => finditer_from ic r fuel' s'
        | None => []
        end in
      match match_at ic r s with
      | Some sp =>
          if (m_pos (sp_end sp) =? m_pos s)%nat then sp :: step
          else sp :: finditer_from ic r fuel' (sp_end sp)
      | None => step
      end
  end.

Definition finditer (ic : bool) (r : re) (text : str) : list span :=
  finditer_from ic r (S (List.length text)) (MSt None 0 text None).

(** [\d+[,.]?\d*] *)
Definition plumber_number : re :=
  seqs [Plus Digit; Opt (Cls [CChar (ch ","); CChar (ch ".")]); Star Digit].

(** [NRF\s*:\s*(...)\s*m[²2]?] with IGNORECASE, the group being the
    number above *)
Definition area_pattern : re :=
  seqs [lit "NRF"; Star Space; Chr (ch ":"); Star Space; Grp plumber_number;
        unit_m2].

(** [f"room_{room_counter:03d}"] *)
Definition room_label (room_counter : nat) : str :=
  let digits := nat_str room_counter in
  u "room_" ++ repeat (ch "0") (3 - List.length digits) ++ digits.

(** The body of the [try] block for one match. *)
Definition plumber_room (room_counter page_idx : nat) (m : span)
  : result ExtractedRoom :=
  let area_str := replace (ch ",") (u ".") (group1 (sp_group1 m)) in
  area_m2 <- py_float area_str ;;
  OK (mkRoom (room_label room_counter) (u "Unknown") area_m2 area_m2 1
        page_idx (sp_group0 m) None OTHER None None None (u "NRF:")).

(** The loop over the matches of one page, on [(rooms, room_counter)]:
    the counter is incremented before the conversion, a ValueError drops
    the match. *)
Fixpoint plumber_matches (ms : list span) (page_idx : nat)
    (st : list ExtractedRoom * nat) : list ExtractedRoom * nat :=
  match ms with
  | [] => st
  | m :: ms' =>
      let room_counter := S (snd st) in
      match plumber_room room_counter page_idx m with
      | OK room =>
          plumber_matches ms' page_idx (fst st ++ [room], room_counter)
      | Err _ => plumber_matches ms' page_idx (fst st, room_counter)
      end
  end.

(** [page.extract_text() or ""] *)
Definition text_or_empty (t : option str) : str :=
  match t with Some s => s | None => [] end.

(** The loop over the page indices (non-negative, as for the
    orchestrator); [pdf] holds what [extract_text()] returns for each
    page.  An index outside the document is skipped. *)
Fixpoint plumber_pages (pdf : list (option str)) (page_indices : list nat)
    (st : list ExtractedRoom * nat) : list ExtractedRoom * nat :=
  match page_indices with
  | [] => st
  | page_idx :: rest =>
      if (List.length pdf <=? page_idx)%nat then plumber_pages pdf rest st
      else
        let text := text_or_empty (nth page_idx pdf None) in
        plumber_pages pdf rest
          (plumber_matches (finditer true area_pattern text) page_idx st)
  end.

(** The part of [extract_room_areas_pdfplumber] after the file is
    opened. *)
Definition extract_room_areas_pdfplumber (pdf : list (option str))
    (pages : option (list nat)) : ExtractionResult :=
  let page_indices :=
    match pages with
    | Some ps => ps
    | None => py_range 0 (List.length pdf)
    end in
  let rooms := fst (plumber_pages pdf page_indices ([], 0%nat)) in
  let total_area := round2 (py_sum (map area_m2 rooms)) in
  mkResult rooms total_area total_area (List.length rooms)
    (List.length pdf) UNKNOWN (u "pdfplumber_fallback")
    [u "Used pdfplumber fallback"] [].

(** What a pattern consumes and what it leaves in the group: [run ic r w
    c c'] when [r] can match the text [w], the capture being [c] before
    and [c'] after (the assertions [^], [$] and [\b] consume nothing). *)
Inductive run (ic : bool) : re -> str -> option str -> option str -> Prop :=
| run_Eps c : run ic Eps [] c c
| run_Chr d x c : chr_match ic d x = true -> run ic (Chr d) [x] c c
| run_Cls items x c :
    existsb (fun i => item_match ic i x) items = true ->
    run ic (Cls items) [x] c c
| run_Seq r1 r2 w1 w2 c c1 c2 :
    run ic r1 w1 c c1 -> run ic r2 w2 c1 c2 ->
    run ic (Seq r1 r2) (w1 ++ w2) c c2
| run_AltL r1 r2 w c c' : run ic r1 w c c' -> run ic (Alt r1 r2) w c c'
| run_AltR r1 r2 w c c' : run ic r2 w c c' -> run ic (Alt r1 r2) w c c'
| run_Star0 r c : run ic (Star r) [] c c
| run_StarS r w1 w2 c c1 c2 :
    run ic r w1 c c1 -> run ic (Star r) w2 c1 c2 ->
    run ic (Star r) (w1 ++ w2) c c2
| run_Opt0 r c : run ic (Opt r) [] c c
| run_OptS r w c c' : run ic r w c c' -> run ic (Opt r) w c c'
| run_Grp r w c c' : run ic r w c c' -> run ic (Grp r) w c (Some w)
| run_Bol c : run ic Bol [] c c
| run_Eol c : run ic Eol [] c c
| run_Wb c : run ic Wb [] c c.

(** The pattern has no capturing group. *)
Fixpoint groupless (r : re) : bool :=
  match r with
  | Grp _ => false
  | Seq r1 r2 | Alt r1 r2 => groupless r1 && groupless r2
  | Star r1 | Opt r1 => groupless r1
  | Chr _ | Cls _ | Bol | Eol | Wb | Eps => true
  end.

(** The number a fallback match captures: digits, then at most one comma
    or period, then digits. *)
Definition plumber_token (g : str) : Prop :=
  exists ip sep fp,
    g = ip ++ sep ++ fp /\ all_digits ip /\ ip <> [] /\ all_digits fp
    /\ (sep = [] \/ sep = [ch ","] \/ sep = [ch "."]).

(** The fallback's state [(rooms, room_counter)] when no match has been
    dropped: the rooms carry the labels of 1, 2, ... up to the counter. *)
Definition numbered (st : list ExtractedRoom * nat) : Prop :=
  snd st = List.length (fst st)
  /\ map room_number (fst st) = map room_label (seq 1 (snd st)).

(** A page for the fallback and the first room it yields. *)
Definition fallback_example_pdf : list (option str) :=
  [Some (u "Flur  nrf : 12,5 m2, NRF:0m")].

Definition fallback_example_room : ExtractedRoom :=
  mkRoom (u "room_001") (u "Unknown") (Qred 12.5) (Qred 12.5) 1 0
    (u "nrf : 12,5 m2") None OTHER None None None (u "NRF:").

(* ================================================================== *)
(** ** Dictionaries, the convenience API and the HTTP endpoint *)
(* ================================================================== *)

(** The values the dictionaries hold; a dict keeps its insertion order. *)
#[warnings="-register-all"]
Inductive value :=
| VInt (n : nat)
| VFloat (x : Q)
| VStr (s : str)
| VList (l : list value)
| VDict (d : list (str * value)).

Definition dict := list (str * value).

(** [RoomCategory.value] *)
Definition category_value (c : RoomCategory) : str :=
  match c with
  | OFFICE => u "office"
  | RESIDENTIAL => u "residential"
  | CIRCULATION => u "circulation"
  | STAIRS => u "stairs"
  | ELEVATORS => u "elevators"
  | SHAFTS => u "shafts"
  | TECHNICAL => u "technical"
  | SANITARY => u "sanitary"
  | STORAGE => u "storage"
  | OUTDOOR => u "outdoor"
  | OTHER => u "other"
  end.

(** [BlueprintStyle(value)]: the member with this value, or ValueError. *)
Definition BlueprintStyle_of (value : str) : result BlueprintStyle :=
  match
    find (fun s => str_eqb (style_value s) value)
      [HAARDTRING; LEIQ; OMNITURM; UNKNOWN]
  with
  | Some s => OK s
  | None => Err ValueError
  end.

Definition BoundingBox_to_dict (b : BoundingBox) : dict :=
  [ (u "x0", VFloat (x0 b)); (u "y0", VFloat (y0 b));
    (u "x1", VFloat (x1 b)); (u "y1", VFloat (y1 b)) ].

(** [d.get(key)] *)
Fixpoint dict_lookup (key : str) (d : dict) : option value :=
  match d with
  | [] => None
  | (k, v) :: d' => if str_eqb key k then Some v else dict_lookup key d'
  end.

(** [if x: result[key] = v(x)] *)
Definition opt_entry {A} (key : str) (x : option A) (v : A -> value)
  : dict :=
  match x with
  | Some a => [(key, v a)]
  | None => []
  end.

(** [x] when [if x:] holds for an optional string. *)
Definition if_nonempty (x : option str) : option str :=
  match x with
  | Some (c :: s) => Some (c :: s)
  | _ => None
  end.

(** [ExtractedRoom.to_dict] *)
Definition ExtractedRoom_to_dict (r : ExtractedRoom) : dict :=
  [ (u "room_number", VStr (room_number r));
    (u "room_name", VStr (room_name r));
    (u "area_m2", VFloat (area_m2 r));
    (u "counted_m2", VFloat (counted_m2 r));
    (u "factor", VFloat (factor r));
    (u "page", VInt (page r));
    (u "source_text", VStr (source_text r));
    (u "category", VStr (category_value (category r)));
    (u "extraction_pattern", VStr (extraction_pattern r)) ]
  ++ opt_entry (u "bbox") (bbox r) (fun b => VDict (BoundingBox_to_dict b))
  ++ opt_entry (u "perimeter_m") (if_truthy (perimeter_m r)) VFloat
  ++ opt_entry (u "height_m") (if_truthy (height_m r)) VFloat
  ++ opt_entry (u "factor_source") (if_nonempty (factor_source r)) VStr.

(** [ExtractionResult.to_dict] *)
Definition ExtractionResult_to_dict (res : ExtractionResult) : dict :=
  [ (u "rooms", VList (map (fun r => VDict (ExtractedRoom_to_dict r))
                         (rooms res)));
    (u "total_area_m2", VFloat (total_area_m2 res));
    (u "total_counted_m2", VFloat (total_counted_m2 res));
    (u "room_count", VInt (room_count res));
    (u "page_count", VInt (page_count res));
    (u "blueprint_style", VStr (style_value (blueprint_style res)));
    (u "extraction_method", VStr (extraction_method res));
    (u "warnings", VList (map VStr (warnings res)));
    (u "totals_by_category",
      VDict (map (fun kv => (category_value (fst kv), VFloat (snd kv)))
               (totals_by_category res))) ].

(** [BlueprintStyle(style) if style else None] *)
Definition style_enum_of (style : option str)
  : result (option BlueprintStyle) :=
  match style with
  | Some (c :: s) => st <- BlueprintStyle_of (c :: s) ;; OK (Some st)
  | _ => OK None
  end.

(** [extract_to_dict], after the document is opened. *)
Definition extract_to_dict (doc : list str) (style : option str)
    (pages : option (list nat)) : result dict :=
  style_enum <- style_enum_of style ;;
  result <- extract_room_areas doc style_enum pages ;;
  OK (ExtractionResult_to_dict result).

(** The record that [to_dict] keeps: an optional field that is falsy (a
    perimeter or height of zero, an empty factor source) is dropped like
    a missing one. *)
Definition kept (r : ExtractedRoom) : ExtractedRoom :=
  mkRoom (room_number r) (room_name r) (area_m2 r) (counted_m2 r)
    (factor r) (page r) (source_text r) (bbox r) (category r)
    (if_truthy (perimeter_m r)) (if_truthy (height_m r))
    (if_nonempty (factor_source r)) (extraction_pattern r).

(** [s.endswith(suffix)] *)
Definition ends_with (suffix s : str) : bool :=
  starts_with (rev suffix) (rev s).

(** [raise HTTPException(status_code=...)] *)
Inductive HTTPException := Http (status_code : nat).

(** The endpoint [/extract/areas] of [main.py], for an upload that opens
    as the document [doc], PyMuPDF being installed: the answer is the
    exception raised or the result whose fields the response copies. *)
Definition extract_areas (filename : str) (doc : list str)
    (style : option str) : HTTPException + ExtractionResult :=
  if negb (ends_with (u ".pdf") (lower filename)) then inl (Http 400)
  else
    match
      match style with
      | Some (c :: s) =>
          match BlueprintStyle_of (lower (c :: s)) with
          | OK st => inr (Some st)
          | Err _ => inl (Http 400)
          end
      | _ => inr None
      end
    with
    | inl e => inl e
    | inr style_enum =>
        match extract_room_areas doc style_enum None with
        | OK result => inr result
        | Err _ => inl (Http 500)
        end
    end.

(** The commas, the periods and the presence of a digit in a token. *)
Definition commas (s : str) : nat := count_occ N.eq_dec s (ch ",").
Definition periods (s : str) : nat := count_occ N.eq_dec s (ch ".").
Definition has_digit (s : str) : bool := existsb is_digit s.

(** The bodies of the capturing groups of a pattern. *)
Fixpoint groups (r : re) : list re :=
  match r with
  | Grp r1 => r1 :: groups r1
  | Seq r1 r2 | Alt r1 r2 => groups r1 ++ groups r2
  | Star r1 | Opt r1 => groups r1
  | Chr _ | Cls _ | Bol | Eol | Wb | Eps => []
  end.

(** The pattern captures a number: its groups are [[\d,]+] or [[\d.,]+]. *)
Definition captures_number (r : re) : Prop :=
  Forall (fun g => g = num_comma \/ g = num_any) (groups r).

(** A token that the number parser rejects: no digit, two commas or more,
    or no comma and two periods or more. *)
Definition unparsable (token : str) : Prop :=
  is_token token
  /\ (has_digit token = false \/ (2 <= commas token)%nat
      \/ (commas token = 0%nat /\ (2 <= periods token)%nat)).

(** One of the lines holds a token that the number parser rejects. *)
Definition bad_token (lines : list str) : Prop :=
  exists line token,
    In line lines /\ substring_of token line /\ unparsable token
    /\ parse_german_number token = Err ValueError.

(** The name [n] is read off the page: it is a stripped line, or (for
    the omniturm extractor) the designation of a shaft, alone or with the
    line after it in brackets. *)
Definition name_on_page (f : extractor) (lines : list str) (n : str)
  : Prop :=
  (exists j, (j < List.length lines)%nat /\ n = line_at lines j)
  \/ (f = fn_omniturm
      /\ exists j m,
           (j < List.length lines)%nat
           /\ re_match false omniturm_schacht (line_at lines j) = Some m
           /\ (n = group1 m
               \/ ((j + 1 < List.length lines)%nat
                   /\ n = group1 m ++ u " (" ++ line_at lines (j + 1)
                            ++ u ")"))).

(** The name found for a record, if any, is read off the page. *)
Definition name_ok (f : extractor) (lines : list str) (name : option str)
  : Prop :=
  match name with
  | Some n => name_on_page f lines n
  | None => True
  end.

(** The perimeter and the height read so far come from tokens of the
    page. *)
Definition measures_ok (lines : list str) (v : leiq_vars) : Prop :=
  (forall q, lv_perimeter v = Some q -> token_source lines q)
  /\ (forall q, lv_height v = Some q -> token_source lines q).

(** What a pattern matches, from one matcher state to a later one: the
    declarative reading of the pattern language, the assertions [^], [$]
    and [\b] being tested where they stand and the group recording what
    its body consumed.  A repetition consumes something each time
    round. *)
Inductive steps (ic : bool) : re -> mst -> mst -> Prop :=
| steps_Eps s : steps ic Eps s s
| steps_Chr d c s s' :
    advance s = Some (c, s') -> chr_match ic d c = true ->
    steps ic (Chr d) s s'
| steps_Cls items c s s' :
    advance s = Some (c, s') ->
    existsb (fun i => item_match ic i c) items = true ->
    steps ic (Cls items) s s'
| steps_Seq r1 r2 s s1 s2 :
    steps ic r1 s s1 -> steps ic r2 s1 s2 -> steps ic (Seq r1 r2) s s2
| steps_AltL r1 r2 s s' : steps ic r1 s s' -> steps ic (Alt r1 r2) s s'
| steps_AltR r1 r2 s s' : steps ic r2 s s' -> steps ic (Alt r1 r2) s s'
| steps_Star0 r s : steps ic (Star r) s s
| steps_StarS r s s1 s2 :
    steps ic r s s1 -> m_pos s1 <> m_pos s -> steps ic (Star r) s1 s2 ->
    steps ic (Star r) s s2
| steps_Opt0 r s : steps ic (Opt r) s s
| steps_OptS r s s' : steps ic r s s' -> steps ic (Opt r) s s'
| steps_Grp r s s' :
    steps ic r s s' ->
    steps ic (Grp r) s
      (MSt (m_prev s') (m_pos s') (m_rest s')
         (Some (firstn (m_pos s' - m_pos s) (m_rest s))))
| steps_Bol s : m_pos s = 0%nat -> steps ic Bol s s
| steps_Eol s : at_eol s = true -> steps ic Eol s s
| steps_Wb s :
    xorb (word_before s) (word_after s) = true -> steps ic Wb s s.

(** The cursor moved [j] characters on. *)
Fixpoint state_after (j : nat) (s : mst) : option mst :=
  match j with
  | O => Some s
  | S j' =>
      match advance s with
      | Some (_, s') => state_after j' s'
      | None => None
      end
  end.

(** The pattern matches somewhere in the text: at some offset [j] of the
    text there is a match that starts there. *)
Definition occurs (ic : bool) (r : re) (text : str) : Prop :=
  exists j s s',
    state_after j (MSt None 0 text None) = Some s /\ steps ic r s s'.

(** Texts and the style detected in them, one at least for each branch
    of the decision tree. *)
Definition style_examples : list (list string * BlueprintStyle) :=
  [ (["R2.E5.3.5"; "Schlafen"; "F: 12,34 m²"], HAARDTRING);
    (["R1A"; "Balkon"; "F: 10,00 m²"], HAARDTRING);
    (["E.E0.2.1"; "Wohnen"; "F: 20,5"], HAARDTRING);
    (["Wohnen"; "F: 20,5 m²"; "BA: 3,2"], HAARDTRING);
    (["B.00.2.002"; "Büro"; "NRF: 3,45 m2"], LEIQ);
    (["B.00.2.002"; "Büro"; "F= 50.37 m²"], LEIQ);
    (["33_b6.12"; "Flur"; "NGF: 12,30 m2"], OMNITURM);
    (["Flur"; "ngf: 12,30 m2"], OMNITURM);
    (["Büro"; "NRF: 3,45 m2"], LEIQ);
    (["Büro"; "F= 50.37"], LEIQ);
    (["Wohnen"; "F: 20,5 m²"], HAARDTRING);
    (["Grundriss Erdgeschoss"; "M 1:100"], UNKNOWN);
    ([], UNKNOWN);
    (["NF: 12,5 m²"], UNKNOWN);
    (["R1A"; "F: 10,00 m²"; "NGF: 12,30 m2"; "B.00.2.002"; "NRF: 3,45"],
     HAARDTRING);
    (["B.00.2.002"; "NRF: 3,45"; "NGF: 12,30 m2"], LEIQ);
    (["NGF: 12,30 m2"; "NRF: 3,45"; "F: 10,00"], OMNITURM);
    (["NRF: 3,45"; "F: 10,00"], LEIQ);
    (["BA: 3"; "NRF: 3,45"; "F: 10,00"], HAARDTRING) ]%string.

(** The last character of [s] is a word character; an empty [s] has
    none. *)
Definition ends_in_word (s : str) : bool :=
  match rev s with
  | c :: _ => is_word c
  | [] => false
  end.

(** An area label stands in the text: the label at the start of a word
    (in any letter case when [ic] holds), then any white space, then a
    digit or one of the characters [extra]. *)
Definition label_in (ic : bool) (label extra : str) (text : str) : Prop :=
  exists pre lab gap c post,
    text = pre ++ lab ++ gap ++ c :: post
    /\ ends_in_word pre = false
    /\ (if ic then lower lab = lower label else lab = label)
    /\ forallb is_space gap = true
    /\ is_digit c || has_char c extra = true.

(** A number of hundredths, in lowest terms. *)
Definition two_decimals (x : Q) : Prop := exists k : Z, x = Qred (k # 100).


(** A haardtring page with a balcony and no override, and its record. *)
Definition outdoor_example_lines : list str :=
  text_lines ["R1A"; "Balkon"; "F: 12,34 m²"]%string.

Definition outdoor_example_room : ExtractedRoom :=
  mkRoom (u "R1A") (u "Balkon") (Qred 12.34) (Qred 6.17) (1 # 2) 0
    (u "F: 12.34") None OUTDOOR None None (Some (u "default_outdoor"))
    (u "F:").

(** A one-page haardtring document whose areas have three decimals, and
    its extraction result. *)
Definition rounding_example_doc : list str :=
  [join newline
     (text_lines ["R2.E5.3.5"; "Schlafen"; "F: 12,346 m²";
                  "R1B"; "Bad"; "F: 4,501 m²"]%string)].

Definition rounding_example_result : ExtractionResult :=
  Eval vm_compute in
    match extract_room_areas rounding_example_doc None None with
    | OK res => res
    | Err _ => mkResult [] 0 0 0 0 UNKNOWN [] [] []
    end.

(* ================================================================== *)
(** * Properties *)
(* ================================================================== *)

Lemma str_eqb_eq a b : str_eqb a b = true <-> a = b.
Proof.
  unfold str_eqb. destruct (list_eq_dec N.eq_dec a b); split; congruence.
Qed.

(** ** The number parser *)

Lemma take_digits_split s :
  all_digits (fst (take_digits s))
  /\ s = fst (take_digits s) ++ snd (take_digits s)
  /\ match snd (take_digits s) with
     | [] => True
     | c :: _ => is_digit c = false
     end.
Proof.
  induction s as [|c s IH]; simpl.
  - repeat split. constructor.
  - destruct (is_digit c) eqn:Hc.
    + destruct (take_digits s) as [d r]. simpl in *.
      destruct IH as (Hd & Hs & Hr). repeat split; auto.
      * constructor; auto.
      * congruence.
    + simpl. repeat split; auto. constructor.
Qed.

Lemma take_digits_app d r :
  all_digits d ->
  match r with [] => True | c :: _ => is_digit c = false end ->
  take_digits (d ++ r) = (d, r).
Proof.
  intros Hd Hr. induction Hd as [|c d Hc Hd IH]; simpl.
  - destruct r as [|c r]; simpl; auto. now rewrite Hr.
  - now rewrite Hc, IH.
Qed.

Lemma py_float_numeric s : (exists q, py_float s = OK q) <-> numeric s.
Proof.
  split.
  - intros [q Hq]. unfold py_float in Hq.
    destruct (take_digits_split s) as (Hd & Hs & _).
    destruct (take_digits s) as [ip r1]. simpl in *.
    destruct r1 as [|c r2].
    + destruct ip as [|i ip]; [discriminate|].
      left. rewrite app_nil_r in Hs. subst s. split; [exact Hd|discriminate].
    + destruct (N.eqb_spec c (ch ".")) as [->|]; [|discriminate].
      destruct (take_digits_split r2) as (Hd2 & Hs2 & _).
      destruct (take_digits r2) as [fp r3]. simpl in *.
      destruct r3; [|discriminate].
      destruct (ip ++ fp) eqn:E; [discriminate|].
      right. exists ip, fp. split; [exact Hd|]. split; [exact Hd2|].
      split; [rewrite E; discriminate|].
      rewrite app_nil_r in Hs2. congruence.
  - intros [[Hd Hne]|(ip & fp & Hi & Hf & Hne & ->)]; unfold py_float.
    + pose proof (take_digits_app s [] Hd I) as Hs.
      rewrite app_nil_r in Hs. rewrite Hs.
      destruct s; [now destruct Hne|eauto].
    + rewrite take_digits_app by auto.
      change (ch "." =? ch ".")%N with true. cbv iota.
      pose proof (take_digits_app fp [] Hf I) as Hfp.
      rewrite app_nil_r in Hfp. rewrite Hfp.
      destruct (ip ++ fp); [now destruct Hne|eauto].
Qed.

Lemma replace_absent a b s : has_char a s = false -> replace a b s = s.
Proof.
  induction s as [|c s IH]; simpl; auto.
  intros H. apply orb_false_iff in H as [H1 H2].
  rewrite N.eqb_sym, H1. simpl. now rewrite IH.
Qed.

(** C9.  On a token (digits, periods and commas, as the capture groups
    deliver them, with or without white space around it) the number
    parser strips the white space, then: with both a period and a comma
    the periods are removed and the commas become periods; with a comma
    only the commas become periods; otherwise the token is parsed as it
    is.  The call fails with ValueError exactly when the resulting string
    is not numeric.  "1.070,55" gives 1070.55, "22,79" gives 22.79 and
    "50.37" gives 50.37. *)
Theorem parse_german_number_rule :
  (forall s,
      is_token (strip s) ->
      let t := strip s in
      let resulting :=
        if has_char (ch ".") t && has_char (ch ",") t
        then replace (ch ",") (u ".") (replace (ch ".") [] t)
        else if has_char (ch ",") t then replace (ch ",") (u ".") t
        else t in
      parse_german_number s = py_float resulting
      /\ (parse_german_number s = Err ValueError <-> ~ numeric resulting))
  /\ parse_german_number (u "1.070,55") = OK (Qred 1070.55)
  /\ parse_german_number (u "22,79") = OK (Qred 22.79)
  /\ parse_german_number (u "50.37") = OK (Qred 50.37).
Proof.
  split; [|repeat split; reflexivity].
  intros s _ t resulting.
  assert (E : parse_german_number s = py_float resulting).
  { unfold parse_german_number, resulting, t.
    destruct (has_char (ch ".") (strip s) && has_char (ch ",") (strip s));
      [reflexivity|].
    destruct (has_char (ch ",") (strip s)) eqn:Hc; [reflexivity|].
    now rewrite replace_absent. }
  split; [exact E|].
  rewrite E, <- py_float_numeric. split.
  - intros H [q Hq]. congruence.
  - intros H. destruct (py_float resulting) as [q|[]]; auto.
    exfalso. apply H. eauto.
Qed.

Lemma parse_german_number_rule_witness :
  is_token (strip (u " 1.070,55 "))
  /\ parse_german_number (u " 1.070,55 ") = py_float (u "1070.55")
  /\ (parse_german_number (u " 1.070,55 ") = Err ValueError
      <-> ~ numeric (u "1070.55")).
Proof.
  assert (H : is_token (strip (u " 1.070,55 ")))
    by (vm_compute; repeat constructor).
  split; [exact H|].
  exact (proj1 parse_german_number_rule (u " 1.070,55 ") H).
Defined.

(** ** Style detection *)

(** ** The matcher against the declarative reading of a pattern *)

Lemma steps_later ic r s s' :
  steps ic r s s' ->
  exists w,
    m_rest s = w ++ m_rest s'
    /\ m_pos s' = (m_pos s + List.length w)%nat.
Proof.
  induction 1;
    try (exists []; cbn; rewrite Nat.add_0_r; split; reflexivity).
  - unfold advance in H. destruct (m_rest s) as [|x t] eqn:E;
      [discriminate|].
    inversion H; subst. exists [c]. cbn. split; [reflexivity|lia].
  - unfold advance in H. destruct (m_rest s) as [|x t] eqn:E;
      [discriminate|].
    inversion H; subst. exists [c]. cbn. split; [reflexivity|lia].
  - destruct IHsteps1 as (w1 & R1 & P1). destruct IHsteps2 as (w2 & R2 & P2).
    exists (w1 ++ w2). rewrite length_app, <- app_assoc, <- R2.
    split; [exact R1|lia].
  - exact IHsteps.
  - exact IHsteps.
  - destruct IHsteps1 as (w1 & R1 & P1). destruct IHsteps2 as (w2 & R2 & P2).
    exists (w1 ++ w2). rewrite length_app, <- app_assoc, <- R2.
    split; [exact R1|lia].
  - exact IHsteps.
  - exact IHsteps.
Qed.

(** Every match of the matcher is a match of the pattern. *)
Lemma rmatch_steps ic (A : Type) r :
  forall (s : mst) (k : mst -> option A) x,
    rmatch ic r s k = Some x ->
    exists s', steps ic r s s' /\ k s' = Some x.
Proof.
  induction r as [d|items|r1 IH1 r2 IH2|r1 IH1 r2 IH2|r1 IH1|r1 IH1|r1 IH1
                  | | | |]; intros s k x H; cbn [rmatch] in H.
  - destruct (advance s) as [[c s']|] eqn:E; [|discriminate].
    destruct (chr_match ic d c) eqn:Ec; [|discriminate].
    exists s'. split; [|exact H]. econstructor; eassumption.
  - destruct (advance s) as [[c s']|] eqn:E; [|discriminate].
    destruct (existsb (fun i => item_match ic i c) items) eqn:Ec;
      [|discriminate].
    exists s'. split; [|exact H]. econstructor; eassumption.
  - destruct (IH1 _ _ _ H) as (s1 & L1 & H1).
    destruct (IH2 _ _ _ H1) as (s2 & L2 & H2).
    exists s2. split; [|exact H2]. econstructor; eassumption.
  - destruct (rmatch ic r1 s k) as [y|] eqn:E1.
    + inversion H; subst. destruct (IH1 _ _ _ E1) as (s1 & L1 & H1).
      exists s1. split; [now apply steps_AltL|exact H1].
    + destruct (IH2 _ _ _ H) as (s1 & L1 & H1).
      exists s1. split; [now apply steps_AltR|exact H1].
  - revert H. generalize (S (List.length (m_rest s))). intros n.
    revert s. induction n as [|n IHn]; intros s H; cbn [star_loop] in H.
    + exists s. split; [constructor|exact H].
    + match type of H with
      | match ?m with _ => _ end = _ => destruct m as [y|] eqn:E1
      end.
      * inversion H; subst.
        destruct (IH1 _ _ _ E1) as (s1 & L1 & H1).
        destruct (Nat.eqb_spec (m_pos s1) (m_pos s)) as [Ep|Ep];
          [discriminate|].
        destruct (IHn _ H1) as (s2 & L2 & H2).
        exists s2. split; [|exact H2]. econstructor; eassumption.
      * exists s. split; [constructor|exact H].
  - destruct (rmatch ic r1 s k) as [y|] eqn:E1.
    + inversion H; subst. destruct (IH1 _ _ _ E1) as (s1 & L1 & H1).
      exists s1. split; [now apply steps_OptS|exact H1].
    + exists s. split; [constructor|exact H].
  - destruct (IH1 _ _ _ H) as (s1 & L1 & H1).
    eexists. split; [|exact H1]. now constructor.
  - destruct (Nat.eqb_spec (m_pos s) 0) as [E|E]; [|discriminate].
    exists s. split; [now constructor|exact H].
  - destruct (at_eol s) eqn:E; [|discriminate].
    exists s. split; [now constructor|exact H].
  - destruct (xorb (word_before s) (word_after s)) eqn:E; [|discriminate].
    exists s. split; [now constructor|exact H].
  - exists s. split; [constructor|exact H].
Qed.

(** The matcher misses no match of the pattern: when the pattern matches
    up to a state that the continuation accepts, the matcher succeeds. *)
Lemma star_loop_complete ic (A : Type) r1 :
  (forall s s', steps ic r1 s s' ->
     forall (k : mst -> option A) x,
       k s' = Some x -> exists y, rmatch ic r1 s k = Some y) ->
  forall r s s', steps ic r s s' -> r = Star r1 ->
    forall (k : mst -> option A) x n,
      k s' = Some x -> (List.length (m_rest s) < n)%nat ->
      exists y, star_loop (rmatch ic r1) k n s = Some y.
Proof.
  intros IH1 r s s' H.
  induction H as [ | | | | | |r s|r s s1 s2 H1 _ Hne H2 IH2| | | | | | ];
    intros E k x n Hk Hn; try discriminate.
  - destruct n as [|n]; cbn [star_loop]; [eauto|].
    match goal with
    | |- exists y, match ?m with _ => _ end = _ => destruct m
    end; eauto.
  - inversion E; subst r. destruct n as [|n]; [lia|].
    destruct (steps_later _ _ _ _ H1) as (w & Rw & Pw).
    assert (Hw : w <> []).
    { intros ->. cbn in Pw. apply Hne. lia. }
    assert (Hn' : (List.length (m_rest s1) < n)%nat).
    { rewrite Rw, length_app in Hn. destruct w; [congruence|].
      cbn in Hn. lia. }
    destruct (IH2 eq_refl k x n Hk Hn') as (y & Hy).
    cbn [star_loop].
    destruct (IH1 _ _ H1
                (fun s' =>
                   if (m_pos s' =? m_pos s)%nat then None
                   else star_loop (rmatch ic r1) k n s') y) as (z & Hz).
    { destruct (Nat.eqb_spec (m_pos s1) (m_pos s)); [contradiction|].
      exact Hy. }
    rewrite Hz. eauto.
Qed.

Lemma steps_rmatch ic r :
  forall s s',
    steps ic r s s' ->
    forall (A : Type) (k : mst -> option A) x,
      k s' = Some x -> exists y, rmatch ic r s k = Some y.
Proof.
  induction r as [d|items|r1 IH1 r2 IH2|r1 IH1 r2 IH2|r1 IH1|r1 IH1|r1 IH1
                  | | | |]; intros s s' H A k x Hk.
  - inversion H; subst. cbn [rmatch].
    match goal with E : advance s = _ |- _ => rewrite E end.
    match goal with E : chr_match _ _ _ = _ |- _ => rewrite E end. eauto.
  - inversion H; subst. cbn [rmatch].
    match goal with E : advance s = _ |- _ => rewrite E end.
    match goal with E : existsb _ _ = _ |- _ => rewrite E end. eauto.
  - inversion H as [| | |? ? ? s1 ? H1 H2| | | | | | | | | |]; subst.
    cbn [rmatch].
    destruct (IH2 _ _ H2 _ k x Hk) as (y & Hy).
    exact (IH1 _ _ H1 _ _ y Hy).
  - cbn [rmatch]. destruct (rmatch ic r1 s k) as [y|] eqn:E1; [eauto|].
    inversion H; subst.
    + match goal with
      | H1 : steps _ r1 _ _ |- _ =>
          destruct (IH1 _ _ H1 _ k x Hk) as (y & Hy)
      end. congruence.
    + match goal with
      | H1 : steps _ r2 _ _ |- _ => exact (IH2 _ _ H1 _ k x Hk)
      end.
  - cbn [rmatch].
    apply (star_loop_complete ic A r1
             (fun s s' H k x => IH1 s s' H A k x) _ _ _ H eq_refl k x _ Hk).
    lia.
  - cbn [rmatch]. destruct (rmatch ic r1 s k) as [y|] eqn:E1; [eauto|].
    inversion H; subst; [eauto|].
    match goal with
    | H1 : steps _ r1 _ _ |- _ =>
        destruct (IH1 _ _ H1 _ k x Hk) as (y & Hy)
    end. congruence.
  - inversion H; subst. cbn [rmatch].
    match goal with
    | H1 : steps _ r1 _ _ |- _ => exact (IH1 _ _ H1 _ _ x Hk)
    end.
  - inversion H; subst. cbn [rmatch].
    match goal with E : m_pos s' = _ |- _ => rewrite E end. eauto.
  - inversion H; subst. cbn [rmatch].
    match goal with E : at_eol s' = _ |- _ => rewrite E end. eauto.
  - inversion H; subst. cbn [rmatch].
    match goal with E : xorb _ _ = _ |- _ => rewrite E end. eauto.
  - inversion H; subst. cbn [rmatch]. eauto.
Qed.

Lemma state_after_rest j :
  forall s s0, state_after j s = Some s0 ->
    (List.length (m_rest s) = j + List.length (m_rest s0))%nat.
Proof.
  induction j as [|j IH]; intros s s0 H; cbn [state_after] in H.
  - now inversion H.
  - unfold advance in H. destruct (m_rest s) as [|c t] eqn:E;
      [discriminate|].
    apply IH in H. cbn in *. lia.
Qed.

Lemma search_from_occurs ic r n :
  forall s m, search_from ic r n s = Some m ->
    exists j s0 s', state_after j s = Some s0 /\ steps ic r s0 s'.
Proof.
  induction n as [|n IH]; intros s m H; cbn [search_from] in H.
  - destruct (rmatch ic r s (fun s' => Some (m_cap s'))) as [y|] eqn:E;
      [|discriminate].
    apply rmatch_steps in E as (s' & Hs & _).
    exists 0%nat, s, s'. split; [reflexivity|exact Hs].
  - destruct (rmatch ic r s (fun s' => Some (m_cap s'))) as [y|] eqn:E.
    + apply rmatch_steps in E as (s' & Hs & _).
      exists 0%nat, s, s'. split; [reflexivity|exact Hs].
    + destruct (advance s) as [[c s1]|] eqn:Ea; [|discriminate].
      apply IH in H as (j & s0 & s' & Hj & Hs).
      exists (S j), s0, s'. split; [|exact Hs].
      cbn [state_after]. now rewrite Ea.
Qed.

Lemma occurs_search_from ic r j :
  forall s s0 s' n,
    state_after j s = Some s0 -> steps ic r s0 s' ->
    (List.length (m_rest s) <= n)%nat ->
    exists m, search_from ic r n s = Some m.
Proof.
  induction j as [|j IH]; intros s s0 s' n Hj Hs Hn;
    cbn [state_after] in Hj.
  - inversion Hj; subst s0.
    destruct (steps_rmatch _ _ _ _ Hs _ (fun s' => Some (m_cap s')) _
                eq_refl) as (y & Hy).
    destruct n; cbn [search_from]; rewrite Hy; eauto.
  - destruct (advance s) as [[c s1]|] eqn:Ea; [|discriminate].
    assert (Hn' : exists n', n = S n'
                             /\ (List.length (m_rest s1) <= n')%nat).
    { unfold advance in Ea. destruct (m_rest s) as [|c' t]; [discriminate|].
      inversion Ea; subst. cbn in *. destruct n as [|n']; [lia|].
      exists n'. split; [reflexivity|lia]. }
    destruct Hn' as (n' & -> & Hn').
    cbn [search_from].
    destruct (rmatch ic r s (fun s' => Some (m_cap s'))); [eauto|].
    rewrite Ea. exact (IH _ _ _ _ Hj Hs Hn').
Qed.

(** [re.search] finds a match exactly when the pattern matches somewhere
    in the text. *)
Lemma found_iff ic r text : found ic r text = true <-> occurs ic r text.
Proof.
  unfold found, re_search, occurs. split.
  - destruct (search_from ic r (List.length text) (MSt None 0 text None))
      as [m|] eqn:E; [|discriminate].
    intros _. exact (search_from_occurs _ _ _ _ _ E).
  - intros (j & s0 & s' & Hj & Hs).
    destruct (occurs_search_from _ _ _ _ _ _ (List.length text) Hj Hs)
      as (m & ->);
      [cbn; lia|reflexivity].
Qed.

(** ** The area labels on the text *)

Lemma forallb_same {A} (f g : A -> bool) l :
  (forall a, f a = g a) -> forallb f l = forallb g l.
Proof.
  intros H. induction l as [|a l IH]; cbn; [reflexivity|].
  now rewrite H, IH.
Qed.

Lemma chr_match_eq ic d c :
  chr_match ic d c = true <->
  if ic then to_lower c = to_lower d else c = d.
Proof.
  unfold chr_match. destruct ic; cbn [andb].
  - rewrite orb_true_iff, !N.eqb_eq. split; [intros [->|H]; auto|auto].
  - rewrite orb_false_r. apply N.eqb_eq.
Qed.

Lemma Forall2_chr_match ic label :
  forall lab,
    Forall2 (fun d c => chr_match ic d c = true) label lab <->
    if ic then lower lab = lower label else lab = label.
Proof.
  induction label as [|d label IH]; intros lab.
  - split.
    + intros H. inversion H. now destruct ic.
    + intros H. assert (lab = []) as ->; [|constructor].
      destruct ic, lab; try discriminate; auto.
  - split.
    + intros H. inversion H as [|? c ? lab' Hc Hl]; subst.
      apply IH in Hl. apply chr_match_eq in Hc.
      destruct ic; cbn [lower map]; [|congruence].
      unfold lower in Hl. now rewrite Hc, Hl.
    + intros H. destruct lab as [|c lab'].
      { destruct ic; discriminate. }
      constructor.
      * apply chr_match_eq. destruct ic; cbn [lower map] in H; congruence.
      * apply IH. destruct ic; cbn [lower map] in H; [|congruence].
        unfold lower. congruence.
Qed.

Lemma steps_lit ic label :
  forall s s',
    steps ic (lit_of label) s s' ->
    exists lab,
      m_rest s = lab ++ m_rest s'
      /\ Forall2 (fun d c => chr_match ic d c = true) label lab.
Proof.
  induction label as [|d [|d' label] IH]; intros s s' H; cbn [lit_of] in H.
  - inversion H; subst. exists []. split; [reflexivity|constructor].
  - inversion H as [|? c ? ? Ha Hc| | | | | | | | | | | |]; subst.
    unfold advance in Ha. destruct (m_rest s) as [|x t] eqn:E;
      [discriminate|].
    inversion Ha; subst. exists [c]. split; [reflexivity|].
    constructor; [exact Hc|constructor].
  - inversion H as [| | |? ? ? s1 ? H1 H2| | | | | | | | | |]; subst.
    inversion H1 as [|? c ? ? Ha Hc| | | | | | | | | | | |]; subst.
    unfold advance in Ha. destruct (m_rest s) as [|x t] eqn:E;
      [discriminate|].
    inversion Ha; subst. apply IH in H2 as (lab & R & F).
    cbn [m_rest] in R. exists (c :: lab). split; [cbn; now rewrite R|].
    constructor; [exact Hc|exact F].
Qed.

Lemma lit_steps ic label :
  forall lab s rest,
    Forall2 (fun d c => chr_match ic d c = true) label lab ->
    m_rest s = lab ++ rest ->
    exists s', steps ic (lit_of label) s s' /\ m_rest s' = rest.
Proof.
  induction label as [|d [|d' label] IH]; intros lab s rest F R;
    cbn [lit_of].
  - inversion F; subst. exists s. split; [constructor|exact R].
  - inversion F as [|? c ? lab' Hc F']; subst. inversion F'; subst.
    eexists. split.
    + eapply steps_Chr; [|exact Hc]. unfold advance. rewrite R. reflexivity.
    + reflexivity.
  - inversion F as [|? c ? lab' Hc F']; subst.
    destruct (IH lab' (MSt (Some c) (S (m_pos s)) (lab' ++ rest) (m_cap s))
                rest F' eq_refl) as (s' & Hs & Hr).
    exists s'. split; [|exact Hr].
    eapply steps_Seq; [|exact Hs].
    eapply steps_Chr; [|exact Hc]. unfold advance. rewrite R. reflexivity.
Qed.

Lemma steps_star_cls ic items r s s' :
  steps ic r s s' -> r = Star (Cls items) ->
  exists w,
    m_rest s = w ++ m_rest s'
    /\ forallb (fun c => existsb (fun i => item_match ic i c) items) w
       = true.
Proof.
  induction 1 as [ | | | | | |r s|r s s1 s2 H1 _ Hne H2 IH2| | | | | | ];
    intros E; try discriminate.
  - exists []. split; reflexivity.
  - inversion E; subst r. destruct (IH2 eq_refl) as (w & R & F).
    inversion H1 as [| |? c ? ? Ha Hc| | | | | | | | | | |]; subst.
    unfold advance in Ha. destruct (m_rest s) as [|x t] eqn:Es;
      [discriminate|].
    inversion Ha; subst. cbn [m_rest] in R.
    exists (c :: w). split; [cbn; now rewrite R|].
    cbn [forallb]. now rewrite Hc, F.
Qed.

Lemma star_cls_steps ic items :
  forall w s rest,
    m_rest s = w ++ rest ->
    forallb (fun c => existsb (fun i => item_match ic i c) items) w = true ->
    exists s', steps ic (Star (Cls items)) s s' /\ m_rest s' = rest.
Proof.
  induction w as [|c w IH]; intros s rest R F.
  - exists s. split; [constructor|exact R].
  - cbn [forallb] in F. apply andb_true_iff in F as [Hc F].
    destruct (IH (MSt (Some c) (S (m_pos s)) (w ++ rest) (m_cap s)) rest
                eq_refl F) as (s' & Hs & Hr).
    exists s'. split; [|exact Hr].
    eapply steps_StarS; [| |exact Hs].
    + eapply steps_Cls; [|exact Hc]. unfold advance. rewrite R. reflexivity.
    + cbn. lia.
Qed.

Lemma state_after_split j :
  forall s s0,
    state_after j s = Some s0 ->
    exists pre,
      m_rest s = pre ++ m_rest s0
      /\ m_prev s0 = fold_left (fun _ c => Some c) pre (m_prev s).
Proof.
  induction j as [|j IH]; intros s s0 H; cbn [state_after] in H.
  - inversion H; subst. exists []. split; reflexivity.
  - unfold advance in H. destruct (m_rest s) as [|c t] eqn:E;
      [discriminate|].
    apply IH in H as (pre & R & P). cbn [m_rest m_prev] in *.
    exists (c :: pre). split; [cbn; now rewrite R|exact P].
Qed.

Lemma split_state_after pre :
  forall s rest,
    m_rest s = pre ++ rest ->
    exists s0,
      state_after (List.length pre) s = Some s0
      /\ m_rest s0 = rest
      /\ m_prev s0 = fold_left (fun _ c => Some c) pre (m_prev s).
Proof.
  induction pre as [|c pre IH]; intros s rest R.
  - exists s. repeat split; auto.
  - destruct (IH (MSt (Some c) (S (m_pos s)) (pre ++ rest) (m_cap s)) rest
                eq_refl) as (s0 & H & Hr & Hp).
    exists s0. split; [|split; [exact Hr|exact Hp]].
    cbn [List.length state_after]. unfold advance. rewrite R. exact H.
Qed.

Lemma word_before_pre pre s :
  m_prev s = fold_left (fun _ c => Some c) pre None ->
  word_before s = ends_in_word pre.
Proof.
  intros H. unfold word_before, ends_in_word. rewrite H.
  destruct pre as [|c pre] using rev_ind; [reflexivity|].
  rewrite fold_left_app, rev_app_distr. reflexivity.
Qed.

Lemma label_in_occurs ic label extra items text :
  label <> [] ->
  (forall c, chr_match ic (hd 0%N label) c = true -> is_word c = true) ->
  (forall c, existsb (fun i => item_match ic i c) items
             = is_digit c || has_char c extra) ->
  (forall c, item_match ic CSpace c = is_space c) ->
  occurs ic (Seq Wb (Seq (lit_of label) (Seq (Star Space) (Plus (Cls items)))))
    text
  <-> label_in ic label extra text.
Proof.
  intros Hne Hword Hitems Hspace. split.
  - intros (j & s0 & s' & Hj & Hs).
    apply state_after_split in Hj as (pre & Rpre & Ppre).
    cbn [m_rest m_prev] in Rpre, Ppre.
    inversion Hs as [| | |? ? ? s1 ? Hwb H1| | | | | | | | | |]; subst.
    inversion Hwb as [| | | | | | | | | | | | |? Hx]; subst.
    inversion H1 as [| | |? ? ? s2 ? Hlit H2| | | | | | | | | |]; subst.
    inversion H2 as [| | |? ? ? s3 ? Hgap H3| | | | | | | | | |]; subst.
    unfold Plus in H3.
    inversion H3 as [| | |? ? ? s4 ? Hc Hmore| | | | | | | | | |]; subst.
    apply steps_lit in Hlit as (lab & Rlab & Flab).
    apply (steps_star_cls ic [CSpace]) in Hgap as (gap & Rgap & Fgap);
      [|reflexivity].
    inversion Hc as [| |? c ? ? Ha Hcls| | | | | | | | | | |]; subst.
    unfold advance in Ha. destruct (m_rest s3) as [|x post] eqn:E3;
      [discriminate|].
    inversion Ha; subst.
    exists pre, lab, gap, c, post. repeat split.
    + rewrite Rlab, Rgap. reflexivity.
    + rewrite <- (word_before_pre pre s1 Ppre).
      destruct lab as [|c0 lab]; [inversion Flab; subst; congruence|].
      inversion Flab as [|d ? label' ? Hd _]; subst.
      unfold word_after in Hx. rewrite Rlab in Hx. cbn in Hx.
      rewrite (Hword c0 Hd) in Hx.
      now destruct (word_before s1).
    + now apply Forall2_chr_match.
    + rewrite <- Fgap. apply forallb_same. intros a. cbn [existsb].
      now rewrite orb_false_r, Hspace.
    + now rewrite <- Hitems.
  - intros (pre & lab & gap & c & post & -> & Hpre & Hlab & Hgap & Hc).
    destruct (split_state_after pre (MSt None 0 (pre ++ lab ++ gap ++ c :: post) None)
                (lab ++ gap ++ c :: post) eq_refl) as (s0 & Hj & R0 & P0).
    cbn [m_prev] in P0.
    apply Forall2_chr_match in Hlab.
    destruct (lit_steps ic label lab s0 (gap ++ c :: post) Hlab R0)
      as (s1 & H1 & R1).
    destruct (star_cls_steps ic [CSpace] gap s1 (c :: post) R1)
      as (s2 & H2 & R2).
    { rewrite <- Hgap. apply forallb_same. intros a. cbn [existsb].
      now rewrite orb_false_r, Hspace. }
    exists (List.length pre), s0. eexists. split; [exact Hj|].
    eapply steps_Seq; [apply steps_Wb|].
    + rewrite (word_before_pre pre s0 P0), Hpre.
      unfold word_after. rewrite R0.
      destruct lab as [|c0 lab]; [inversion Hlab; subst; congruence|].
      inversion Hlab as [|d ? label' ? Hd _]; subst.
      cbn. exact (Hword c0 Hd).
    + eapply steps_Seq; [exact H1|].
      eapply steps_Seq; [exact H2|].
      eapply steps_Seq; [|apply steps_Star0].
      eapply steps_Cls.
      * unfold advance. rewrite R2. reflexivity.
      * now rewrite Hitems.
Qed.

Lemma is_upper_range c :
  is_upper c = true -> (65 <= c <= 90 \/ 192 <= c <= 222)%N.
Proof.
  unfold is_upper.
  rewrite orb_true_iff, !andb_true_iff, !N.leb_le. lia.
Qed.

Lemma is_lower_range c :
  is_lower c = true -> (97 <= c <= 122 \/ 224 <= c <= 254)%N.
Proof.
  unfold is_lower.
  rewrite orb_true_iff, !andb_true_iff, !N.leb_le. lia.
Qed.

Lemma is_space_range c :
  is_space c = true ->
  (c <= 32 \/ c = 133 \/ c = 160 \/ 5760 <= c)%N.
Proof.
  unfold is_space.
  rewrite !orb_true_iff, !andb_true_iff, !N.leb_le, !N.eqb_eq. lia.
Qed.

(** A class item that holds no letter is not affected by IGNORECASE. *)
Lemma item_match_caseless ic i c :
  (forall x, item_has i x = true ->
             ~ (65 <= x <= 122)%N /\ ~ (192 <= x <= 254)%N) ->
  item_match ic i c = item_has i c.
Proof.
  intros H. unfold item_match. destruct ic; [|now rewrite orb_false_r].
  cbn [andb]. destruct (item_has i c) eqn:E; [reflexivity|].
  cbn [orb]. unfold to_lower, to_upper.
  destruct (is_upper c) eqn:U, (is_lower c) eqn:L; rewrite ?E; cbn [orb];
    try reflexivity;
    try apply is_upper_range in U; try apply is_lower_range in L.
  - destruct (item_has i (c + 32)) eqn:E1;
      [apply H in E1; lia|].
    destruct (item_has i (c - 32)) eqn:E2; [apply H in E2; lia|reflexivity].
  - destruct (item_has i (c + 32)) eqn:E1; [apply H in E1; lia|reflexivity].
  - destruct (item_has i (c - 32)) eqn:E2; [apply H in E2; lia|reflexivity].
Qed.

Lemma space_match ic c : item_match ic CSpace c = is_space c.
Proof.
  apply item_match_caseless. intros x Hx. cbn [item_has] in Hx.
  apply is_space_range in Hx. lia.
Qed.

Lemma digit_match ic c : item_match ic CDigit c = is_digit c.
Proof.
  apply item_match_caseless. intros x Hx. cbn [item_has] in Hx.
  unfold is_digit in Hx. rewrite andb_true_iff, !N.leb_le in Hx. lia.
Qed.

Lemma mark_match ic d c :
  (d < 65)%N -> item_match ic (CChar d) c = (c =? d)%N.
Proof.
  intros Hd. apply item_match_caseless. intros x Hx. cbn [item_has] in Hx.
  apply N.eqb_eq in Hx. lia.
Qed.

Lemma num_comma_class ic c :
  existsb (fun i => item_match ic i c) [CDigit; CChar (ch ",")]
  = is_digit c || has_char c (u ",").
Proof.
  cbn [existsb]. rewrite digit_match, mark_match by (vm_compute; reflexivity).
  unfold has_char. cbn [u existsb]. reflexivity.
Qed.

Lemma num_any_class ic c :
  existsb (fun i => item_match ic i c)
    [CDigit; CChar (ch "."); CChar (ch ",")]
  = is_digit c || has_char c (u ".,").
Proof.
  cbn [existsb].
  rewrite digit_match, !mark_match by (vm_compute; reflexivity).
  unfold has_char. reflexivity.
Qed.

Lemma letter_match_word ic d c :
  is_word d = true -> is_word (to_lower d) = true ->
  is_upper d = true ->
  chr_match ic d c = true -> is_word c = true.
Proof.
  intros Hd Hl Hu H. apply chr_match_eq in H. destruct ic; [|now subst].
  unfold to_lower in H at 1. destruct (is_upper c) eqn:U; [|now rewrite H].
  unfold to_lower in H. rewrite Hu in H.
  assert (c = d) as -> by lia. exact Hd.
Qed.

Ltac label_probe ic label extra items text :=
  etransitivity; [apply found_iff|];
  refine (label_in_occurs ic label extra items text _ _ _ _);
  [ discriminate
  | intros c; apply letter_match_word; reflexivity
  | intros c; first [apply num_comma_class|apply num_any_class]
  | intros c; apply space_match ].

Lemma area_labels_on_text text :
  (has_f_colon text = true <-> label_in false (u "F:") (u ",") text)
  /\ (has_f_equals text = true <-> label_in false (u "F=") (u ".,") text)
  /\ (has_nrf text = true <-> label_in true (u "NRF:") (u ",") text)
  /\ (has_ngf text = true <-> label_in true (u "NGF:") (u ".,") text).
Proof.
  split; [|split; [|split]].
  - label_probe false (u "F:") (u ",") [CDigit; CChar (ch ",")] text.
  - label_probe false (u "F=") (u ".,")
      [CDigit; CChar (ch "."); CChar (ch ",")] text.
  - label_probe true (u "NRF:") (u ",") [CDigit; CChar (ch ",")] text.
  - label_probe true (u "NGF:") (u ".,")
      [CDigit; CChar (ch "."); CChar (ch ",")] text.
Qed.

(** C5.  [detect_blueprint_style] is the ordered decision tree over its
    probes: F: together with a Haardtring room number or a Haardtring
    metadata code gives haardtring; else NRF: or F= together with a B.xx
    room number gives leiq; else NGF: gives omniturm whatever room numbers
    occur; else NRF: or F= alone gives leiq; else F: alone gives
    haardtring; else the style is unknown.  The style is unknown exactly
    when none of the four area-label probes fires.  Each probe holds
    exactly when its pattern matches somewhere in the text; for the four
    area labels that is: the label at the start of a word (NRF: and NGF:
    in any letter case), white space or none, and a digit or a comma (or
    a period after F= and NGF:).  The texts of [style_examples] are
    classified as listed. *)
Theorem detect_blueprint_style_tree :
  (forall text,
      detect_blueprint_style text =
        (if has_f_colon text
            && (has_r_full text || has_r_simple text || has_e_apartment text
                || has_haardtring_codes text)
         then HAARDTRING
         else if (has_nrf text || has_f_equals text) && has_b_pattern text
         then LEIQ
         else if has_ngf text then OMNITURM
         else if has_nrf text || has_f_equals text then LEIQ
         else if has_f_colon text then HAARDTRING
         else UNKNOWN)
      /\ (detect_blueprint_style text = UNKNOWN <->
          has_f_colon text = false /\ has_f_equals text = false
          /\ has_nrf text = false /\ has_ngf text = false))
  /\ (forall text,
        (has_f_colon text = true <->
         occurs false (seqs [Wb; lit "F:"; Star Space; num_comma]) text)
        /\ (has_f_equals text = true <->
            occurs false (seqs [Wb; lit "F="; Star Space; num_any]) text)
        /\ (has_nrf text = true <->
            occurs true (seqs [Wb; lit "NRF:"; Star Space; num_comma]) text)
        /\ (has_ngf text = true <->
            occurs true (seqs [Wb; lit "NGF:"; Star Space; num_any]) text)
        /\ (has_r_full text = true <->
            occurs false (seqs [Wb; r_full; Wb]) text)
        /\ (has_r_simple text = true <->
            occurs false (seqs [Wb; r_simple; Wb]) text)
        /\ (has_e_apartment text = true <->
            occurs false
              (seqs [Wb; lit "E."; Plus (Cls [AZ; d09]); Chr (ch ".");
                     Plus Digit; Chr (ch "."); Plus Digit; Wb]) text)
        /\ (has_b_pattern text = true <->
            occurs false
              (seqs [Wb; lit "B."; Plus Digit; Chr (ch "."); Plus Digit;
                     Chr (ch "."); Plus Digit; Wb]) text)
        /\ (has_grid_pattern text = true <->
            occurs false
              (seqs [Wb; Plus Digit; Chr (ch "_"); Cls [az]; Plus Digit;
                     Chr (ch "."); Plus Digit; Wb]) text)
        /\ (has_haardtring_codes text = true <->
            occurs false
              (seqs [Wb;
                     Grp (alts [lit "BA:"; lit "B:"; lit "W:"; lit "D:"]);
                     Star Space; Digit]) text))
  /\ (forall text,
        (has_f_colon text = true <-> label_in false (u "F:") (u ",") text)
        /\ (has_f_equals text = true <->
            label_in false (u "F=") (u ".,") text)
        /\ (has_nrf text = true <-> label_in true (u "NRF:") (u ",") text)
        /\ (has_ngf text = true <->
            label_in true (u "NGF:") (u ".,") text))
  /\ Forall
       (fun e =>
          detect_blueprint_style (join newline (text_lines (fst e))) = snd e)
       style_examples.
Proof.
  split; [|split; [|split]].
  - intros text. unfold detect_blueprint_style.
    generalize (has_f_colon text) (has_f_equals text) (has_nrf text)
      (has_ngf text) (has_r_full text) (has_r_simple text)
      (has_e_apartment text) (has_b_pattern text) (has_grid_pattern text)
      (has_haardtring_codes text).
    intros [] [] [] [] [] [] [] [] [] []; cbn;
      (split; [reflexivity|]); split;
      solve [ discriminate | intros (? & ? & ? & ?); discriminate
            | intros _; repeat split ].
  - intros text.
    repeat (split; [exact (found_iff _ _ _)|]). exact (found_iff _ _ _).
  - exact area_labels_on_text.
  - unfold style_examples.
    repeat (apply Forall_cons; [vm_compute; reflexivity|]).
    apply Forall_nil.
Qed.

(** ** Where an emitted room comes from *)

Lemma bind_OK {A B} (m : result A) (f : A -> result B) b :
  bind m f = OK b -> exists a, m = OK a /\ f a = OK b.
Proof. destruct m; simpl; [eauto|discriminate]. Qed.

Lemma py_range_In a b j : In j (py_range a b) <-> (a <= j < b)%nat.
Proof. unfold py_range. rewrite in_seq. lia. Qed.

Lemma collect_In body idxs rooms r :
  collect body idxs = OK rooms -> In r rooms ->
  exists i, In i idxs /\ body i = OK (Some r).
Proof.
  revert rooms. induction idxs as [|i idxs IH]; simpl; intros rooms H Hin.
  - inversion H; subst. destruct Hin.
  - apply bind_OK in H as (o & Ho & H).
    apply bind_OK in H as (rest & Hrest & H). inversion H; subst; clear H.
    destruct o as [x|].
    + destruct Hin as [->|Hin]; [eauto|].
      destruct (IH _ Hrest Hin) as (j & ? & ?); eauto.
    + destruct (IH _ Hrest Hin) as (j & ? & ?); eauto.
Qed.

Lemma omniturm_loop_In lines page_idx idxs rooms0 processed rooms r :
  omniturm_loop lines page_idx idxs rooms0 processed = OK rooms ->
  In r rooms ->
  In r rooms0
  \/ exists i processed',
       In i idxs /\ omniturm_at lines page_idx processed' i = OK (Some r).
Proof.
  revert rooms0 processed.
  induction idxs as [|i idxs IH]; simpl; intros rooms0 processed H Hin.
  - inversion H; subst. now left.
  - apply bind_OK in H as (o & Ho & H). destruct o as [x|].
    + destruct (IH _ _ H Hin) as [Hin'|(j & p' & ? & ?)].
      * apply in_app_or in Hin' as [?|[->|[]]]; [now left|].
        right. eauto.
      * right. eauto.
    + destruct (IH _ _ H Hin) as [?|(j & p' & ? & ?)]; [now left|].
      right. eauto.
Qed.

Lemma if_truthy_Some x v : if_truthy x = Some v -> x = Some v /\ ~ v == 0.
Proof.
  destruct x as [w|]; simpl; [|discriminate].
  unfold truthy. destruct (Qeq_bool w 0) eqn:E; simpl; [discriminate|].
  intros H. inversion H; subst. split; auto.
  intros Hq. apply Qeq_bool_iff in Hq. congruence.
Qed.

Lemma if_truthy_zero v : v == 0 -> if_truthy (Some v) = None.
Proof.
  intros H. simpl. unfold truthy.
  apply Qeq_bool_iff in H. now rewrite H.
Qed.

(** The fields every haardtring record carries. *)
Lemma haardtring_emit_Some room_num room_name area balcony_area page_idx r :
  haardtring_emit room_num room_name area balcony_area page_idx = Some r ->
  area = Some (area_m2 r) /\ ~ area_m2 r == 0
  /\ room_number r = room_num /\ page r = page_idx
  /\ source_text r = extraction_pattern r ++ u " " ++ float_repr (area_m2 r)
  /\ match if_truthy balcony_area with
     | Some v =>
         counted_m2 r = v /\ factor r = 1 # 2
         /\ factor_source r = Some (u "explicit_50%")
     | None =>
         if cat_eqb (category r) OUTDOOR
         then counted_m2 r = round2 (area_m2 r * (1 # 2)) /\ factor r = 1 # 2
              /\ factor_source r = Some (u "default_outdoor")
         else counted_m2 r = area_m2 r /\ factor r = 1
              /\ factor_source r = None
     end.
Proof.
  unfold haardtring_emit.
  destruct (if_truthy area) as [a|] eqn:Ha; [|discriminate].
  apply if_truthy_Some in Ha as [-> Hnz].
  destruct (if_truthy balcony_area) as [v|].
  - intros H; inversion H; subst; simpl. repeat split; auto.
  - assert (Hcat :
      match room_name with
      | Some n => nonempty n && is_outdoor_room n
      | None => false
      end = cat_eqb (categorize_room (str_or room_name [])) OUTDOOR).
    { destruct room_name as [[|c n]|]; reflexivity. }
    rewrite Hcat.
    destruct (cat_eqb (categorize_room (str_or room_name [])) OUTDOOR) eqn:E;
      intros H; inversion H; subst; simpl; rewrite E; repeat split; auto.
Qed.

Lemma leiq_emit_Some room_num room_name v page_idx r :
  leiq_emit room_num room_name v page_idx = Some r ->
  lv_area v = Some (area_m2 r) /\ ~ area_m2 r == 0
  /\ room_number r = room_num /\ page r = page_idx
  /\ source_text r = extraction_pattern r ++ u " " ++ float_repr (area_m2 r)
  /\ counted_m2 r = area_m2 r /\ factor r = 1 /\ factor_source r = None.
Proof.
  unfold leiq_emit.
  destruct (if_truthy (lv_area v)) as [a|] eqn:Ha; [|discriminate].
  apply if_truthy_Some in Ha as [Ha Hnz].
  intros H; inversion H; subst; simpl. repeat split; auto.
Qed.

Lemma omniturm_emit_Some room_num room_name area page_idx r :
  omniturm_emit room_num room_name area page_idx = Some r ->
  area = Some (area_m2 r) /\ ~ area_m2 r == 0
  /\ room_number r = room_num /\ page r = page_idx
  /\ source_text r = extraction_pattern r ++ u " " ++ float_repr (area_m2 r)
  /\ counted_m2 r = area_m2 r /\ factor r = 1 /\ factor_source r = None.
Proof.
  unfold omniturm_emit.
  destruct (if_truthy area) as [a|] eqn:Ha; [|discriminate].
  apply if_truthy_Some in Ha as [-> Hnz].
  intros H; inversion H; subst; simpl. repeat split; auto.
Qed.

Lemma haardtring_at_Some lines page_idx i r :
  haardtring_at lines page_idx i = OK (Some r) ->
  exists room_match room_name area balcony_area,
    first_match false haardtring_room_patterns (line_at lines i)
      = Some room_match
    /\ haardtring_lookahead lines (window lines i) = OK (area, balcony_area)
    /\ haardtring_emit (group1 room_match) room_name area balcony_area
         page_idx = Some r.
Proof.
  unfold haardtring_at.
  destruct (first_match false haardtring_room_patterns (line_at lines i))
    as [m|]; [|discriminate].
  intros H. apply bind_OK in H as ([a b] & Hl & H). inversion H.
  exists m. eexists. exists a, b. repeat split; eauto.
Qed.

Lemma leiq_at_Some lines page_idx i r :
  leiq_at lines page_idx i = OK (Some r) ->
  exists room_match room_name v,
    re_match false leiq_room_pattern (line_at lines i) = Some room_match
    /\ leiq_lookahead lines (window lines i) (LeiqVars None None None None)
       = OK v
    /\ leiq_emit (group1 room_match) room_name v page_idx = Some r.
Proof.
  unfold leiq_at.
  destruct (re_match false leiq_room_pattern (line_at lines i)) as [m|];
    [|discriminate].
  intros H. apply bind_OK in H as (v & Hl & H). inversion H.
  exists m. eexists. exists v. repeat split; eauto.
Qed.

Lemma omniturm_at_Some lines page_idx processed i r :
  omniturm_at lines page_idx processed i = OK (Some r) ->
  exists room_name area,
    matches false omniturm_room_pattern (line_at lines i) = true
    /\ omniturm_lookahead lines (window lines i) None = OK (room_name, area)
    /\ omniturm_emit (line_at lines i) room_name area page_idx = Some r.
Proof.
  unfold omniturm_at.
  destruct (matches false omniturm_room_pattern (line_at lines i));
    [|discriminate].
  destruct (negb (str_in (line_at lines i) processed)); [|discriminate].
  simpl. intros H. apply bind_OK in H as ([n a] & Hl & H). inversion H.
  exists n, a. repeat split; eauto.
Qed.

(** Every room of a style extractor was emitted at some line index. *)
Lemma haardtring_emitted lines page_idx rooms r :
  extract_haardtring lines page_idx = OK rooms -> In r rooms ->
  exists i, (i < List.length lines)%nat
            /\ haardtring_at lines page_idx i = OK (Some r).
Proof.
  intros H Hin. destruct (collect_In _ _ _ _ H Hin) as (i & Hi & Hr).
  apply py_range_In in Hi. exists i. split; [lia|auto].
Qed.

Lemma leiq_emitted lines page_idx rooms r :
  extract_leiq lines page_idx = OK rooms -> In r rooms ->
  exists i, (i < List.length lines)%nat
            /\ leiq_at lines page_idx i = OK (Some r).
Proof.
  intros H Hin. destruct (collect_In _ _ _ _ H Hin) as (i & Hi & Hr).
  apply py_range_In in Hi. exists i. split; [lia|auto].
Qed.

Lemma omniturm_emitted lines page_idx rooms r :
  extract_omniturm lines page_idx = OK rooms -> In r rooms ->
  exists i processed,
    (i < List.length lines)%nat
    /\ omniturm_at lines page_idx processed i = OK (Some r).
Proof.
  intros H Hin.
  destruct (omniturm_loop_In _ _ _ _ _ _ _ H Hin) as [[]|(i & p & Hi & Hr)].
  apply py_range_In in Hi. exists i, p. split; [lia|auto].
Qed.

(** ** Substrings *)


Lemma substring_of_trans a b c :
  substring_of a b -> substring_of b c -> substring_of a c.
Proof.
  intros (p1 & q1 & ->) (p2 & q2 & ->).
  exists (p2 ++ p1), (q1 ++ q2). now rewrite <- !app_assoc.
Qed.

Lemma lstrip_suffix s : exists pre, s = pre ++ lstrip s.
Proof.
  induction s as [|c s [pre IH]]; simpl.
  - now exists [].
  - destruct (is_space c).
    + exists (c :: pre). simpl. now f_equal.
    + now exists [].
Qed.

Lemma strip_substring s : substring_of (strip s) s.
Proof.
  unfold strip, rstrip.
  destruct (lstrip_suffix s) as [pre Hpre].
  destruct (lstrip_suffix (rev (lstrip s))) as [post Hpost].
  apply (f_equal (@rev N)) in Hpost. rewrite rev_involutive, rev_app_distr in Hpost.
  exists pre, (rev post). now rewrite <- Hpost.
Qed.


Lemma starts_with_spec p s :
  starts_with p s = true <-> exists post, s = p ++ post.
Proof.
  revert s. induction p as [|c p IH]; intros s; simpl.
  - split; eauto.
  - destruct s as [|d s].
    + split; [discriminate|]. intros [post H]. discriminate.
    + rewrite andb_true_iff, N.eqb_eq, IH. split.
      * intros [-> [post ->]]. eauto.
      * intros [post H]. inversion H; subst. eauto.
Qed.

Lemma py_in_spec sub s : py_in sub s = true <-> substring_of sub s.
Proof.
  induction s as [|c s IH].
  - simpl. rewrite orb_false_r, starts_with_spec. split.
    + intros [post H]. exists [], post. exact H.
    + intros ([|x pre] & post & H); [eauto|discriminate].
  - cbn [py_in]. rewrite orb_true_iff, starts_with_spec, IH. split.
    + intros [[post H]|(pre & post & H)].
      * exists [], post. exact H.
      * exists (c :: pre), post. simpl. now f_equal.
    + intros ([|x pre] & post & H).
      * left. eauto.
      * right. inversion H; subst. exists pre, post. reflexivity.
Qed.

(** ** The generic extractor's records *)

Lemma enumerate_from_In {A} (l : list A) a k x :
  In (k, x) (combine (seq a (List.length l)) l) <->
  (a <= k)%nat /\ nth_error l (k - a) = Some x.
Proof.
  revert a. induction l as [|y l IH]; simpl; intros a.
  - split; [intros []|]. intros [_ H]. destruct (k - a)%nat; discriminate.
  - rewrite IH. split.
    + intros [H|[Hle Hn]].
      * inversion H; subst. rewrite Nat.sub_diag. split; [lia|reflexivity].
      * split; [lia|].
        replace (k - a)%nat with (S (k - S a)) by lia. exact Hn.
    + intros [Hle Hn]. destruct (Nat.eq_dec a k) as [->|Hne].
      * rewrite Nat.sub_diag in Hn. inversion Hn. now left.
      * right. split; [lia|].
        replace (k - a)%nat with (S (k - S a)) in Hn by lia. exact Hn.
Qed.

Lemma enumerate_In {A} (l : list A) k x :
  In (k, x) (enumerate l) <-> nth_error l k = Some x.
Proof.
  unfold enumerate. rewrite enumerate_from_In, Nat.sub_0_r.
  split; [tauto|]. split; [lia|assumption].
Qed.

Lemma generic_area_at_Some i line info :
  generic_area_at i line = Some info ->
  line_idx info = i /\ source_line info = strip line
  /\ 1 # 2 <= area info /\ area info <= 10000.
Proof.
  unfold generic_area_at.
  destruct (first_search true FLEXIBLE_AREA_PATTERNS (strip line)) as [m|];
    [|discriminate].
  destruct (parse_german_number (group1 m)) as [a|]; [|discriminate].
  destruct (Qle_bool (1 # 2) a) eqn:E1; [|discriminate].
  destruct (Qle_bool a 10000) eqn:E2; [|discriminate].
  intros H. inversion H; subst; simpl.
  apply Qle_bool_iff in E1, E2. auto.
Qed.

Lemma generic_find_areas_In lines info :
  In info (generic_find_areas lines) ->
  exists i line,
    nth_error lines i = Some line /\ generic_area_at i line = Some info.
Proof.
  unfold generic_find_areas. rewrite in_flat_map.
  intros ([i line] & Hin & H). simpl in H.
  apply enumerate_In in Hin. exists i, line. split; [exact Hin|].
  destruct (generic_area_at i line) as [a|]; [|destruct H].
  destruct H as [->|[]]. reflexivity.
Qed.

Lemma best_area_loop_In room_line_idx used_areas cands best_distance best k info :
  best_area_loop room_line_idx used_areas cands best_distance best
    = Some (k, info) ->
  best = Some (k, info) \/ In (k, info) cands.
Proof.
  revert best_distance best.
  induction cands as [|[j a] cands IH]; simpl; intros bd best H; [now left|].
  destruct (existsb (Nat.eqb j) used_areas).
  - destruct (IH _ _ H); auto.
  - destruct (below (distance (line_idx a) room_line_idx) bd
              && Qlt_bool (distance (line_idx a) room_line_idx) 15).
    + destruct (IH _ _ H) as [E|?]; auto. inversion E; subst. auto.
    + destruct (IH _ _ H); auto.
Qed.

Lemma generic_assign_In lines page_idx found_areas ids used_areas r :
  In r (generic_assign lines page_idx found_areas ids used_areas) ->
  exists room_id room_line_idx info,
    In (room_id, room_line_idx) ids /\ In info found_areas
    /\ r = generic_room lines page_idx room_id room_line_idx info.
Proof.
  revert used_areas.
  induction ids as [|[room_id l] ids IH]; simpl; intros used H; [destruct H|].
  destruct (best_area_loop l used (enumerate found_areas) None None)
    as [[k info]|] eqn:E.
  - destruct H as [<-|H].
    + apply best_area_loop_In in E as [E|E]; [discriminate|].
      apply enumerate_In, nth_error_In in E. eauto 8.
    + destruct (IH _ H) as (a & b & c & ? & ? & ?). eauto 8.
  - destruct (IH _ H) as (a & b & c & ? & ? & ?). eauto 8.
Qed.

(** Every generic record carries a stripped source line and an area in
    the plausible range. *)
Lemma generic_emitted lines page_idx rooms r :
  extract_generic lines page_idx = OK rooms -> In r rooms ->
  exists line,
    In line lines /\ source_text r = strip line
    /\ 1 # 2 <= area_m2 r /\ area_m2 r <= 10000
    /\ counted_m2 r = area_m2 r /\ factor r = 1.
Proof.
  unfold extract_generic. intros H Hin. inversion H; subst; clear H.
  apply generic_assign_In in Hin as (id & l & info & _ & Hinfo & ->).
  apply generic_find_areas_In in Hinfo as (i & line & Hnth & Hat).
  apply generic_area_at_Some in Hat as (_ & Hs & Hlo & Hhi).
  exists line. simpl. apply nth_error_In in Hnth. auto 8.
Qed.

(** ** What the haardtring lookahead found *)

Lemma haardtring_lookahead_Some lines js a b :
  haardtring_lookahead lines js = OK (Some a, b) ->
  exists j, In j js /\ haardtring_found_at lines j a b.
Proof.
  induction js as [|j js IH]; simpl; [discriminate|].
  destruct (re_match true haardtring_area (line_at lines j)) as [m|] eqn:Em.
  - intros H. apply bind_OK in H as (a' & Ha & H).
    apply bind_OK in H as (b' & Hb & H). inversion H; subst.
    exists j. split; [now left|]. left. eauto.
  - destruct (str_eqb (line_at lines j) (u "F:")
              && (j + 1 <? List.length lines)%nat) eqn:Ec.
    + destruct (re_match false value_comma (line_at lines (j + 1)))
        as [m|] eqn:Ev.
      * intros H. apply bind_OK in H as (a' & Ha & H).
        apply bind_OK in H as (b' & Hb & H). inversion H; subst.
        apply andb_true_iff in Ec as [E1 E2].
        apply str_eqb_eq in E1. apply Nat.ltb_lt in E2.
        exists j. split; [now left|]. right. eauto 8.
      * destruct (haardtring_stop (line_at lines j)); [discriminate|].
        intros H. destruct (IH H) as (j' & ? & ?). exists j'. split; [now right|assumption].
    + destruct (haardtring_stop (line_at lines j)); [discriminate|].
      intros H. destruct (IH H) as (j' & ? & ?). exists j'. split; [now right|assumption].
Qed.

(** ** Zero areas and the plausible range *)

(** C10.  Every room emitted by any of the four extractors has a non-zero
    area, and a generic room's area lies in [0.5, 10000].  An area that
    parses to zero is treated by each style extractor as no area at all,
    so the anchor of "F: 0,00 m²" produces no record. *)
Theorem emitted_area_nonzero :
  (forall f lines page_idx rooms r,
      call f lines page_idx = OK rooms -> In r rooms ->
      ~ area_m2 r == 0
      /\ (f = fn_generic -> 1 # 2 <= area_m2 r /\ area_m2 r <= 10000))
  /\ (forall a room_num room_name b v page_idx,
        a == 0 ->
        haardtring_emit room_num room_name (Some a) b page_idx
          = haardtring_emit room_num room_name None b page_idx
        /\ leiq_emit room_num room_name
             (LeiqVars (Some a) (lv_perimeter v) (lv_height v)
                (lv_pattern_used v)) page_idx
           = leiq_emit room_num room_name
               (LeiqVars None (lv_perimeter v) (lv_height v)
                  (lv_pattern_used v)) page_idx
        /\ omniturm_emit room_num room_name (Some a) page_idx
           = omniturm_emit room_num room_name None page_idx)
  /\ extract_haardtring (text_lines ["R1A"; "Bad"; "F: 0,00 m²"]%string) 0 = OK [].
Proof.
  split; [|split; [|reflexivity]].
  - intros f lines page_idx rooms r H Hin. destruct f; simpl in H.
    + destruct (haardtring_emitted _ _ _ _ H Hin) as (i & _ & Hat).
      apply haardtring_at_Some in Hat as (m & n & a & b & _ & _ & He).
      apply haardtring_emit_Some in He as (_ & Hnz & _).
      split; [exact Hnz|discriminate].
    + destruct (leiq_emitted _ _ _ _ H Hin) as (i & _ & Hat).
      apply leiq_at_Some in Hat as (m & n & v & _ & _ & He).
      apply leiq_emit_Some in He as (_ & Hnz & _).
      split; [exact Hnz|discriminate].
    + destruct (omniturm_emitted _ _ _ _ H Hin) as (i & p & _ & Hat).
      apply omniturm_at_Some in Hat as (n & a & _ & _ & He).
      apply omniturm_emit_Some in He as (_ & Hnz & _).
      split; [exact Hnz|discriminate].
    + destruct (generic_emitted _ _ _ _ H Hin) as (line & _ & _ & Hlo & Hhi & _).
      split; [|auto]. intros E. rewrite E in Hlo. now apply Hlo.
  - intros a room_num room_name b v page_idx Ha.
    unfold haardtring_emit, leiq_emit, omniturm_emit. cbn [lv_area].
    now rewrite (if_truthy_zero _ Ha).
Qed.

Lemma emitted_area_nonzero_witness :
  ~ area_m2 (mkRoom (u "R1A") (u "Bad") 10 10 1 0 (u "F: 10.0") None
               SANITARY None None None (u "F:")) == 0.
Proof.
  apply (proj1 emitted_area_nonzero fn_haardtring
           (text_lines ["R1A"; "Bad"; "F: 10,00 m²"]%string) 0%nat _ _ eq_refl).
  left. reflexivity.
Defined.

(** ** Captures are literal substrings *)

Lemma substring_of_app_r pre a b :
  substring_of a b -> substring_of a (pre ++ b).
Proof.
  intros (p & q & ->). exists (pre ++ p), q. now rewrite <- app_assoc.
Qed.

Lemma later_state_refl s : later_state s s.
Proof. exists []. simpl. rewrite Nat.add_0_r. auto. Qed.

Lemma later_state_trans s1 s2 s3 :
  later_state s1 s2 -> later_state s2 s3 -> later_state s1 s3.
Proof.
  intros (m1 & R1 & P1 & C1) (m2 & R2 & P2 & C2).
  exists (m1 ++ m2). rewrite length_app, <- app_assoc, <- R2.
  split; [exact R1|]. split; [lia|].
  destruct C2 as [E2|(g & Hg & Hs)].
  - rewrite E2. exact C1.
  - right. exists g. split; [exact Hg|]. rewrite R1.
    now apply substring_of_app_r.
Qed.

Lemma rmatch_later ic (A : Type) r :
  forall (s : mst) (k : mst -> option A) x,
    rmatch ic r s k = Some x ->
    exists s', later_state s s' /\ k s' = Some x.
Proof.
  induction r as [d|items|r1 IH1 r2 IH2|r1 IH1 r2 IH2|r1 IH1|r1 IH1|r1 IH1
                  | | | |]; intros s k x H; cbn [rmatch] in H.
  - unfold advance in H. destruct (m_rest s) as [|c t] eqn:E;
      [discriminate|].
    destruct (chr_match ic d c); [|discriminate].
    eexists. split; [|exact H]. exists [c]. cbn. rewrite E.
    split; [reflexivity|]. split; [lia|now left].
  - unfold advance in H. destruct (m_rest s) as [|c t] eqn:E;
      [discriminate|].
    destruct (existsb (fun i => item_match ic i c) items); [|discriminate].
    eexists. split; [|exact H]. exists [c]. cbn. rewrite E.
    split; [reflexivity|]. split; [lia|now left].
  - destruct (IH1 _ _ _ H) as (s1 & L1 & H1).
    destruct (IH2 _ _ _ H1) as (s2 & L2 & H2).
    exists s2. split; [exact (later_state_trans _ _ _ L1 L2)|exact H2].
  - destruct (rmatch ic r1 s k) as [y|] eqn:E1.
    + inversion H; subst. exact (IH1 _ _ _ E1).
    + exact (IH2 _ _ _ H).
  - revert H. generalize (S (List.length (m_rest s))). intros n.
    revert s. induction n as [|n IHn]; intros s H; cbn [star_loop] in H.
    + exists s. split; [apply later_state_refl|exact H].
    + match type of H with
      | match ?m with _ => _ end = _ => destruct m as [y|] eqn:E1
      end.
      * inversion H; subst.
        destruct (IH1 _ _ _ E1) as (s1 & L1 & H1).
        destruct (m_pos s1 =? m_pos s)%nat; [discriminate|].
        destruct (IHn _ H1) as (s2 & L2 & H2).
        exists s2. split; [exact (later_state_trans _ _ _ L1 L2)|exact H2].
      * exists s. split; [apply later_state_refl|exact H].
  - destruct (rmatch ic r1 s k) as [y|] eqn:E1.
    + inversion H; subst. exact (IH1 _ _ _ E1).
    + exists s. split; [apply later_state_refl|exact H].
  - destruct (IH1 _ _ _ H) as (s1 & (mid & R1 & P1 & _) & H1).
    eexists. split; [|exact H1]. exists mid. cbn.
    split; [exact R1|]. split; [exact P1|]. right.
    eexists. split; [reflexivity|].
    replace (m_pos s1 - m_pos s)%nat with (List.length mid) by lia.
    rewrite R1, firstn_app, Nat.sub_diag, firstn_all. cbn.
    rewrite app_nil_r. exists [], (m_rest s1). reflexivity.
  - destruct (m_pos s =? 0)%nat; [|discriminate].
    exists s. split; [apply later_state_refl|exact H].
  - destruct (at_eol s); [|discriminate].
    exists s. split; [apply later_state_refl|exact H].
  - destruct (xorb (word_before s) (word_after s)); [|discriminate].
    exists s. split; [apply later_state_refl|exact H].
  - exists s. split; [apply later_state_refl|exact H].
Qed.

Lemma substring_of_nil s : substring_of [] s.
Proof. exists [], s. reflexivity. Qed.

(** [m.group(1)] is a literal substring of the matched line. *)
Lemma re_match_group ic r s m :
  re_match ic r s = Some m -> substring_of (group1 m) s.
Proof.
  unfold re_match. intros H.
  apply rmatch_later in H as (s' & (mid & _ & _ & Hc) & E).
  inversion E; subst m. cbn in Hc. destruct Hc as [->|(g & -> & Hg)].
  - apply substring_of_nil.
  - exact Hg.
Qed.



Lemma token_source_of_match lines k ic r m a :
  re_match ic r (line_at lines k) = Some m ->
  parse_german_number (group1 m) = OK a ->
  token_source lines a.
Proof.
  intros Hm Hp. apply re_match_group in Hm. unfold line_at in Hm.
  destruct (Nat.lt_ge_cases k (List.length lines)) as [Hk|Hk].
  - exists (nth k lines []), (group1 m). split; [now apply nth_In|].
    split; [|exact Hp].
    eapply substring_of_trans; [exact Hm|apply strip_substring].
  - rewrite nth_overflow in Hm by exact Hk.
    destruct Hm as (pre & post & E). cbn in E. symmetry in E.
    apply app_eq_nil in E as [_ E]. apply app_eq_nil in E as [E _].
    rewrite E in Hp. discriminate.
Qed.



Lemma haardtring_found_token lines j a b :
  haardtring_found_at lines j a b -> token_source lines a.
Proof.
  intros [(m & Hm & Hp & _)|(_ & _ & m & Hm & Hp & _)];
    exact (token_source_of_match _ _ _ _ _ _ Hm Hp).
Qed.

Lemma leiq_lookahead_token lines js :
  forall v v' a,
    leiq_lookahead lines js v = OK v' -> lv_area v' = Some a ->
    lv_area v = Some a \/ token_source lines a.
Proof.
  induction js as [|j js IH]; intros v v' a H Ha.
  - cbn in H. inversion H; subst. now left.
  - assert (Hset : forall ic r m area p h u',
               re_match ic r (line_at lines (j + 0)) = Some m
               \/ re_match ic r (line_at lines (j + 1)) = Some m ->
               parse_german_number (group1 m) = OK area ->
               leiq_lookahead lines js (LeiqVars (Some area) p h u') = OK v' ->
               token_source lines a).
    { intros ic r m area p h u' Hm Hp Hl.
      destruct (IH _ _ _ Hl Ha) as [E|Ht]; [|exact Ht].
      cbn in E. inversion E; subst area.
      destruct Hm as [Hm|Hm];
        exact (token_source_of_match _ _ _ _ _ _ Hm Hp). }
    rewrite Nat.add_0_r in Hset.
    assert (Hkeep : forall v1,
               lv_area v1 = lv_area v ->
               leiq_lookahead lines js v1 = OK v' ->
               lv_area v = Some a \/ token_source lines a).
    { intros v1 E Hl. rewrite <- E. exact (IH _ _ _ Hl Ha). }
    cbn [leiq_lookahead] in H.
    destruct (if is_none (lv_area v)
              then re_match true leiq_nrf (line_at lines j) else None)
      as [m|] eqn:E1.
    { destruct (is_none (lv_area v)); [|discriminate].
      apply bind_OK in H as (area & Hp & H). right.
      exact (Hset _ _ _ _ _ _ _ (or_introl E1) Hp H). }
    destruct (if is_none (lv_area v)
              then re_match true leiq_f (line_at lines j) else None)
      as [m|] eqn:E2.
    { destruct (is_none (lv_area v)); [|discriminate].
      apply bind_OK in H as (area & Hp & H). right.
      exact (Hset _ _ _ _ _ _ _ (or_introl E2) Hp H). }
    unfold leiq_rest in H.
    destruct (if str_in (line_at lines j) split_labels
                 && (j + 1 <? List.length lines)%nat
              then
                match re_match false value_any (line_at lines (j + 1)) with
                | Some area_match =>
                    if is_none (lv_area v) then Some area_match else None
                | None => None
                end
              else None) as [m|] eqn:E3.
    { destruct (str_in (line_at lines j) split_labels
                && (j + 1 <? List.length lines)%nat); [|discriminate].
      destruct (re_match false value_any (line_at lines (j + 1)))
        as [m'|] eqn:E4; [|discriminate].
      destruct (is_none (lv_area v)); [|discriminate].
      inversion E3; subst m'.
      apply bind_OK in H as (area & Hp & H). right.
      exact (Hset _ _ _ _ _ _ _ (or_intror E4) Hp H). }
    destruct (re_match true leiq_u (line_at lines j)) as [m|].
    { apply bind_OK in H as (p & _ & H). refine (Hkeep _ _ H); reflexivity. }
    destruct (re_match true leiq_lh (line_at lines j)) as [m|].
    { apply bind_OK in H as (p & _ & H). refine (Hkeep _ _ H); reflexivity. }
    destruct (matches false leiq_room_pattern (line_at lines j)).
    { inversion H; subst. now left. }
    refine (Hkeep _ _ H); reflexivity.
Qed.

Lemma omniturm_lookahead_token lines js :
  forall name name' a,
    omniturm_lookahead lines js name = OK (name', Some a) ->
    token_source lines a.
Proof.
  induction js as [|j js IH]; intros name name' a H; [discriminate|].
  cbn [omniturm_lookahead] in H.
  destruct (matches false omniturm_room_pattern (line_at lines j));
    [discriminate|].
  destruct (re_match true omniturm_ngf (line_at lines j)) as [m|] eqn:E1.
  { apply bind_OK in H as (area & Hp & H). inversion H; subst.
    exact (token_source_of_match _ _ _ _ _ _ E1 Hp). }
  destruct (if str_eqb (line_at lines j) (u "NGF:")
               && (j + 1 <? List.length lines)%nat
            then re_match false value_any (line_at lines (j + 1))
            else None) as [m|] eqn:E2.
  { destruct (str_eqb (line_at lines j) (u "NGF:")
              && (j + 1 <? List.length lines)%nat); [|discriminate].
    apply bind_OK in H as (area & Hp & H). inversion H; subst.
    exact (token_source_of_match _ _ _ _ _ _ E2 Hp). }
  destruct (re_match false omniturm_schacht (line_at lines j)) as [m|];
    [|exact (IH _ _ _ H)].
  destruct (j + 2 <? List.length lines)%nat; [|exact (IH _ _ _ H)].
  destruct (re_match false value_comma (line_at lines (j + 2)))
    as [m2|] eqn:E3; [|exact (IH _ _ _ H)].
  apply bind_OK in H as (area & Hp & H). inversion H; subst.
  exact (token_source_of_match _ _ _ _ _ _ E3 Hp).
Qed.

(** ** The source excerpt *)





(** ** The counting factor *)

(** An outdoor room of the leiq extractor keeps factor 1.0. *)
Lemma leiq_outdoor_room_counted_in_full :
  exists r,
    extract_leiq
      (text_lines ["B.00.2.002"; "Dachterrasse"; "NRF: 10,00 m2"]%string) 0
      = OK [r]
    /\ category r = OUTDOOR /\ factor_source r = None
    /\ factor r = 1 /\ area_m2 r = 10 /\ counted_m2 r = 10.
Proof. eexists. split; [vm_compute; reflexivity|]. repeat split. Qed.

(** Rounding to two decimals stays within half a hundredth. *)
Lemma round_half_even_error y :
  - (1 # 2) <= inject_Z (round_half_even y) - y
  /\ inject_Z (round_half_even y) - y <= 1 # 2.
Proof.
  unfold round_half_even.
  pose proof (Qfloor_le y) as Hlo. pose proof (Qlt_floor y) as Hhi.
  rewrite inject_Z_plus in Hhi. change (inject_Z 1) with 1 in Hhi.
  destruct (Qcompare (y - inject_Z (Qfloor y)) (1 # 2)) eqn:E.
  - apply Qeq_alt in E. destruct (Z.even (Qfloor y)).
    + split; lra.
    + rewrite inject_Z_plus. change (inject_Z 1) with 1. split; lra.
  - apply Qlt_alt in E. split; lra.
  - apply Qgt_alt in E. rewrite inject_Z_plus. change (inject_Z 1) with 1.
    split; lra.
Qed.

Lemma round2_error x :
  - (1 # 200) <= round2 x - x /\ round2 x - x <= 1 # 200.
Proof.
  unfold round2. rewrite Qred_correct.
  destruct (round_half_even_error (x * 100)) as [Hlo Hhi].
  assert (E : (round_half_even (x * 100) # 100)
              == inject_Z (round_half_even (x * 100)) * (1 # 100))
    by exact (Qmake_Qdiv _ _).
  rewrite E. split; lra.
Qed.

Lemma round2_two_decimals x : two_decimals (round2 x).
Proof. now exists (round_half_even (x * 100)). Qed.

Lemma round2_near x : Qabs (round2 x - x) <= 1 # 200.
Proof.
  destruct (round2_error x) as [Hlo Hhi].
  apply Qabs_Qle_condition. split; lra.
Qed.

(** C2 (amended).  The haardtring extractor applies the counting-factor
    policy to every room it emits: with a non-zero override read from the
    line after the area value, counted_m2 is the override, the factor 0.5
    and the provenance "explicit_50%"; otherwise, for a room whose
    category is outdoor, the factor is 0.5, the provenance
    "default_outdoor" and counted_m2 is area_m2 * 0.5 rounded to two
    decimals: a number of hundredths at most 0.005 away from
    area_m2 * 0.5, whichever neighbour the rounding takes at an exact
    half; otherwise the factor is 1.0 and counted_m2 = area_m2.  The leiq
    and omniturm extractors read no override and always emit factor 1.0
    with counted_m2 = area_m2.  The lines R1A / Balkon / F: 10,00 m² /
    50%: 5,00 m² yield one room with area 10, counted 5, factor 0.5 and
    provenance "explicit_50%"; the lines R1A / Balkon / F: 12,34 m²
    yield one room with area 12.34, counted 6.17, factor 0.5 and
    provenance "default_outdoor". *)
Theorem counting_factor_policy :
  (forall lines page_idx rooms r,
      extract_haardtring lines page_idx = OK rooms -> In r rooms ->
      exists i j balcony_area,
        In j (window lines i)
        /\ haardtring_found_at lines j (area_m2 r) balcony_area
        /\ match if_truthy balcony_area with
           | Some v =>
               counted_m2 r = v /\ factor r = 1 # 2
               /\ factor_source r = Some (u "explicit_50%")
           | None =>
               if cat_eqb (category r) OUTDOOR
               then two_decimals (counted_m2 r)
                    /\ Qabs (counted_m2 r - area_m2 r * (1 # 2)) <= 1 # 200
                    /\ factor r = 1 # 2
                    /\ factor_source r = Some (u "default_outdoor")
               else counted_m2 r = area_m2 r /\ factor r = 1
                    /\ factor_source r = None
           end)
  /\ (forall f lines page_idx rooms r,
        f = fn_leiq \/ f = fn_omniturm ->
        call f lines page_idx = OK rooms -> In r rooms ->
        counted_m2 r = area_m2 r /\ factor r = 1 /\ factor_source r = None)
  /\ extract_haardtring
       (text_lines ["R1A"; "Balkon"; "F: 10,00 m²"; "50%: 5,00 m²"]%string) 0
     = OK [mkRoom (u "R1A") (u "Balkon") 10 5 (1 # 2) 0 (u "F: 10.0") None
             OUTDOOR None None (Some (u "explicit_50%")) (u "F:")]
  /\ extract_haardtring outdoor_example_lines 0 = OK [outdoor_example_room].
Proof.
  split; [|split; [|split; reflexivity]].
  - intros lines page_idx rooms r H Hin.
    destruct (haardtring_emitted _ _ _ _ H Hin) as (i & _ & Hat).
    apply haardtring_at_Some in Hat as (m & n & a & b & _ & Hl & He).
    apply haardtring_emit_Some in He as (-> & _ & _ & _ & _ & Hp).
    apply haardtring_lookahead_Some in Hl as (j & Hj & Hf).
    exists i, j, b. split; [exact Hj|]. split; [exact Hf|].
    destruct (if_truthy b); [exact Hp|].
    destruct (cat_eqb (category r) OUTDOOR); [|exact Hp].
    destruct Hp as (Hc & Hfa & Hfs). rewrite Hc.
    split; [apply round2_two_decimals|].
    split; [apply round2_near|]. split; [exact Hfa|exact Hfs].
  - intros f lines page_idx rooms r [-> | ->] H Hin; simpl in H.
    + destruct (leiq_emitted _ _ _ _ H Hin) as (i & _ & Hat).
      apply leiq_at_Some in Hat as (m & n & v & _ & _ & He).
      apply leiq_emit_Some in He. tauto.
    + destruct (omniturm_emitted _ _ _ _ H Hin) as (i & p & _ & Hat).
      apply omniturm_at_Some in Hat as (n & a & _ & _ & He).
      apply omniturm_emit_Some in He. tauto.
Qed.

Lemma counting_factor_policy_witness :
  (exists i j balcony_area,
      In j (window outdoor_example_lines i)
      /\ haardtring_found_at outdoor_example_lines j
           (area_m2 outdoor_example_room) balcony_area
      /\ match if_truthy balcony_area with
         | Some v =>
             counted_m2 outdoor_example_room = v
             /\ factor outdoor_example_room = 1 # 2
             /\ factor_source outdoor_example_room
                = Some (u "explicit_50%")
         | None =>
             if cat_eqb (category outdoor_example_room) OUTDOOR
             then two_decimals (counted_m2 outdoor_example_room)
                  /\ Qabs (counted_m2 outdoor_example_room
                           - area_m2 outdoor_example_room * (1 # 2))
                     <= 1 # 200
                  /\ factor outdoor_example_room = 1 # 2
                  /\ factor_source outdoor_example_room
                     = Some (u "default_outdoor")
             else counted_m2 outdoor_example_room
                  = area_m2 outdoor_example_room
                  /\ factor outdoor_example_room = 1
                  /\ factor_source outdoor_example_room = None
         end)
  /\ counted_m2 leiq_example_room = area_m2 leiq_example_room
  /\ factor leiq_example_room = 1
  /\ factor_source leiq_example_room = None.
Proof.
  split.
  - apply (proj1 counting_factor_policy outdoor_example_lines 0%nat
             [outdoor_example_room] outdoor_example_room).
    + vm_compute. reflexivity.
    + left. reflexivity.
  - apply (proj1 (proj2 counting_factor_policy) fn_leiq leiq_example_lines
             0%nat [leiq_example_room] leiq_example_room).
    + left. reflexivity.
    + vm_compute. reflexivity.
    + left. reflexivity.
Defined.

(** ** The first character of a match *)

Lemma first_ok_weaken ic r r' s :
  (forall c, existsb (test_ok ic c) (first_tests r) = true ->
             existsb (test_ok ic c) (first_tests r') = true) ->
  first_ok ic r s -> first_ok ic r' s.
Proof. intros H (c & t & ? & ?). exists c, t. auto. Qed.

Lemma rmatch_first ic (A : Type) r :
  forall (s : mst) (k : mst -> option A) x,
    rmatch ic r s k = Some x ->
    first_ok ic r s
    \/ (nullable r = true /\ exists s', m_rest s' = m_rest s /\ k s' = Some x).
Proof.
  induction r as [d|items|r1 IH1 r2 IH2|r1 IH1 r2 IH2|r1 IH1|r1 IH1|r1 IH1
                  | | | |]; intros s k x H; cbn [rmatch] in H.
  - left. unfold advance in H. destruct (m_rest s) as [|c t] eqn:E;
      [discriminate|].
    destruct (chr_match ic d c) eqn:Ec; [|discriminate].
    exists c, t. split; [exact E|]. simpl. now rewrite Ec.
  - left. unfold advance in H. destruct (m_rest s) as [|c t] eqn:E;
      [discriminate|].
    destruct (existsb (fun i => item_match ic i c) items) eqn:Ec;
      [|discriminate].
    exists c, t. split; [exact E|]. simpl. now rewrite Ec.
  - destruct (IH1 _ _ _ H) as [Hf|(Hn & s' & Hs' & Hk)].
    + left. revert Hf. apply first_ok_weaken. intros c Hc. cbn [first_tests].
      rewrite existsb_app, Hc. reflexivity.
    + destruct (IH2 _ _ _ Hk) as [(c & t & Hr & Hc)|(Hn2 & s'' & Hs'' & Hk2)].
      * left. exists c, t. split; [congruence|]. cbn [first_tests].
        rewrite Hn, existsb_app, Hc. apply orb_true_r.
      * right. cbn [nullable]. rewrite Hn, Hn2. split; [reflexivity|].
        exists s''. split; [congruence|assumption].
  - destruct (rmatch ic r1 s k) as [y|] eqn:E1.
    + inversion H; subst. destruct (IH1 _ _ _ E1) as [Hf|(Hn & Hk)].
      * left. revert Hf. apply first_ok_weaken. intros c Hc.
        cbn [first_tests]. rewrite existsb_app, Hc. reflexivity.
      * right. cbn [nullable]. rewrite Hn. auto.
    + destruct (IH2 _ _ _ H) as [Hf|(Hn & Hk)].
      * left. revert Hf. apply first_ok_weaken. intros c Hc.
        cbn [first_tests]. rewrite existsb_app, Hc. apply orb_true_r.
      * right. cbn [nullable]. rewrite Hn, orb_true_r. auto.
  - revert H. generalize (S (List.length (m_rest s))). intros n.
    revert s. induction n as [|n IHn]; intros s H; cbn [star_loop] in H.
    + right. split; [reflexivity|]. eauto.
    + match type of H with
      | match ?m with _ => _ end = _ => destruct m as [y|] eqn:E1
      end.
      * inversion H; subst.
        destruct (IH1 _ _ _ E1) as [Hf|(Hn & s' & Hs' & Hk)]; [now left|].
        destruct (m_pos s' =? m_pos s)%nat; [discriminate|].
        destruct (IHn _ Hk) as [(c & t & Hr & Hc)|(_ & s'' & Hs'' & Hk2)].
        -- left. exists c, t. split; [congruence|assumption].
        -- right. split; [reflexivity|]. exists s''. split; [congruence|auto].
      * right. split; [reflexivity|]. eauto.
  - destruct (rmatch ic r1 s k) as [y|] eqn:E1.
    + inversion H; subst. destruct (IH1 _ _ _ E1) as [Hf|(Hn & Hk)].
      * now left.
      * right. auto.
    + right. split; [reflexivity|]. eauto.
  - destruct (IH1 _ _ _ H) as [Hf|(Hn & s' & Hs' & Hk)]; [now left|].
    right. split; [exact Hn|].
    eexists. split; [|exact Hk]. simpl. exact Hs'.
  - destruct (m_pos s =? 0)%nat; [|discriminate]. right. eauto.
  - destruct (at_eol s); [|discriminate]. right. eauto.
  - destruct (xorb (word_before s) (word_after s)); [|discriminate].
    right. eauto.
  - right. eauto.
Qed.

(** A pattern that cannot match the empty string matches only a line
    whose first character passes one of its first tests. *)
Lemma matches_first ic r s :
  nullable r = false -> matches ic r s = true ->
  exists c t, s = c :: t /\ existsb (test_ok ic c) (first_tests r) = true.
Proof.
  unfold matches, re_match. intros Hn H.
  destruct (rmatch ic r (MSt None 0 s None) (fun s' => Some (m_cap s')))
    as [x|] eqn:E; [|discriminate].
  apply rmatch_first in E as [(c & t & Hr & Hc)|[Hn' _]]; [|congruence].
  exists c, t. auto.
Qed.

Lemma re_match_matches ic r s m :
  re_match ic r s = Some m -> matches ic r s = true.
Proof. unfold matches. now intros ->. Qed.

(** ** The lookahead window *)

Lemma seq_split a n pre j post :
  seq a n = pre ++ j :: post ->
  (a <= j < a + n)%nat /\ forall k, (a <= k < j)%nat -> In k pre.
Proof.
  revert a n. induction pre as [|p pre IH]; intros a n H.
  - destruct n as [|n]; [discriminate|]. simpl in H. inversion H; subst.
    split; [lia|]. intros k Hk. lia.
  - destruct n as [|n]; [discriminate|]. simpl in H. inversion H; subst.
    destruct (IH _ _ H2) as [Hj Hpre]. split; [lia|].
    intros k Hk. destruct (Nat.eq_dec k p) as [->|Hne]; [now left|].
    right. apply Hpre. lia.
Qed.

Lemma window_split lines i pre j post :
  window lines i = pre ++ j :: post ->
  (i < j <= i + 14)%nat /\ (j < List.length lines)%nat
  /\ forall k, (i < k < j)%nat -> In k pre.
Proof.
  unfold window, py_range. intros H. apply seq_split in H as [Hj Hpre].
  repeat split; try lia. intros k Hk. apply Hpre. lia.
Qed.

Lemma window_In lines i j :
  In j (window lines i) -> (i < j <= i + 14)%nat /\ (j < List.length lines)%nat.
Proof. unfold window. rewrite py_range_In. lia. Qed.

Lemma haardtring_found_labelled lines j a b :
  haardtring_found_at lines j a b ->
  labelled_area_at fn_haardtring lines j = true.
Proof.
  unfold labelled_area_at.
  intros [(m & Hm & _)|(Hc & Hlt & m & Hm & _)].
  - now rewrite (re_match_matches _ _ _ _ Hm).
  - apply str_eqb_eq in Hc. apply Nat.ltb_lt in Hlt.
    rewrite Hc, Hlt, (re_match_matches _ _ _ _ Hm). btrue.
Qed.

(** A line the leiq lookahead skips with [continue] is no anchor. *)
Lemma leiq_continue_not_anchor s :
  matches true leiq_u s = true \/ matches true leiq_lh s = true ->
  matches false leiq_room_pattern s = false.
Proof.
  intros H. destruct (matches false leiq_room_pattern s) eqn:E; [|reflexivity].
  apply matches_first in E as (c & t & -> & Hc); [|reflexivity].
  change (first_tests leiq_room_pattern) with [TChr (ch "B")] in Hc.
  simpl in Hc. unfold chr_match in Hc. simpl in Hc.
  rewrite !orb_false_r in Hc. apply N.eqb_eq in Hc. subst c.
  destruct H as [H|H]; apply matches_first in H as (c & t' & E & Hc);
    try reflexivity; inversion E; subst; vm_compute in Hc; discriminate.
Qed.

Lemma leiq_lookahead_area lines js :
  forall v v' a,
    leiq_lookahead lines js v = OK v' ->
    lv_area v = None -> lv_area v' = Some a ->
    exists pre j post,
      js = pre ++ j :: post
      /\ labelled_area_at fn_leiq lines j = true
      /\ forall k, In k pre ->
                   matches false leiq_room_pattern (line_at lines k) = false.
Proof.
  induction js as [|j js IH]; intros v v' a H Hv Ha.
  - simpl in H. inversion H; subst. congruence.
  - assert (Hhere : labelled_area_at fn_leiq lines j = true ->
                    exists pre j0 post,
                      j :: js = pre ++ j0 :: post
                      /\ labelled_area_at fn_leiq lines j0 = true
                      /\ forall k, In k pre ->
                           matches false leiq_room_pattern (line_at lines k)
                           = false).
    { intros Hl. exists [], j, js. split; [reflexivity|].
      split; [exact Hl|]. intros k []. }
    assert (Hlater : forall v1,
               leiq_lookahead lines js v1 = OK v' -> lv_area v1 = None ->
               matches false leiq_room_pattern (line_at lines j) = false ->
               exists pre j0 post,
                 j :: js = pre ++ j0 :: post
                 /\ labelled_area_at fn_leiq lines j0 = true
                 /\ forall k, In k pre ->
                      matches false leiq_room_pattern (line_at lines k)
                      = false).
    { intros v1 H1 Hv1 Hna.
      destruct (IH _ _ _ H1 Hv1 Ha) as (pre & j0 & post & -> & Hl & Hpre).
      exists (j :: pre), j0, post. split; [reflexivity|].
      split; [exact Hl|]. intros k [<-|Hk]; auto. }
    cbn [leiq_lookahead] in H. rewrite Hv in H. cbn [is_none] in H.
    unfold labelled_area_at in Hhere.
    destruct (re_match true leiq_nrf (line_at lines j)) as [m|] eqn:E1.
    { apply Hhere. rewrite (re_match_matches _ _ _ _ E1). btrue. }
    destruct (re_match true leiq_f (line_at lines j)) as [m|] eqn:E2.
    { apply Hhere. rewrite (re_match_matches _ _ _ _ E2). btrue. }
    unfold leiq_rest in H. rewrite Hv in H. cbn [is_none] in H.
    destruct (str_in (line_at lines j) split_labels
              && (j + 1 <? List.length lines)%nat) eqn:E3.
    + destruct (re_match false value_any (line_at lines (j + 1)))
        as [m|] eqn:E4.
      { apply Hhere. apply andb_true_iff in E3 as [-> ->].
        rewrite (re_match_matches _ _ _ _ E4). btrue. }
      destruct (re_match true leiq_u (line_at lines j)) as [m|] eqn:E5.
      { apply bind_OK in H as (p & _ & H). apply (Hlater _ H eq_refl).
        apply leiq_continue_not_anchor. left.
        exact (re_match_matches _ _ _ _ E5). }
      destruct (re_match true leiq_lh (line_at lines j)) as [m|] eqn:E6.
      { apply bind_OK in H as (p & _ & H). apply (Hlater _ H eq_refl).
        apply leiq_continue_not_anchor. right.
        exact (re_match_matches _ _ _ _ E6). }
      destruct (matches false leiq_room_pattern (line_at lines j)) eqn:E7.
      { inversion H; subst. congruence. }
      apply (Hlater _ H Hv eq_refl).
    + destruct (re_match true leiq_u (line_at lines j)) as [m|] eqn:E5.
      { apply bind_OK in H as (p & _ & H). apply (Hlater _ H eq_refl).
        apply leiq_continue_not_anchor. left.
        exact (re_match_matches _ _ _ _ E5). }
      destruct (re_match true leiq_lh (line_at lines j)) as [m|] eqn:E6.
      { apply bind_OK in H as (p & _ & H). apply (Hlater _ H eq_refl).
        apply leiq_continue_not_anchor. right.
        exact (re_match_matches _ _ _ _ E6). }
      destruct (matches false leiq_room_pattern (line_at lines j)) eqn:E7.
      { inversion H; subst. congruence. }
      apply (Hlater _ H Hv eq_refl).
Qed.

Lemma omniturm_lookahead_area lines js :
  forall name name' a,
    omniturm_lookahead lines js name = OK (name', Some a) ->
    exists pre j post,
      js = pre ++ j :: post
      /\ labelled_area_at fn_omniturm lines j
         || shaft_area_at fn_omniturm lines j = true
      /\ forall k, In k pre \/ k = j ->
           matches false omniturm_room_pattern (line_at lines k) = false.
Proof.
  induction js as [|j js IH]; intros name name' a H; [discriminate|].
  cbn [omniturm_lookahead] in H.
  destruct (matches false omniturm_room_pattern (line_at lines j)) eqn:Ea;
    [discriminate|].
  assert (Hhere : labelled_area_at fn_omniturm lines j
                  || shaft_area_at fn_omniturm lines j = true ->
                  exists pre j0 post,
                    j :: js = pre ++ j0 :: post
                    /\ labelled_area_at fn_omniturm lines j0
                       || shaft_area_at fn_omniturm lines j0 = true
                    /\ forall k, In k pre \/ k = j0 ->
                         matches false omniturm_room_pattern (line_at lines k)
                         = false).
  { intros Hl. exists [], j, js. split; [reflexivity|].
    split; [exact Hl|]. intros k [[]| ->]. exact Ea. }
  assert (Hlater : forall name1,
             omniturm_lookahead lines js name1 = OK (name', Some a) ->
             exists pre j0 post,
               j :: js = pre ++ j0 :: post
               /\ labelled_area_at fn_omniturm lines j0
                  || shaft_area_at fn_omniturm lines j0 = true
               /\ forall k, In k pre \/ k = j0 ->
                    matches false omniturm_room_pattern (line_at lines k)
                    = false).
  { intros name1 H1.
    destruct (IH _ _ _ H1) as (pre & j0 & post & -> & Hl & Hpre).
    exists (j :: pre), j0, post. split; [reflexivity|].
    split; [exact Hl|]. intros k [[<-|Hk]| ->]; auto. }
  unfold labelled_area_at, shaft_area_at in Hhere.
  destruct (re_match true omniturm_ngf (line_at lines j)) as [m|] eqn:E1.
  { apply Hhere. rewrite (re_match_matches _ _ _ _ E1). btrue. }
  destruct (str_eqb (line_at lines j) (u "NGF:")
            && (j + 1 <? List.length lines)%nat) eqn:E3.
  - destruct (re_match false value_any (line_at lines (j + 1)))
      as [m|] eqn:E4.
    { apply Hhere. apply andb_true_iff in E3 as [-> ->].
      rewrite (re_match_matches _ _ _ _ E4). btrue. }
    destruct (re_match false omniturm_schacht (line_at lines j))
      as [m|] eqn:E5; [|exact (Hlater _ H)].
    destruct (j + 2 <? List.length lines)%nat eqn:E6; [|exact (Hlater _ H)].
    destruct (re_match false value_comma (line_at lines (j + 2)))
      as [m2|] eqn:E7; [|exact (Hlater _ H)].
    apply Hhere. rewrite (re_match_matches _ _ _ _ E5).
    rewrite (re_match_matches _ _ _ _ E7). btrue.
  - destruct (re_match false omniturm_schacht (line_at lines j))
      as [m|] eqn:E5; [|exact (Hlater _ H)].
    destruct (j + 2 <? List.length lines)%nat eqn:E6; [|exact (Hlater _ H)].
    destruct (re_match false value_comma (line_at lines (j + 2)))
      as [m2|] eqn:E7; [|exact (Hlater _ H)].
    apply Hhere. rewrite (re_match_matches _ _ _ _ E5).
    rewrite (re_match_matches _ _ _ _ E7). btrue.
Qed.

(** An anchor line with trailing text opens a haardtring candidate but
    does not end the lookahead of the candidate before it: both rooms get
    the same area. *)
Lemma haardtring_lookahead_passes_suffixed_anchor :
  exists r1 r2,
    extract_haardtring
      (text_lines ["R1A"; "Wohnen"; "R1B Balkon"; "F: 10,00 m²"]%string) 0
    = OK [r1; r2]
    /\ room_number r1 = u "R1A" /\ room_number r2 = u "R1B"
    /\ area_m2 r1 = 10 /\ area_m2 r2 = 10.
Proof. do 2 eexists. split; [vm_compute; reflexivity|]. repeat split. Qed.

(** An omniturm shaft gets its area from a line without any area label. *)
Lemma shaft_area_without_label :
  exists r,
    extract_omniturm
      (text_lines ["03_b6.12"; "Schacht 01"; "Lüftung"; "1,50 m²"]%string) 0
    = OK [r]
    /\ area_m2 r = 3 # 2
    /\ forallb
         (fun j =>
            negb (labelled_area_at fn_omniturm
                    (text_lines ["03_b6.12"; "Schacht 01"; "Lüftung";
                                 "1,50 m²"]%string) j))
         (seq 0 4) = true.
Proof.
  eexists. split; [vm_compute; reflexivity|]. split; reflexivity.
Qed.

(** C7 (amended).  A room of a style extractor is emitted for an anchor
    line [i] only if an area is matched at a line [j] among the 14 lines
    after the anchor: an inline area label with its value, a bare label
    with the value on line [j + 1], or, for omniturm, a shaft name with
    the value on line [j + 2].  For leiq and omniturm no line strictly
    between the anchor and line [j] matches the style's room-anchor
    grammar. *)
Theorem area_found_in_window : forall f lines page_idx rooms r,
  f <> fn_generic ->
  call f lines page_idx = OK rooms -> In r rooms ->
  exists i j,
    (i < List.length lines)%nat
    /\ anchor_id f (line_at lines i) = Some (room_number r)
    /\ (i < j <= i + 14)%nat /\ (j < List.length lines)%nat
    /\ labelled_area_at f lines j || shaft_area_at f lines j = true
    /\ (f <> fn_haardtring ->
        forall k, (i < k < j)%nat -> anchor_id f (line_at lines k) = None).
Proof.
  intros f lines page_idx rooms r Hf H Hin. destruct f; simpl in H.
  - destruct (haardtring_emitted _ _ _ _ H Hin) as (i & Hi & Hat).
    apply haardtring_at_Some in Hat as (m & n & a & b & Hm & Hl & He).
    apply haardtring_emit_Some in He as (-> & _ & Hnum & _).
    apply haardtring_lookahead_Some in Hl as (j & Hj & Hfound).
    apply window_In in Hj as [Hj1 Hj2].
    exists i, j. split; [exact Hi|]. split.
    { cbn [anchor_id]. rewrite Hm. cbn [option_map]. now rewrite Hnum. }
    split; [exact Hj1|]. split; [exact Hj2|]. split.
    { rewrite (haardtring_found_labelled _ _ _ _ Hfound). reflexivity. }
    intros Hne. now destruct Hne.
  - destruct (leiq_emitted _ _ _ _ H Hin) as (i & Hi & Hat).
    apply leiq_at_Some in Hat as (m & n & v & Hm & Hl & He).
    apply leiq_emit_Some in He as (Ha & _ & Hnum & _).
    destruct (leiq_lookahead_area _ _ _ _ _ Hl eq_refl Ha)
      as (pre & j & post & Hw & Hlab & Hpre).
    apply window_split in Hw as (Hj1 & Hj2 & Hbetween).
    exists i, j. split; [exact Hi|]. split.
    { cbn [anchor_id]. rewrite Hm. cbn [option_map]. now rewrite Hnum. }
    split; [exact Hj1|]. split; [exact Hj2|]. split.
    { rewrite Hlab. reflexivity. }
    intros _ k Hk. cbn [anchor_id]. specialize (Hpre k (Hbetween k Hk)).
    unfold matches in Hpre.
    destruct (re_match false leiq_room_pattern (line_at lines k));
      [discriminate|reflexivity].
  - destruct (omniturm_emitted _ _ _ _ H Hin) as (i & p & Hi & Hat).
    apply omniturm_at_Some in Hat as (n & a & Hm & Hl & He).
    apply omniturm_emit_Some in He as (-> & _ & Hnum & _).
    destruct (omniturm_lookahead_area _ _ _ _ _ Hl)
      as (pre & j & post & Hw & Hlab & Hpre).
    apply window_split in Hw as (Hj1 & Hj2 & Hbetween).
    exists i, j. split; [exact Hi|]. split.
    { cbn [anchor_id]. rewrite Hm. now rewrite Hnum. }
    split; [exact Hj1|]. split; [exact Hj2|]. split; [exact Hlab|].
    intros _ k Hk. cbn [anchor_id].
    now rewrite (Hpre k (or_introl (Hbetween k Hk))).
  - now destruct Hf.
Qed.

Lemma area_found_in_window_witness :
  exists i j,
    (i < List.length leiq_example_lines)%nat
    /\ anchor_id fn_leiq (line_at leiq_example_lines i)
       = Some (room_number leiq_example_room)
    /\ (i < j <= i + 14)%nat /\ (j < List.length leiq_example_lines)%nat
    /\ labelled_area_at fn_leiq leiq_example_lines j
       || shaft_area_at fn_leiq leiq_example_lines j = true
    /\ (fn_leiq <> fn_haardtring ->
        forall k, (i < k < j)%nat ->
                  anchor_id fn_leiq (line_at leiq_example_lines k) = None).
Proof.
  apply (area_found_in_window fn_leiq leiq_example_lines 0%nat
           [leiq_example_room] leiq_example_room).
  - discriminate.
  - vm_compute. reflexivity.
  - left. reflexivity.
Defined.

(** ** A token that does not parse *)

(** C4.  At the lines R1A / Bad / F: 12,34,56 m² / R1B / Wohnen /
    F: 20,00 m² the haardtring extractor raises ValueError instead of
    dropping the first candidate and emitting the second; so do the leiq
    and omniturm extractors on their own labels, and so does the whole
    extraction.  The generic extractor catches the error, drops the
    candidate and still emits the other room. *)
Theorem unparsable_area_raises :
  extract_haardtring
    (text_lines ["R1A"; "Bad"; "F: 12,34,56 m²";
                 "R1B"; "Wohnen"; "F: 20,00 m²"]%string) 0
  = Err ValueError
  /\ extract_leiq
       (text_lines ["B.00.2.002"; "Büro"; "NRF: 12,34,56 m²";
                    "B.00.2.003"; "Büro"; "NRF: 20,00 m²"]%string) 0
     = Err ValueError
  /\ extract_omniturm
       (text_lines ["03_b6.12"; "Flur"; "NGF: 12,34,56 m²";
                    "03_b6.13"; "Flur"; "NGF: 20,00 m²"]%string) 0
     = Err ValueError
  /\ extract_room_areas
       [join newline
          (text_lines ["R1A"; "Bad"; "F: 12,34,56 m²";
                       "R1B"; "Wohnen"; "F: 20,00 m²"]%string)] None None
     = Err ValueError
  /\ extract_generic
       (text_lines ["A.002"; "Wohnen"; "F: 20,00 m²";
                    "A.001"; "Bad"; "F: 12,34,56 m²"]%string) 0
     = OK [mkRoom (u "A.002") (u "Wohnen") 20 20 1 0 (u "F: 20,00 m²") None
             RESIDENTIAL None None None (u "generic")].
Proof. repeat split; vm_compute; reflexivity. Qed.

(** ** The fallback cascade *)

(** C3.  In a two-page document detected as haardtring whose second page
    is LeiQ-labelled, the haardtring extractor finds nothing on page 1,
    the leiq fallback finds the room, and the generic extractor is then
    run as well and its room for the same identifier is added: the room
    is counted twice. *)
Theorem generic_runs_after_style_fallback :
  exists res,
    extract_room_areas
      [join newline
         (text_lines ["R2.E5.3.5"; "Schlafen"; "F: 12,34 m²"; ""]%string);
       join newline
         (text_lines ["B.00.2.002"; "Büro"; "NRF: 50,37 m2"; ""]%string)]
      None None = OK res
    /\ blueprint_style res = HAARDTRING
    /\ map (fun r => (room_number r, page r, extraction_pattern r))
         (rooms res)
       = [ (u "R2.E5.3.5", 0%nat, u "F:");
           (u "B.00.2.002", 1%nat, u "NRF:");
           (u "B.00.2.002", 1%nat, u "generic") ]
    /\ warnings res
       = [ u "Page 1: Used leiq pattern as fallback";
           u "Page 1: Used generic flexible extraction" ]
    /\ total_area_m2 res = Qred 113.08.
Proof. eexists. split; [vm_compute; reflexivity|]. repeat split. Qed.

(** ** The generic extractor's greedy assignment *)

Lemma Qlt_bool_iff a b : Qlt_bool a b = true <-> a < b.
Proof.
  unfold Qlt_bool. rewrite negb_true_iff. split.
  - intros H. apply Qnot_le_lt. intros Hle.
    apply Qle_bool_iff in Hle. congruence.
  - intros H. destruct (Qle_bool b a) eqn:E; [|reflexivity].
    apply Qle_bool_iff in E. exfalso. exact (Qlt_not_le _ _ H E).
Qed.

Lemma Qlt_bool_false a b : Qlt_bool a b = false <-> b <= a.
Proof.
  unfold Qlt_bool. rewrite negb_false_iff. apply Qle_bool_iff.
Qed.

Lemma best_area_loop_spec room_line_idx used_areas cands :
  forall best_distance best,
    best_state room_line_idx used_areas best_distance best ->
    match best_area_loop room_line_idx used_areas cands best_distance best with
    | Some (k, info) =>
        (best = Some (k, info) \/ In (k, info) cands)
        /\ ~ In k used_areas
        /\ distance (line_idx info) room_line_idx < 15
        /\ (forall k' info',
               In (k', info') cands -> ~ In k' used_areas ->
               distance (line_idx info) room_line_idx
               <= distance (line_idx info') room_line_idx)
        /\ (forall d0, best_distance = Some d0 ->
                       distance (line_idx info) room_line_idx <= d0)
    | None =>
        best = None
        /\ forall k' info',
             In (k', info') cands -> ~ In k' used_areas ->
             ~ distance (line_idx info') room_line_idx < 15
    end.
Proof.
  induction cands as [|[j a] cands IH]; intros bd best Hst;
    cbn [best_area_loop].
  - destruct best as [[k info]|].
    + destruct bd as [d0|]; [|destruct Hst]. destruct Hst as (-> & Hlt & Hnu).
      split; [now left|]. split; [exact Hnu|]. split; [exact Hlt|].
      split; [intros ? ? []|].
      intros d0 E. inversion E; subst. apply Qle_refl.
    + split; [reflexivity|]. intros ? ? [].
  - destruct (existsb (Nat.eqb j) used_areas) eqn:Eu.
    + assert (Hj : In j used_areas).
      { apply existsb_exists in Eu as (x & Hx & E).
        apply Nat.eqb_eq in E. now subst. }
      specialize (IH bd best Hst).
      destruct (best_area_loop room_line_idx used_areas cands bd best)
        as [[k info]|].
      * destruct IH as (Hin & Hnu & Hlt & Hmin & Hbd).
        split; [destruct Hin; [now left|right; now right]|].
        split; [exact Hnu|]. split; [exact Hlt|]. split; [|exact Hbd].
        intros k' info' [E|Hin'] Hnu'; [|exact (Hmin _ _ Hin' Hnu')].
        inversion E; subst. contradiction.
      * destruct IH as (Hb & Hnone). split; [exact Hb|].
        intros k' info' [E|Hin'] Hnu'; [|exact (Hnone _ _ Hin' Hnu')].
        inversion E; subst. contradiction.
    + assert (Hj : ~ In j used_areas).
      { intros Hin. rewrite <- not_true_iff_false in Eu. apply Eu.
        apply existsb_exists. exists j. split; [exact Hin|].
        apply Nat.eqb_refl. }
      set (d := distance (line_idx a) room_line_idx).
      destruct (below d bd && Qlt_bool d 15) eqn:Ec.
      * apply andb_true_iff in Ec as [Eb E15]. apply Qlt_bool_iff in E15.
        assert (Hst' : best_state room_line_idx used_areas (Some d)
                         (Some (j, a))).
        { simpl. auto. }
        specialize (IH (Some d) (Some (j, a)) Hst').
        destruct (best_area_loop room_line_idx used_areas cands (Some d)
                    (Some (j, a))) as [[k info]|].
        -- destruct IH as (Hin & Hnu & Hlt & Hmin & Hbd).
           specialize (Hbd d eq_refl).
           split; [right; destruct Hin as [E|Hin];
                   [inversion E; now left|now right]|].
           split; [exact Hnu|]. split; [exact Hlt|]. split.
           ++ intros k' info' [E|Hin'] Hnu'; [|exact (Hmin _ _ Hin' Hnu')].
              inversion E; subst. exact Hbd.
           ++ intros d0 E. subst bd. simpl in Eb. apply Qlt_bool_iff in Eb.
              apply Qlt_le_weak. eapply Qle_lt_trans; eauto.
        -- destruct IH as [E _]. discriminate.
      * specialize (IH bd best Hst).
        assert (Hd : forall x, x < 15 -> (forall d0, bd = Some d0 -> x <= d0)
                               -> x <= d).
        { intros x Hx Hx0. apply andb_false_iff in Ec as [Eb|E15].
          - destruct bd as [d0|]; [|discriminate]. simpl in Eb.
            apply Qlt_bool_false in Eb.
            eapply Qle_trans; [apply (Hx0 d0 eq_refl)|exact Eb].
          - apply Qlt_bool_false in E15. apply Qlt_le_weak.
            eapply Qlt_le_trans; eauto. }
        destruct (best_area_loop room_line_idx used_areas cands bd best)
          as [[k info]|].
        -- destruct IH as (Hin & Hnu & Hlt & Hmin & Hbd).
           split; [destruct Hin; [now left|right; now right]|].
           split; [exact Hnu|]. split; [exact Hlt|]. split; [|exact Hbd].
           intros k' info' [E|Hin'] Hnu'; [|exact (Hmin _ _ Hin' Hnu')].
           inversion E; subst. apply Hd; assumption.
        -- destruct IH as (Hb & Hnone). split; [exact Hb|].
           intros k' info' [E|Hin'] Hnu'; [|exact (Hnone _ _ Hin' Hnu')].
           inversion E; subst. fold d. intros Hlt.
           apply andb_false_iff in Ec as [Eb|E15].
           ++ destruct bd as [d0|]; [|discriminate].
              simpl in Hst. destruct Hst.
           ++ apply Qlt_bool_false in E15. exact (Qlt_not_le _ _ Hlt E15).
Qed.

Lemma generic_assign_picks lines page_idx found_areas ids used_areas :
  generic_assign lines page_idx found_areas ids used_areas
  = map (pick_room lines page_idx) (generic_picks found_areas ids used_areas).
Proof.
  revert used_areas. induction ids as [|[id l] ids IH]; intros used;
    [reflexivity|].
  cbn [generic_assign generic_picks].
  destruct (best_area_loop l used (enumerate found_areas) None None)
    as [[k info]|]; [|apply IH].
  cbn [map pick_room]. now rewrite IH.
Qed.

Lemma generic_picks_app found_areas ids1 ids2 :
  forall used_areas,
    generic_picks found_areas (ids1 ++ ids2) used_areas
    = generic_picks found_areas ids1 used_areas
      ++ generic_picks found_areas ids2
           (used_after (generic_picks found_areas ids1 used_areas)
              used_areas).
Proof.
  induction ids1 as [|[id l] ids1 IH]; intros used; [reflexivity|].
  cbn [app generic_picks].
  destruct (best_area_loop l used (enumerate found_areas) None None)
    as [[k info]|]; [|apply IH].
  rewrite IH. unfold used_after. cbn [map rev pick_idx fst snd app].
  now rewrite <- app_assoc.
Qed.

Lemma generic_picks_fresh found_areas ids :
  forall used_areas,
    (forall p, In p (generic_picks found_areas ids used_areas) ->
               ~ In (pick_idx p) used_areas)
    /\ NoDup (map pick_idx (generic_picks found_areas ids used_areas)).
Proof.
  induction ids as [|[id l] ids IH]; intros used.
  - split; [intros p []|constructor].
  - cbn [generic_picks].
    pose proof (best_area_loop_spec l used (enumerate found_areas)
                  None None I) as Hs.
    destruct (best_area_loop l used (enumerate found_areas) None None)
      as [[k info]|]; [|apply IH].
    destruct Hs as (_ & Hnu & _).
    destruct (IH (k :: used)) as [Hfresh Hnd]. split.
    + intros p [<-|Hp]; [exact Hnu|].
      intros Hin. apply (Hfresh p Hp). now right.
    + cbn [map]. constructor; [|exact Hnd].
      change (pick_idx (id, l, k, info)) with k.
      intros Hin. apply in_map_iff in Hin as (p & Hk & Hp).
      apply (Hfresh p Hp). left. now symmetry.
Qed.

Lemma distance_under_15 area_line room_line :
  distance area_line room_line < 15 <->
  (room_line < area_line <= room_line + 15)%nat
  \/ (area_line <= room_line <= area_line + 14)%nat.
Proof.
  unfold distance. destruct (Nat.ltb_spec room_line area_line);
    unfold Qlt, Qminus, Qplus, Qopp, inject_Z; simpl; lia.
Qed.

Lemma enumerate_from_snoc {A} (l : list A) x a :
  combine (seq a (List.length (l ++ [x]))) (l ++ [x])
  = combine (seq a (List.length l)) l ++ [((a + List.length l)%nat, x)].
Proof.
  revert a. induction l as [|y l IH]; intros a; simpl.
  - now rewrite Nat.add_0_r.
  - rewrite IH. now rewrite Nat.add_succ_r.
Qed.

Lemma enumerate_snoc {A} (l : list A) x :
  enumerate (l ++ [x]) = enumerate l ++ [(List.length l, x)].
Proof. unfold enumerate. now rewrite enumerate_from_snoc. Qed.

Lemma generic_find_room_ids_snoc lines x :
  generic_find_room_ids (lines ++ [x])
  = record_room_id (generic_find_room_ids lines) (List.length lines, x).
Proof.
  unfold generic_find_room_ids. now rewrite enumerate_snoc, fold_left_app.
Qed.

Lemma room_id_at_old lines x i :
  (i < List.length lines)%nat ->
  room_id_at (lines ++ [x]) i = room_id_at lines i.
Proof. intros H. unfold room_id_at. now rewrite nth_error_app1. Qed.

Lemma room_id_at_new lines x :
  room_id_at (lines ++ [x]) (List.length lines)
  = option_map group1 (first_room_match FLEXIBLE_ROOM_PATTERNS (strip x)).
Proof.
  unfold room_id_at. rewrite nth_error_app2, Nat.sub_diag by lia.
  reflexivity.
Qed.

Lemma room_id_at_lt lines i id :
  room_id_at lines i = Some id -> (i < List.length lines)%nat.
Proof.
  unfold room_id_at. destruct (nth_error lines i) eqn:E; [|discriminate].
  intros _. apply nth_error_Some. congruence.
Qed.

Lemma has_key_In k d : has_key k d = true <-> In k (map fst d).
Proof.
  unfold has_key. rewrite existsb_exists, in_map_iff. split.
  - intros (kv & Hin & E). apply str_eqb_eq in E. exists kv. auto.
  - intros (kv & E & Hin). exists kv. split; [exact Hin|].
    now apply str_eqb_eq.
Qed.

Lemma StronglySorted_snoc {A} (R : A -> A -> Prop) l x :
  StronglySorted R l -> Forall (fun a => R a x) l ->
  StronglySorted R (l ++ [x]).
Proof.
  induction 1 as [|a l Hs IH Ha]; intros Hx; simpl.
  - constructor; constructor.
  - inversion Hx; subst. constructor; [now apply IH|].
    apply Forall_app. split; [exact Ha|]. now constructor.
Qed.

(** The second pass records each identifier once, at the first line that
    carries it, and keeps the identifiers in the order of these lines. *)
Lemma generic_find_room_ids_spec lines :
  NoDup (map fst (generic_find_room_ids lines))
  /\ (forall id i,
         In (id, i) (generic_find_room_ids lines) ->
         room_id_at lines i = Some id
         /\ forall j, (j < i)%nat -> room_id_at lines j <> Some id)
  /\ (forall i id,
         room_id_at lines i = Some id ->
         In id (map fst (generic_find_room_ids lines)))
  /\ StronglySorted (fun a b => (snd a < snd b)%nat)
       (generic_find_room_ids lines).
Proof.
  induction lines as [|x lines (Hnd & Hin & Hall & Hs)] using rev_ind.
  - repeat split; try constructor.
    + destruct H.
    + destruct H.
    + intros i id H. destruct i; discriminate.
  - rewrite generic_find_room_ids_snoc. unfold record_room_id.
    cbn [fst snd].
    pose proof (room_id_at_new lines x) as Hnew.
    assert (Hold : forall id i,
               In (id, i) (generic_find_room_ids lines) ->
               room_id_at (lines ++ [x]) i = Some id
               /\ forall j, (j < i)%nat ->
                            room_id_at (lines ++ [x]) j <> Some id).
    { intros id i H. destruct (Hin id i H) as [Hi Hj].
      pose proof (room_id_at_lt _ _ _ Hi) as Hlt.
      split; [now rewrite room_id_at_old|].
      intros j Hji. rewrite room_id_at_old by lia. now apply Hj. }
    assert (Hcov : forall ids' : list (str * nat),
               (forall id, In id (map fst (generic_find_room_ids lines)) ->
                           In id (map fst ids')) ->
               (forall id, room_id_at (lines ++ [x]) (List.length lines)
                           = Some id -> In id (map fst ids')) ->
               forall i id, room_id_at (lines ++ [x]) i = Some id ->
                            In id (map fst ids')).
    { intros ids' Hmono Hlast i id H.
      pose proof (room_id_at_lt _ _ _ H) as Hlt.
      rewrite length_app in Hlt. cbn in Hlt.
      destruct (Nat.eq_dec i (List.length lines)) as [->|Hne]; [auto|].
      apply Hmono, (Hall i). rewrite <- H. symmetry.
      apply room_id_at_old. lia. }
    destruct (first_room_match FLEXIBLE_ROOM_PATTERNS (strip x)) as [m|].
    + cbn [option_map] in Hnew.
      destruct (has_key (group1 m) (generic_find_room_ids lines)) eqn:Hk.
      * apply has_key_In in Hk.
        split; [exact Hnd|]. split; [exact Hold|]. split; [|exact Hs].
        apply Hcov; [auto|]. intros id E. congruence.
      * assert (Hfresh : ~ In (group1 m)
                             (map fst (generic_find_room_ids lines))).
        { intros H. apply has_key_In in H. congruence. }
        split; [|split; [|split]].
        -- rewrite map_app. cbn [map fst].
           apply NoDup_app; [exact Hnd|repeat constructor; intros []|].
           intros id H1 [<-|[]]. contradiction.
        -- intros id i H. apply in_app_or in H as [H|[E|[]]];
             [now apply Hold|].
           inversion E; subst. split; [exact Hnew|].
           intros j Hj E'. rewrite room_id_at_old in E' by exact Hj.
           exact (Hfresh (Hall _ _ E')).
        -- apply Hcov.
           ++ intros id H. rewrite map_app. apply in_or_app. now left.
           ++ intros id E. rewrite map_app. apply in_or_app. right.
              left. cbn. congruence.
        -- apply StronglySorted_snoc; [exact Hs|].
           apply Forall_forall. intros [id i] H. cbn.
           destruct (Hin id i H) as [Hi _].
           exact (room_id_at_lt _ _ _ Hi).
    + cbn [option_map] in Hnew.
      split; [exact Hnd|]. split; [exact Hold|]. split; [|exact Hs].
      apply Hcov; [auto|]. intros id E. congruence.
Qed.

(** An area exactly 15 lines after the identifier is assigned. *)
Lemma area_fifteen_lines_after_is_assigned :
  exists r,
    extract_generic
      (text_lines ["A.001"]%string ++ repeat (u "x") 14
         ++ text_lines ["F: 20,00 m²"]%string) 0 = OK [r]
    /\ room_number r = u "A.001" /\ area_m2 r = 20
    /\ nth 0 (text_lines ["A.001"]%string ++ repeat (u "x") 14
                ++ text_lines ["F: 20,00 m²"]%string) [] = room_number r
    /\ nth 15 (text_lines ["A.001"]%string ++ repeat (u "x") 14
                 ++ text_lines ["F: 20,00 m²"]%string) [] = source_text r
    /\ ~ (15 - 0 < 15)%nat.
Proof.
  eexists. split; [vm_compute; reflexivity|].
  repeat split. lia.
Qed.

(** C6 (amended).  The generic extractor records each identifier at the
    first line that carries it and serves the identifiers in the order of
    these lines; each takes the not-yet-used area of least
    distance, where the distance is the line-index distance less 0.5 for
    an area after the identifier; an area is eligible when this distance
    is under 15, that is at most 15 lines after or at most 14 lines
    before the identifier; an assigned area is never assigned again, even
    to a later identifier that is closer to it. *)
Theorem generic_greedy_assignment :
  forall lines page_idx found_areas ids1 room_id room_line_idx ids2,
    generic_assign lines page_idx found_areas
      (ids1 ++ (room_id, room_line_idx) :: ids2) []
    = map (pick_room lines page_idx) (generic_picks found_areas ids1 [])
      ++ match choice_after found_areas ids1 room_line_idx with
         | Some (k, info) =>
             generic_room lines page_idx room_id room_line_idx info
               :: generic_assign lines page_idx found_areas ids2
                    (k :: used_after (generic_picks found_areas ids1 []) [])
         | None =>
             generic_assign lines page_idx found_areas ids2
               (used_after (generic_picks found_areas ids1 []) [])
         end
    /\ match choice_after found_areas ids1 room_line_idx with
       | Some (k, info) =>
           nth_error found_areas k = Some info
           /\ ~ In k (map pick_idx (generic_picks found_areas ids1 []))
           /\ distance (line_idx info) room_line_idx < 15
           /\ forall k' info',
                nth_error found_areas k' = Some info' ->
                ~ In k' (map pick_idx (generic_picks found_areas ids1 [])) ->
                distance (line_idx info) room_line_idx
                <= distance (line_idx info') room_line_idx
       | None =>
           forall k' info',
             nth_error found_areas k' = Some info' ->
             ~ In k' (map pick_idx (generic_picks found_areas ids1 [])) ->
             ~ distance (line_idx info') room_line_idx < 15
       end
    /\ NoDup (map pick_idx
                (generic_picks found_areas
                   (ids1 ++ (room_id, room_line_idx) :: ids2) []))
    /\ (forall area_line room_line,
           distance area_line room_line < 15 <->
           (room_line < area_line <= room_line + 15)%nat
           \/ (area_line <= room_line <= area_line + 14)%nat)
    /\ extract_generic lines page_idx
       = OK (generic_assign lines page_idx (generic_find_areas lines)
               (generic_find_room_ids lines) [])
    /\ (NoDup (map fst (generic_find_room_ids lines))
        /\ (forall id i,
               In (id, i) (generic_find_room_ids lines) ->
               room_id_at lines i = Some id
               /\ forall j, (j < i)%nat -> room_id_at lines j <> Some id)
        /\ StronglySorted (fun a b => (snd a < snd b)%nat)
             (generic_find_room_ids lines))
    /\ extract_generic
         (text_lines ["A.001"; "Wohnen"; "B.002"; "F: 20,00 m²"]%string) 0
       = OK [mkRoom (u "A.001") (u "Wohnen") 20 20 1 0 (u "F: 20,00 m²")
               None RESIDENTIAL None None None (u "generic")].
Proof.
  intros lines page_idx found_areas ids1 room_id l ids2.
  assert (Hused : forall k,
             In k (used_after (generic_picks found_areas ids1 []) []) <->
             In k (map pick_idx (generic_picks found_areas ids1 []))).
  { intros k. unfold used_after. rewrite app_nil_r. symmetry. apply in_rev. }
  split; [|split; [|split; [|split; [|split; [|split; [|reflexivity]]]]]].
  - rewrite generic_assign_picks, generic_picks_app, map_app.
    f_equal. cbn [generic_picks]. unfold choice_after.
    destruct (best_area_loop l
                (used_after (generic_picks found_areas ids1 []) [])
                (enumerate found_areas) None None) as [[k info]|].
    + cbn [map pick_room]. now rewrite generic_assign_picks.
    + now rewrite generic_assign_picks.
  - unfold choice_after.
    pose proof (best_area_loop_spec l
                  (used_after (generic_picks found_areas ids1 []) [])
                  (enumerate found_areas) None None I) as Hs.
    destruct (best_area_loop l
                (used_after (generic_picks found_areas ids1 []) [])
                (enumerate found_areas) None None) as [[k info]|].
    + destruct Hs as (Hin & Hnu & Hlt & Hmin & _).
      destruct Hin as [Hin|Hin]; [discriminate|].
      split; [now apply enumerate_In|].
      split; [now rewrite <- Hused|]. split; [exact Hlt|].
      intros k' info' Hn Hnu'. apply (Hmin k' info').
      * now apply enumerate_In.
      * now rewrite Hused.
    + destruct Hs as (_ & Hnone). intros k' info' Hn Hnu'.
      apply (Hnone k' info').
      * now apply enumerate_In.
      * now rewrite Hused.
  - apply generic_picks_fresh.
  - apply distance_under_15.
  - reflexivity.
  - destruct (generic_find_room_ids_spec lines) as (H1 & H2 & _ & H4).
    auto.
Qed.

(** ** Totals *)

Lemma fold_left_Qplus xs : forall a, fold_left Qplus xs a == a + sum_list xs.
Proof.
  induction xs as [|x xs IH]; intros a; simpl.
  - ring.
  - rewrite IH. ring.
Qed.

Lemma py_sum_sum_list xs : py_sum xs == sum_list xs.
Proof. unfold py_sum. rewrite fold_left_Qplus. ring. Qed.

Lemma round_half_even_comp x y :
  x == y -> round_half_even x = round_half_even y.
Proof.
  intros H. unfold round_half_even.
  assert (Hf : Qfloor x = Qfloor y) by now rewrite H.
  rewrite Hf.
  assert (Hc : Qcompare (x - inject_Z (Qfloor y)) (1 # 2)
               = Qcompare (y - inject_Z (Qfloor y)) (1 # 2))
    by now rewrite H.
  now rewrite Hc.
Qed.

Lemma round2_comp x y : x == y -> round2 x = round2 y.
Proof.
  intros H. unfold round2.
  rewrite (round_half_even_comp (x * 100) (y * 100)); [reflexivity|].
  now rewrite H.
Qed.

Lemma cat_eqb_eq a b : cat_eqb a b = true <-> a = b.
Proof.
  unfold cat_eqb. destruct (RoomCategory_eq_dec a b); split; congruence.
Qed.

Lemma cat_eqb_refl a : cat_eqb a a = true.
Proof. now apply cat_eqb_eq. Qed.

Lemma cat_eqb_neq a b : a <> b -> cat_eqb a b = false.
Proof.
  intros H. destruct (cat_eqb a b) eqn:E; [|reflexivity].
  apply cat_eqb_eq in E. contradiction.
Qed.

Lemma dict_get_add d k x c :
  dict_get (dict_add d k x) c
  = if cat_eqb k c then Some (get_or_0 d k + x) else dict_get d c.
Proof.
  unfold get_or_0. induction d as [|[k' v'] d IH]; cbn [dict_add dict_get].
  - reflexivity.
  - destruct (RoomCategory_eq_dec k' k) as [->|Hne].
    + rewrite cat_eqb_refl. cbn [dict_get].
      destruct (cat_eqb k c); reflexivity.
    + rewrite (cat_eqb_neq _ _ Hne). cbn [dict_get]. rewrite IH.
      destruct (RoomCategory_eq_dec k c) as [->|Hkc].
      * rewrite cat_eqb_refl, (cat_eqb_neq _ _ Hne). reflexivity.
      * rewrite (cat_eqb_neq _ _ Hkc). reflexivity.
Qed.

Lemma dict_add_keys d k x c :
  In c (map fst (dict_add d k x)) <-> c = k \/ In c (map fst d).
Proof.
  induction d as [|[k' v'] d IH]; cbn [dict_add].
  - simpl. split; [intros [<-|[]]; auto|intros [->|[]]; auto].
  - destruct (RoomCategory_eq_dec k' k) as [->|Hne].
    + rewrite cat_eqb_refl. simpl. split; [auto|].
      intros [->|H]; auto.
    + rewrite (cat_eqb_neq _ _ Hne). cbn [map fst In]. rewrite IH. tauto.
Qed.

Lemma dict_add_NoDup d k x :
  NoDup (map fst d) -> NoDup (map fst (dict_add d k x)).
Proof.
  induction d as [|[k' v'] d IH]; cbn [dict_add]; intros H.
  - simpl. constructor; [intros []|constructor].
  - destruct (RoomCategory_eq_dec k' k) as [->|Hne].
    + rewrite cat_eqb_refl. exact H.
    + rewrite (cat_eqb_neq _ _ Hne). cbn [map fst] in *.
      inversion H; subst. constructor; [|now apply IH].
      rewrite dict_add_keys. intros [E|Hin]; [congruence|contradiction].
Qed.

Lemma dict_get_In d c v :
  NoDup (map fst d) -> In (c, v) d -> dict_get d c = Some v.
Proof.
  induction d as [|[k' v'] d IH]; [intros _ []|].
  cbn [map fst dict_get]. intros Hnd [E|Hin].
  - inversion E; subst. now rewrite cat_eqb_refl.
  - inversion Hnd; subst.
    destruct (RoomCategory_eq_dec k' c) as [->|Hne].
    + exfalso. apply H1. apply in_map_iff. exists (c, v). auto.
    + rewrite (cat_eqb_neq _ _ Hne). auto.
Qed.

Lemma dict_add_total d k x :
  sum_list (map snd (dict_add d k x)) == sum_list (map snd d) + x.
Proof.
  induction d as [|[k' v'] d IH]; cbn [dict_add].
  - simpl. ring.
  - destruct (cat_eqb k' k); simpl.
    + ring.
    + rewrite IH. ring.
Qed.

Lemma sum_cat_cons c r rooms :
  sum_cat c (r :: rooms)
  = if cat_eqb (category r) c then counted_m2 r + sum_cat c rooms
    else sum_cat c rooms.
Proof.
  unfold sum_cat. cbn [filter]. destruct (cat_eqb (category r) c); reflexivity.
Qed.

Lemma fold_add_room_get rooms c :
  forall d,
    match dict_get (fold_left add_room rooms d) c with
    | Some v =>
        v == get_or_0 d c + sum_cat c rooms
        /\ (dict_get d c = None -> exists r, In r rooms /\ category r = c)
    | None =>
        dict_get d c = None /\ forall r, In r rooms -> category r <> c
    end.
Proof.
  induction rooms as [|r rooms IH]; intros d; cbn [fold_left].
  - unfold get_or_0. destruct (dict_get d c) as [v|].
    + split; [unfold sum_cat; simpl; ring|discriminate].
    + split; [reflexivity|intros r []].
  - specialize (IH (add_room d r)).
    pose proof (dict_get_add d (category r) (counted_m2 r) c) as Hget.
    fold (add_room d r) in Hget. rewrite sum_cat_cons.
    destruct (dict_get (fold_left add_room rooms (add_room d r)) c) as [v|].
    + destruct IH as [Hv Hex].
      destruct (RoomCategory_eq_dec (category r) c) as [E|Hne].
      * rewrite E in *. rewrite cat_eqb_refl in *.
        unfold get_or_0 in *. rewrite Hget in Hv.
        split; [rewrite Hv; ring|].
        intros _. exists r. split; [now left|exact E].
      * rewrite (cat_eqb_neq _ _ Hne) in *.
        unfold get_or_0 in *. rewrite Hget in Hv, Hex.
        split; [exact Hv|].
        intros Hd. destruct (Hex Hd) as (r' & ? & ?). exists r'.
        split; [now right|assumption].
    + destruct IH as [Hd Hall]. rewrite Hget in Hd.
      destruct (RoomCategory_eq_dec (category r) c) as [E|Hne].
      * rewrite E, cat_eqb_refl in Hd. discriminate.
      * rewrite (cat_eqb_neq _ _ Hne) in Hd. split; [exact Hd|].
        intros r' [<-|Hin]; auto.
Qed.

Lemma fold_add_room_NoDup rooms :
  forall d, NoDup (map fst d) ->
            NoDup (map fst (fold_left add_room rooms d)).
Proof.
  induction rooms as [|r rooms IH]; intros d H; [exact H|].
  cbn [fold_left]. apply IH. now apply dict_add_NoDup.
Qed.

Lemma fold_add_room_total rooms :
  forall d,
    sum_list (map snd (fold_left add_room rooms d))
    == sum_list (map snd d) + sum_list (map counted_m2 rooms).
Proof.
  induction rooms as [|r rooms IH]; intros d; cbn [fold_left].
  - simpl. ring.
  - rewrite IH. unfold add_room. rewrite dict_add_total. simpl. ring.
Qed.

Lemma rounded_sum_error vs :
  - (inject_Z (Z.of_nat (List.length vs)) * (1 # 200))
    <= sum_list (map round2 vs) - sum_list vs
  /\ sum_list (map round2 vs) - sum_list vs
     <= inject_Z (Z.of_nat (List.length vs)) * (1 # 200).
Proof.
  induction vs as [|v vs [IHlo IHhi]].
  - split; vm_compute; discriminate.
  - cbn [map sum_list fold_right List.length].
    fold (sum_list (map round2 vs)). fold (sum_list vs).
    rewrite Nat2Z.inj_succ, <- Z.add_1_r, inject_Z_plus.
    change (inject_Z 1) with 1.
    destruct (round2_error v) as [Hlo Hhi]. split; lra.
Qed.

Lemma category_sums_fold rooms :
  category_sums rooms = fold_left add_room rooms [].
Proof. reflexivity. Qed.

(** What the result record holds after a successful run. *)
Lemma extract_room_areas_OK doc style pages res :
  extract_room_areas doc style pages = OK res ->
  total_area_m2 res = round2 (py_sum (map area_m2 (rooms res)))
  /\ total_counted_m2 res = round2 (py_sum (map counted_m2 (rooms res)))
  /\ totals_by_category res
     = map (fun kv => (fst kv, round2 (snd kv))) (category_sums (rooms res))
  /\ room_count res = List.length (rooms res).
Proof.
  unfold extract_room_areas.
  destruct (dispatch match style with
                     | Some s => s
                     | None => detect_blueprint_style (concat doc)
                     end) as [f|];
    intros H; apply bind_OK in H as (a & _ & H); inversion H; subst;
    cbn; auto.
Qed.

(** C8.  On every result of the orchestrator the two totals are the sums
    of the rooms' area_m2 and counted_m2 rounded to two decimals: each is
    a number of hundredths at most 0.005 away from its sum, whichever
    neighbour the rounding takes at an exact half.  The category table
    has one entry for each category that occurs, holding the sum of
    counted_m2 over that category's rooms rounded in the same way; and
    the sum of the table's values differs from total_counted_m2 by at
    most 0.005 for each entry plus 0.005, hence by at most 0.06. *)
Theorem totals_are_rounded_sums : forall doc style pages res,
  extract_room_areas doc style pages = OK res ->
  (two_decimals (total_area_m2 res)
   /\ Qabs (total_area_m2 res - sum_list (map area_m2 (rooms res)))
      <= 1 # 200)
  /\ (two_decimals (total_counted_m2 res)
      /\ Qabs (total_counted_m2 res - sum_list (map counted_m2 (rooms res)))
         <= 1 # 200)
  /\ (forall c v,
        In (c, v) (totals_by_category res) ->
        two_decimals v
        /\ Qabs (v - sum_cat c (rooms res)) <= 1 # 200
        /\ exists r, In r (rooms res) /\ category r = c)
  /\ (forall r, In r (rooms res) ->
                In (category r) (map fst (totals_by_category res)))
  /\ NoDup (map fst (totals_by_category res))
  /\ Qabs (sum_list (map snd (totals_by_category res))
           - total_counted_m2 res)
     <= (inject_Z (Z.of_nat (List.length (totals_by_category res))) + 1)
        * (1 # 200)
  /\ (List.length (totals_by_category res) <= 11)%nat.
Proof.
  intros doc style pages res H.
  apply extract_room_areas_OK in H as (Ha & Hc & Ht & _).
  set (rs := rooms res) in *.
  assert (Hnd : NoDup (map fst (category_sums rs))).
  { rewrite category_sums_fold. apply fold_add_room_NoDup. constructor. }
  assert (Hkeys : map fst (totals_by_category res)
                  = map fst (category_sums rs)).
  { rewrite Ht, map_map. reflexivity. }
  split.
  { rewrite Ha. split; [apply round2_two_decimals|].
    rewrite <- (py_sum_sum_list (map area_m2 rs)). apply round2_near. }
  split.
  { rewrite Hc. split; [apply round2_two_decimals|].
    rewrite <- (py_sum_sum_list (map counted_m2 rs)). apply round2_near. }
  split; [|split; [|split; [|split]]].
  - intros c v Hin. rewrite Ht in Hin.
    apply in_map_iff in Hin as ([c' v0] & E & Hin). cbn in E.
    inversion E; subst c' v; clear E.
    pose proof (dict_get_In _ _ _ Hnd Hin) as Hg.
    pose proof (fold_add_room_get rs c []) as Hf.
    rewrite <- category_sums_fold, Hg in Hf. destruct Hf as [Hv Hex].
    split; [apply round2_two_decimals|]. split; [|now apply Hex].
    assert (E : sum_cat c rs == v0).
    { rewrite Hv. unfold get_or_0. simpl. ring. }
    rewrite E. apply round2_near.
  - intros r Hin. rewrite Hkeys.
    pose proof (fold_add_room_get rs (category r) []) as Hf.
    rewrite <- category_sums_fold in Hf.
    destruct (dict_get (category_sums rs) (category r)) as [v|] eqn:Hg.
    + clear Hf. revert Hg. generalize (category_sums rs) as d.
      induction d as [|[k w] d IH]; cbn [dict_get]; [discriminate|].
      destruct (cat_eqb k (category r)) eqn:E.
      * apply cat_eqb_eq in E. intros _. left. exact E.
      * intros Hg. right. now apply IH.
    + destruct Hf as [_ Hall]. exfalso. exact (Hall r Hin eq_refl).
  - now rewrite Hkeys.
  - rewrite Hc, Ht, !map_map, length_map. cbn [snd].
    rewrite <- (map_map snd round2).
    destruct (rounded_sum_error (map snd (category_sums rs))) as [Hlo Hhi].
    rewrite length_map in Hlo, Hhi.
    pose proof (fold_add_room_total rs []) as Htot.
    rewrite <- category_sums_fold in Htot. simpl in Htot.
    pose proof (py_sum_sum_list (map counted_m2 rs)) as Hpy.
    destruct (round2_error (py_sum (map counted_m2 rs))) as [Rlo Rhi].
    apply Qabs_Qle_condition. split; lra.
  - rewrite <- (length_map fst), Hkeys.
    change 11%nat with (List.length all_categories).
    apply NoDup_incl_length; [exact Hnd|].
    intros c _. destruct c; simpl; tauto.
Qed.

Lemma totals_are_rounded_sums_witness :
  sum_list (map area_m2 (rooms rounding_example_result)) == 16.847
  /\ total_area_m2 rounding_example_result = Qred 16.85
  /\ totals_by_category rounding_example_result
     = [(RESIDENTIAL, Qred 12.35); (SANITARY, Qred 4.5)]
  /\ two_decimals (total_area_m2 rounding_example_result)
  /\ Qabs (total_area_m2 rounding_example_result
           - sum_list (map area_m2 (rooms rounding_example_result)))
     <= 1 # 200.
Proof.
  split; [reflexivity|]. split; [reflexivity|]. split; [reflexivity|].
  apply (totals_are_rounded_sums rounding_example_doc None None
           rounding_example_result).
  vm_compute. reflexivity.
Defined.

(* ================================================================== *)
(** * Further properties *)
(* ================================================================== *)

(** ** Room categories *)

Lemma existsb_keyword name keywords :
  existsb (fun keyword => py_in keyword (lower name)) keywords = true
  <-> keyword_in name keywords.
Proof.
  rewrite existsb_exists. unfold keyword_in.
  split; intros (k & Hk & H); exists k; split; auto; now apply py_in_spec.
Qed.

Lemma categorize_in_first name table c :
  ~ In OTHER (map fst table) ->
  (categorize_in (lower name) table = c /\ c <> OTHER
   <-> exists pre keywords post,
         table = pre ++ (c, keywords) :: post
         /\ keyword_in name keywords
         /\ forall c' keywords',
              In (c', keywords') pre -> ~ keyword_in name keywords').
Proof.
  induction table as [|[k kws] table IH]; intros Hno.
  - cbn. split.
    + intros [<- H]. now destruct H.
    + intros ([|? ?] & ? & ? & E & _); discriminate.
  - cbn [categorize_in].
    assert (Hno' : ~ In OTHER (map fst table)).
    { intros H. apply Hno. now right. }
    assert (Hk : k <> OTHER).
    { intros ->. apply Hno. now left. }
    destruct (existsb (fun keyword => py_in keyword (lower name)) kws) eqn:E.
    + apply existsb_keyword in E. split.
      * intros [<- _]. exists [], kws, table.
        split; [reflexivity|]. split; [exact E|]. intros ? ? [].
      * intros ([|[k' kws'] pre] & keywords & post & Eq & Hkw & Hpre).
        -- inversion Eq; subst. auto.
        -- inversion Eq; subst. exfalso.
           apply (Hpre k' kws'); [now left|exact E].
    + assert (Hnot : ~ keyword_in name kws).
      { intros H. apply existsb_keyword in H. congruence. }
      rewrite (IH Hno'). split.
      * intros (pre & keywords & post & -> & Hkw & Hpre).
        exists ((k, kws) :: pre), keywords, post. repeat split; auto.
        intros c' kws' [Eq|Hin]; [inversion Eq; subst; exact Hnot|].
        exact (Hpre _ _ Hin).
      * intros ([|[k' kws'] pre] & keywords & post & Eq & Hkw & Hpre).
        -- inversion Eq; subst. contradiction.
        -- inversion Eq; subst. exists pre, keywords, post.
           repeat split; auto.
           intros c' kws'' Hin. apply (Hpre c' kws''). now right.
Qed.

Lemma ROOM_CATEGORIES_no_other : ~ In OTHER (map fst ROOM_CATEGORIES).
Proof. cbn. intuition discriminate. Qed.

(** X1.  [categorize_room] returns the first category of the table, in
    table order, one of whose keywords occurs in the lower-cased name: a
    keyword of a later category is shadowed by any keyword of an earlier
    one. *)
Theorem categorize_room_first_match : forall room_name c,
  categorize_room room_name = c /\ c <> OTHER
  <-> exists pre keywords post,
        ROOM_CATEGORIES = pre ++ (c, keywords) :: post
        /\ keyword_in room_name keywords
        /\ forall c' keywords',
             In (c', keywords') pre -> ~ keyword_in room_name keywords'.
Proof.
  intros room_name c. unfold categorize_room.
  apply categorize_in_first, ROOM_CATEGORIES_no_other.
Qed.

(** X2.  [categorize_room] returns "other" exactly when no keyword of any
    category occurs in the lower-cased name. *)
Theorem categorize_room_other_iff : forall room_name,
  categorize_room room_name = OTHER
  <-> forall c keywords,
        In (c, keywords) ROOM_CATEGORIES -> ~ keyword_in room_name keywords.
Proof.
  intros room_name. split.
  - intros H c keywords Hin Hkw.
    apply in_split in Hin as (pre & post & E).
    (* take the first entry of the table with a keyword in the name *)
    assert (Hex : exists c0, categorize_room room_name = c0 /\ c0 <> OTHER).
    { unfold categorize_room. clear H.
      pose proof ROOM_CATEGORIES_no_other as Hno. rewrite E in *. clear E.
      induction pre as [|[k kws] pre IH]; cbn [app categorize_in].
      - apply existsb_keyword in Hkw. rewrite Hkw. exists c. split; auto.
        intros ->. apply Hno. cbn. now left.
      - destruct (existsb (fun keyword => py_in keyword (lower room_name)) kws).
        + exists k. split; auto. intros ->. apply Hno. now left.
        + apply IH. intros Hin. apply Hno. now right. }
    destruct Hex as (c0 & Hc0 & Hne). congruence.
  - intros H. destruct (RoomCategory_eq_dec (categorize_room room_name) OTHER)
      as [E|Hne]; [exact E|].
    exfalso.
    destruct (proj1 (categorize_in_first room_name ROOM_CATEGORIES
                       (categorize_room room_name) ROOM_CATEGORIES_no_other)
                (conj eq_refl Hne))
      as (pre & keywords & post & E & Hkw & _).
    apply (H (categorize_room room_name) keywords); [|exact Hkw].
    rewrite E. apply in_or_app. right. now left.
Qed.

(** ** Numeric tokens *)

Lemma token_char_not_space c : token_char c = true -> is_space c = false.
Proof.
  unfold token_char, is_digit. intros H.
  assert (Hc : (48 <= c <= 57)%N \/ c = ch "." \/ c = ch ",").
  { apply orb_true_iff in H as [H|H];
      [apply orb_true_iff in H as [H|H]|].
    - apply andb_true_iff in H as [H1 H2].
      apply N.leb_le in H1, H2. left. lia.
    - apply N.eqb_eq in H. auto.
    - apply N.eqb_eq in H. auto. }
  destruct Hc as [Hc|[->| ->]]; [|reflexivity|reflexivity].
  assert (E : (c = 48 \/ c = 49 \/ c = 50 \/ c = 51 \/ c = 52 \/ c = 53
               \/ c = 54 \/ c = 55 \/ c = 56 \/ c = 57)%N) by lia.
  repeat (destruct E as [->|E]; [reflexivity|]). subst. reflexivity.
Qed.

Lemma lstrip_id s :
  match s with c :: _ => is_space c = false | [] => True end ->
  lstrip s = s.
Proof. destruct s as [|c s]; cbn; [reflexivity|]. now intros ->. Qed.

Lemma strip_token s : is_token s -> strip s = s.
Proof.
  intros H. unfold strip, rstrip.
  assert (Hl : lstrip s = s).
  { apply lstrip_id. destruct H as [|c s Hc _]; [exact I|].
    now apply token_char_not_space. }
  rewrite Hl.
  assert (Hr : lstrip (rev s) = rev s).
  { apply lstrip_id. apply Forall_rev in H.
    destruct H as [|c t Hc _]; [exact I|]. now apply token_char_not_space. }
  rewrite Hr. apply rev_involutive.
Qed.

Lemma replace_cons a b c s :
  replace a b (c :: s) = (if (c =? a)%N then b else [c]) ++ replace a b s.
Proof. reflexivity. Qed.

Lemma replace_period_token s : is_token s -> is_token (replace (ch ".") [] s).
Proof.
  induction 1 as [|c s Hc _ IH]; [constructor|].
  rewrite replace_cons.
  destruct (c =? ch ".")%N; [exact IH|]. now constructor.
Qed.

Lemma replace_period_gone s : has_char (ch ".") (replace (ch ".") [] s) = false.
Proof.
  induction s as [|c s IH]; [reflexivity|].
  rewrite replace_cons.
  destruct (N.eqb_spec c (ch ".")) as [->|Hne]; [exact IH|].
  cbn [app has_char existsb]. fold (has_char (ch ".") (replace (ch ".") [] s)).
  rewrite IH, orb_false_r. apply N.eqb_neq. congruence.
Qed.

Lemma replace_period_keeps_comma s :
  has_char (ch ",") (replace (ch ".") [] s) = has_char (ch ",") s.
Proof.
  induction s as [|c s IH]; [reflexivity|].
  rewrite replace_cons.
  destruct (N.eqb_spec c (ch ".")) as [->|Hne].
  - cbn [app]. rewrite IH. reflexivity.
  - cbn [app has_char existsb].
    fold (has_char (ch ",") (replace (ch ".") [] s)).
    fold (has_char (ch ",") s). now rewrite IH.
Qed.

(** X3.  In a token that contains a comma the periods carry no value:
    the token parses as it does with its periods removed (so "1.070,55"
    and "1070,55" give the same result, also when that is an error). *)
Theorem parse_german_number_ignores_periods : forall s,
  is_token s -> has_char (ch ",") s = true ->
  parse_german_number s = parse_german_number (replace (ch ".") [] s).
Proof.
  intros s Ht Hc. unfold parse_german_number.
  rewrite (strip_token _ Ht), (strip_token _ (replace_period_token _ Ht)).
  rewrite replace_period_gone, replace_period_keeps_comma, Hc.
  cbn [andb]. rewrite andb_true_r.
  destruct (has_char (ch ".") s) eqn:Hp; [reflexivity|].
  now rewrite (replace_absent _ _ _ Hp).
Qed.

Lemma parse_german_number_ignores_periods_witness :
  parse_german_number (u "1.070,55")
  = parse_german_number (replace (ch ".") [] (u "1.070,55")).
Proof.
  apply parse_german_number_ignores_periods.
  - repeat constructor.
  - reflexivity.
Defined.

Lemma digits_value_nonneg ds :
  all_digits ds -> forall acc, (0 <= acc)%Z ->
  (0 <= fold_left (fun a c => (a * 10 + (Z.of_N c - 48))%Z) ds acc)%Z.
Proof.
  induction 1 as [|c ds Hc _ IH]; intros acc Hacc; cbn; [exact Hacc|].
  apply IH. unfold is_digit in Hc. apply andb_true_iff in Hc as [H1 H2].
  apply N.leb_le in H1. lia.
Qed.

Lemma decimal_nonneg ip fp :
  all_digits ip -> all_digits fp -> 0 <= decimal ip fp.
Proof.
  intros Hi Hf. unfold decimal. rewrite Qred_correct.
  unfold Qle. cbn. rewrite Z.mul_1_r.
  apply digits_value_nonneg; [|lia]. apply Forall_app. auto.
Qed.

Lemma py_float_nonneg s q : py_float s = OK q -> 0 <= q.
Proof.
  unfold py_float.
  destruct (take_digits_split s) as (Hd & _ & _).
  destruct (take_digits s) as [ip r1]. cbn in Hd.
  destruct r1 as [|c r2].
  - destruct ip; [discriminate|]. intros H. inversion H; subst.
    apply decimal_nonneg; [exact Hd|constructor].
  - destruct (c =? ch ".")%N; [|discriminate].
    destruct (take_digits_split r2) as (Hd2 & _ & _).
    destruct (take_digits r2) as [fp r3]. cbn in Hd2.
    destruct r3; [|discriminate]. destruct (ip ++ fp); [discriminate|].
    intros H. inversion H; subst. now apply decimal_nonneg.
Qed.

(** X4.  A token of digits, periods and commas, which is all that the
    patterns capture and [float] is modelled on, never parses to a
    negative number. *)
Theorem parse_german_number_nonneg : forall s q,
  is_token s -> parse_german_number s = OK q -> 0 <= q.
Proof.
  intros s q _ H. unfold parse_german_number in H.
  exact (py_float_nonneg _ _ H).
Qed.

Lemma parse_german_number_nonneg_witness : 0 <= Qred 22.79.
Proof.
  apply (parse_german_number_nonneg (u "22,79")).
  - repeat constructor.
  - reflexivity.
Defined.

(** ** Pages without anchors *)

Lemma collect_none body idxs :
  (forall i, In i idxs -> body i = OK None) -> collect body idxs = OK [].
Proof.
  induction idxs as [|i idxs IH]; intros H; [reflexivity|].
  cbn. rewrite (H i (or_introl eq_refl)). cbn.
  rewrite IH; [reflexivity|]. intros j Hj. apply H. now right.
Qed.

Lemma haardtring_at_no_anchor lines page_idx i :
  anchor_id fn_haardtring (line_at lines i) = None ->
  haardtring_at lines page_idx i = OK None.
Proof.
  unfold anchor_id, haardtring_at.
  now destruct (first_match false haardtring_room_patterns (line_at lines i)).
Qed.

Lemma leiq_at_no_anchor lines page_idx i :
  anchor_id fn_leiq (line_at lines i) = None ->
  leiq_at lines page_idx i = OK None.
Proof.
  unfold anchor_id, leiq_at.
  now destruct (re_match false leiq_room_pattern (line_at lines i)).
Qed.

Lemma omniturm_at_no_anchor lines page_idx processed i :
  anchor_id fn_omniturm (line_at lines i) = None ->
  omniturm_at lines page_idx processed i = OK None.
Proof.
  unfold anchor_id, omniturm_at.
  now destruct (matches false omniturm_room_pattern (line_at lines i)).
Qed.

Lemma omniturm_loop_none lines page_idx idxs rooms processed :
  (forall i, In i idxs -> anchor_id fn_omniturm (line_at lines i) = None) ->
  omniturm_loop lines page_idx idxs rooms processed = OK rooms.
Proof.
  induction idxs as [|i idxs IH]; intros H; [reflexivity|].
  cbn. rewrite omniturm_at_no_anchor by (apply H; now left). cbn.
  apply IH. intros j Hj. apply H. now right.
Qed.

Lemma no_room_ids lines :
  (forall i, (i < List.length lines)%nat -> room_id_at lines i = None) ->
  generic_find_room_ids lines = [].
Proof.
  intros H. destruct (generic_find_room_ids_spec lines) as (_ & Hin & _).
  destruct (generic_find_room_ids lines) as [|[id i] ids]; [reflexivity|].
  destruct (Hin id i (or_introl eq_refl)) as [Hi _].
  rewrite (H i (room_id_at_lt _ _ _ Hi)) in Hi. discriminate.
Qed.

(** X5.  A page none of whose lines is an anchor for the extractor yields
    no rooms and raises no error, whatever else it contains; in
    particular an empty page. *)
Theorem no_anchor_no_rooms : forall f lines page_idx,
  (forall i, (i < List.length lines)%nat -> page_anchor f lines i = None) ->
  call f lines page_idx = OK [].
Proof.
  intros f lines page_idx H. destruct f; cbn [call page_anchor] in *.
  - apply collect_none. intros i Hi. apply py_range_In in Hi.
    apply haardtring_at_no_anchor, H. lia.
  - apply collect_none. intros i Hi. apply py_range_In in Hi.
    apply leiq_at_no_anchor, H. lia.
  - apply omniturm_loop_none. intros i Hi. apply py_range_In in Hi.
    apply H. lia.
  - unfold extract_generic. now rewrite (no_room_ids _ H).
Qed.

Lemma no_anchor_no_rooms_witness :
  call fn_leiq (text_lines ["Grundriss"; "NRF: 12,34,56 m2"]%string) 0
  = OK [].
Proof.
  apply no_anchor_no_rooms.
  intros i Hi. cbn in Hi.
  destruct i as [|[|i]]; [reflexivity|reflexivity|lia].
Defined.

(** ** How many rooms a page yields *)

Lemma is_some_false {A} (x : option A) : is_some x = false -> x = None.
Proof. now destruct x. Qed.

Lemma py_range_0 n : py_range 0 n = seq 0 n.
Proof. unfold py_range. now rewrite Nat.sub_0_r. Qed.

Lemma collect_length body idxs rooms (P : nat -> bool) :
  collect body idxs = OK rooms ->
  (forall i, In i idxs -> P i = false -> body i = OK None) ->
  (List.length rooms <= List.length (filter P idxs))%nat.
Proof.
  revert rooms.
  induction idxs as [|i idxs IH]; cbn [collect]; intros rooms H Hn.
  - inversion H. cbn. lia.
  - apply bind_OK in H as (o & Ho & H).
    apply bind_OK in H as (rest & Hrest & H). inversion H; subst; clear H.
    pose proof (IH _ Hrest (fun j Hj => Hn j (or_intror Hj))) as IH'.
    cbn [filter]. destruct (P i) eqn:E.
    + destruct o; cbn [List.length]; lia.
    + rewrite (Hn i (or_introl eq_refl) E) in Ho. inversion Ho; subst.
      exact IH'.
Qed.

Lemma omniturm_loop_length lines page_idx idxs :
  forall rooms0 processed rooms,
    omniturm_loop lines page_idx idxs rooms0 processed = OK rooms ->
    (List.length rooms
     <= List.length rooms0
        + List.length
            (filter (fun i => is_some (page_anchor fn_omniturm lines i))
               idxs))%nat.
Proof.
  induction idxs as [|i idxs IH]; cbn [omniturm_loop filter];
    intros rooms0 processed rooms H.
  - inversion H. cbn. lia.
  - apply bind_OK in H as (o & Ho & H).
    destruct (is_some (page_anchor fn_omniturm lines i)) eqn:E.
    + destruct o as [room|]; apply IH in H;
        rewrite ?length_app in H; cbn [List.length] in *; lia.
    + apply is_some_false in E.
      rewrite (omniturm_at_no_anchor _ _ _ _ E) in Ho.
      inversion Ho; subst. now apply IH in H.
Qed.

Lemma generic_picks_length found_areas ids :
  forall used_areas,
    (List.length (generic_picks found_areas ids used_areas)
     <= List.length ids)%nat.
Proof.
  induction ids as [|[id l] ids IH]; intros used; cbn [generic_picks].
  - cbn. lia.
  - destruct (best_area_loop l used (enumerate found_areas) None None)
      as [[k info]|]; cbn [List.length].
    + specialize (IH (k :: used)). lia.
    + specialize (IH used). lia.
Qed.

Lemma generic_assign_length lines page_idx found_areas ids used_areas :
  List.length (generic_assign lines page_idx found_areas ids used_areas)
  = List.length (generic_picks found_areas ids used_areas).
Proof. now rewrite generic_assign_picks, length_map. Qed.

Lemma StronglySorted_lt_NoDup (l : list (str * nat)) :
  StronglySorted (fun a b => (snd a < snd b)%nat) l -> NoDup (map snd l).
Proof.
  induction 1 as [|a l Hs IH Ha]; cbn [map]; constructor; [|exact IH].
  intros Hin. apply in_map_iff in Hin as (b & E & Hb).
  rewrite Forall_forall in Ha. specialize (Ha b Hb). lia.
Qed.

Lemma room_ids_bounded lines :
  (List.length (generic_find_room_ids lines)
   <= List.length (anchor_lines fn_generic lines))%nat.
Proof.
  destruct (generic_find_room_ids_spec lines) as (_ & Hin & _ & Hs).
  rewrite <- (length_map snd). apply NoDup_incl_length.
  - now apply StronglySorted_lt_NoDup.
  - intros i Hi. apply in_map_iff in Hi as ([id j] & E & Hi).
    cbn in E. subst j. destruct (Hin _ _ Hi) as [Hat _].
    unfold anchor_lines. apply filter_In. split.
    + apply in_seq. apply room_id_at_lt in Hat. lia.
    + cbn [page_anchor]. now rewrite Hat.
Qed.

(** X6.  A page never yields more rooms than it has anchor lines for the
    extractor that reads it. *)
Theorem room_count_bounded_by_anchors : forall f lines page_idx rooms,
  call f lines page_idx = OK rooms ->
  (List.length rooms <= List.length (anchor_lines f lines))%nat.
Proof.
  intros f lines page_idx rooms H. unfold anchor_lines.
  destruct f; cbn [call] in H.
  - unfold extract_haardtring in H. rewrite py_range_0 in H.
    apply (collect_length _ _ _ _ H). intros i _ E.
    apply haardtring_at_no_anchor. now apply is_some_false in E.
  - unfold extract_leiq in H. rewrite py_range_0 in H.
    apply (collect_length _ _ _ _ H). intros i _ E.
    apply leiq_at_no_anchor. now apply is_some_false in E.
  - unfold extract_omniturm in H. rewrite py_range_0 in H.
    apply omniturm_loop_length in H. exact H.
  - unfold extract_generic in H. inversion H; subst; clear H.
    rewrite generic_assign_length.
    etransitivity; [apply generic_picks_length|apply room_ids_bounded].
Qed.

Lemma room_count_bounded_by_anchors_witness :
  (List.length [leiq_example_room]
   <= List.length (anchor_lines fn_leiq leiq_example_lines))%nat.
Proof.
  apply (room_count_bounded_by_anchors fn_leiq leiq_example_lines 0).
  vm_compute. reflexivity.
Defined.

Lemma generic_picks_idx found_areas ids :
  forall used_areas p,
    In p (generic_picks found_areas ids used_areas) ->
    (pick_idx p < List.length found_areas)%nat.
Proof.
  induction ids as [|[id l] ids IH]; intros used p; cbn [generic_picks];
    [intros []|].
  destruct (best_area_loop l used (enumerate found_areas) None None)
    as [[k info]|] eqn:E; [|apply IH].
  intros [<-|Hp]; [|exact (IH _ _ Hp)].
  apply best_area_loop_In in E as [E|E]; [discriminate|].
  apply enumerate_In in E. cbn. apply nth_error_Some. congruence.
Qed.

(** X7.  The generic extractor never raises, and it yields no more rooms
    than the page has area labels in the plausible range: an area serves
    one identifier at most. *)
Theorem generic_rooms_bounded_by_areas : forall lines page_idx,
  exists rooms,
    extract_generic lines page_idx = OK rooms
    /\ (List.length rooms <= List.length (generic_find_areas lines))%nat.
Proof.
  intros lines page_idx. eexists. split; [reflexivity|].
  rewrite generic_assign_length.
  set (picks := generic_picks _ _ _).
  rewrite <- (length_map pick_idx picks).
  rewrite <- (length_seq (List.length (generic_find_areas lines)) 0).
  apply NoDup_incl_length.
  - apply generic_picks_fresh.
  - intros k Hk. apply in_map_iff in Hk as (p & <- & Hp).
    apply in_seq. apply generic_picks_idx in Hp. lia.
Qed.

(** ** Room numbers on a page *)

Lemma str_in_In s l : str_in s l = true <-> In s l.
Proof.
  unfold str_in. rewrite existsb_exists. split.
  - intros (x & Hx & E). apply str_eqb_eq in E. now subst.
  - intros H. exists s. split; [exact H|]. now apply str_eqb_eq.
Qed.

Lemma omniturm_at_fresh lines page_idx processed i r :
  omniturm_at lines page_idx processed i = OK (Some r) ->
  room_number r = line_at lines i /\ ~ In (room_number r) processed.
Proof.
  intros H. pose proof H as H'.
  apply omniturm_at_Some in H as (n & a & _ & _ & He).
  apply omniturm_emit_Some in He as (_ & _ & Hn & _).
  split; [exact Hn|]. rewrite Hn. intros Hin. apply str_in_In in Hin.
  unfold omniturm_at in H'. rewrite Hin, andb_false_r in H'. discriminate.
Qed.

Lemma NoDup_snoc {A} (l : list A) x : NoDup l -> ~ In x l -> NoDup (l ++ [x]).
Proof.
  induction 1 as [|a l Ha Hl IH]; intros Hx; cbn.
  - constructor; [intros []|constructor].
  - constructor.
    + intros Hin. apply in_app_or in Hin as [Hin|[->|[]]]; [auto|].
      apply Hx. now left.
    + apply IH. intros Hin. apply Hx. now right.
Qed.

Lemma omniturm_loop_NoDup lines page_idx idxs :
  forall rooms0 processed rooms,
    omniturm_loop lines page_idx idxs rooms0 processed = OK rooms ->
    NoDup (map room_number rooms0) ->
    (forall n, In n (map room_number rooms0) -> In n processed) ->
    NoDup (map room_number rooms).
Proof.
  induction idxs as [|i idxs IH]; cbn [omniturm_loop];
    intros rooms0 processed rooms H Hnd Hsub.
  - inversion H; subst. exact Hnd.
  - apply bind_OK in H as (o & Ho & H). destruct o as [room|].
    + apply omniturm_at_fresh in Ho as [_ Hfresh].
      apply (IH _ _ _ H).
      * rewrite map_app. cbn [map]. apply NoDup_snoc; [exact Hnd|].
        intros Hin. apply Hfresh. now apply Hsub.
      * intros n Hn. rewrite map_app in Hn.
        apply in_app_or in Hn as [Hn|[<-|[]]]; [right; now apply Hsub|].
        now left.
    + exact (IH _ _ _ H Hnd Hsub).
Qed.

Lemma generic_picks_ids found_areas ids :
  forall used_areas,
    NoDup (map fst ids) ->
    NoDup (map pick_id (generic_picks found_areas ids used_areas))
    /\ forall p, In p (generic_picks found_areas ids used_areas) ->
                 In (pick_id p) (map fst ids).
Proof.
  induction ids as [|[id l] ids IH]; intros used Hnd; cbn [generic_picks].
  - split; [constructor|intros p []].
  - cbn [map fst] in Hnd. inversion Hnd as [|? ? Hid Hnd']; subst.
    destruct (best_area_loop l used (enumerate found_areas) None None)
      as [[k info]|].
    + destruct (IH (k :: used) Hnd') as [IH1 IH2]. split.
      * cbn [map]. constructor; [|exact IH1].
        change (pick_id (id, l, k, info)) with id.
        intros Hin. apply in_map_iff in Hin as (p & E & Hp).
        apply Hid. rewrite <- E. now apply IH2.
      * intros p [<-|Hp]; [now left|]. right. now apply IH2.
    + destruct (IH used Hnd') as [IH1 IH2]. split; [exact IH1|].
      intros p Hp. right. now apply IH2.
Qed.

Lemma pick_room_number lines page_idx p :
  room_number (pick_room lines page_idx p) = pick_id p.
Proof. now destruct p as [[[id l] k] info]. Qed.

(** X8.  On one page the omniturm and the generic extractor give every
    room number to one record at most. *)
Theorem room_numbers_distinct : forall f lines page_idx rooms,
  f = fn_omniturm \/ f = fn_generic ->
  call f lines page_idx = OK rooms ->
  NoDup (map room_number rooms).
Proof.
  intros f lines page_idx rooms [-> | ->] H; cbn [call] in H.
  - unfold extract_omniturm in H.
    apply (omniturm_loop_NoDup _ _ _ _ _ _ H); [constructor|intros n []].
  - unfold extract_generic in H. inversion H; subst; clear H.
    rewrite generic_assign_picks, map_map.
    rewrite (map_ext _ pick_id (pick_room_number lines page_idx)).
    apply generic_picks_ids. apply generic_find_room_ids_spec.
Qed.

Lemma room_numbers_distinct_witness :
  NoDup (map room_number [generic_example_room]).
Proof.
  apply (room_numbers_distinct fn_generic generic_example_lines 0).
  - now right.
  - vm_compute. reflexivity.
Defined.

(** The haardtring and the leiq extractor keep no such record: an anchor
    that occurs twice yields its room number twice. *)
Remark leiq_repeats_room_number :
  exists rooms,
    extract_leiq (leiq_example_lines ++ leiq_example_lines) 0 = OK rooms
    /\ map room_number rooms = [u "B.00.2.002"; u "B.00.2.002"].
Proof. eexists. split; vm_compute; reflexivity. Qed.

(** ** The fields of an emitted record *)

Lemma built_with_shape name page_idx r :
  built_with name page_idx r ->
  page r = page_idx /\ bbox r = None
  /\ room_name r <> [] /\ category r = categorize_room (room_name r).
Proof.
  intros (Hn & Hc & Hp & Hb). rewrite Hn, Hc.
  repeat split; auto; destruct name as [[|c s]|]; cbn [str_or];
    try discriminate; try reflexivity; vm_compute; reflexivity.
Qed.

Lemma haardtring_emit_built room_num name area balcony_area page_idx r :
  haardtring_emit room_num name area balcony_area page_idx = Some r ->
  built_with name page_idx r
  /\ extraction_pattern r = u "F:"
  /\ perimeter_m r = None /\ height_m r = None.
Proof.
  unfold haardtring_emit, built_with.
  destruct (if_truthy area) as [a|]; [|discriminate].
  destruct (if_truthy balcony_area) as [v|].
  - intros H; inversion H; subst; cbn. auto 8.
  - destruct (match name with
              | Some n => nonempty n && is_outdoor_room n
              | None => false
              end);
      intros H; inversion H; subst; cbn; auto 8.
Qed.

Lemma leiq_emit_built room_num name v page_idx r :
  leiq_emit room_num name v page_idx = Some r ->
  built_with name page_idx r
  /\ extraction_pattern r = str_or (lv_pattern_used v) (u "NRF:").
Proof.
  unfold leiq_emit, built_with.
  destruct (if_truthy (lv_area v)) as [a|]; [|discriminate].
  intros H; inversion H; subst; cbn. auto 8.
Qed.

Lemma omniturm_emit_built room_num name area page_idx r :
  omniturm_emit room_num name area page_idx = Some r ->
  built_with name page_idx r
  /\ extraction_pattern r = u "NGF:"
  /\ perimeter_m r = None /\ height_m r = None.
Proof.
  unfold omniturm_emit, built_with.
  destruct (if_truthy area) as [a|]; [|discriminate].
  intros H; inversion H; subst; cbn. auto 8.
Qed.

Lemma leiq_lookahead_pattern lines js :
  forall v v',
    leiq_lookahead lines js v = OK v' -> pattern_ok v -> pattern_ok v'.
Proof.
  induction js as [|j js IH]; intros v v' H Hv.
  - cbn in H. inversion H; subst. exact Hv.
  - cbn [leiq_lookahead] in H.
    destruct (if is_none (lv_area v)
              then re_match true leiq_nrf (line_at lines j) else None)
      as [m|].
    { apply bind_OK in H as (area & _ & H). apply (IH _ _ H).
      unfold pattern_ok. cbn. now left. }
    destruct (if is_none (lv_area v)
              then re_match true leiq_f (line_at lines j) else None)
      as [m|].
    { apply bind_OK in H as (area & _ & H). apply (IH _ _ H).
      unfold pattern_ok. cbn. auto. }
    unfold leiq_rest in H.
    destruct (str_in (line_at lines j) split_labels) eqn:Es.
    2:{ cbn [andb] in H.
        destruct (re_match true leiq_u (line_at lines j)) as [m|].
        { apply bind_OK in H as (p & _ & H). exact (IH _ _ H Hv). }
        destruct (re_match true leiq_lh (line_at lines j)) as [m|].
        { apply bind_OK in H as (p & _ & H). exact (IH _ _ H Hv). }
        destruct (matches false leiq_room_pattern (line_at lines j)).
        { inversion H; subst. exact Hv. }
        exact (IH _ _ H Hv). }
    apply str_in_In in Es.
    destruct (if true && (j + 1 <? List.length lines)%nat
              then
                match re_match false value_any (line_at lines (j + 1)) with
                | Some area_match =>
                    if is_none (lv_area v) then Some area_match else None
                | None => None
                end
              else None) as [m|].
    { apply bind_OK in H as (area & _ & H). apply (IH _ _ H). exact Es. }
    destruct (re_match true leiq_u (line_at lines j)) as [m|].
    { apply bind_OK in H as (p & _ & H). exact (IH _ _ H Hv). }
    destruct (re_match true leiq_lh (line_at lines j)) as [m|].
    { apply bind_OK in H as (p & _ & H). exact (IH _ _ H Hv). }
    destruct (matches false leiq_room_pattern (line_at lines j)).
    { inversion H; subst. exact Hv. }
    exact (IH _ _ H Hv).
Qed.

(** X9.  Whatever the extractor, a record carries the page it was read
    from, no bounding box, a name that is not empty ("Unknown" when none
    was found), the category of that name, and one of the extractor's own
    pattern labels; only the leiq extractor fills in perimeter and
    height. *)
Theorem emitted_room_shape : forall f lines page_idx rooms r,
  call f lines page_idx = OK rooms -> In r rooms ->
  page r = page_idx /\ bbox r = None
  /\ room_name r <> [] /\ category r = categorize_room (room_name r)
  /\ In (extraction_pattern r) (extractor_patterns f)
  /\ (f <> fn_leiq -> perimeter_m r = None /\ height_m r = None).
Proof.
  intros f lines page_idx rooms r H Hin.
  assert (Hgoal : exists name,
             built_with name page_idx r
             /\ In (extraction_pattern r) (extractor_patterns f)
             /\ (f <> fn_leiq -> perimeter_m r = None /\ height_m r = None)).
  { destruct f; cbn [call] in H.
    - destruct (haardtring_emitted _ _ _ _ H Hin) as (i & _ & Hat).
      apply haardtring_at_Some in Hat as (m & name & a & b & _ & _ & He).
      apply haardtring_emit_built in He as (Hb & Hp & Hu & Hh).
      exists name. rewrite Hp. cbn. auto.
    - destruct (leiq_emitted _ _ _ _ H Hin) as (i & _ & Hat).
      apply leiq_at_Some in Hat as (m & name & v & _ & Hl & He).
      apply leiq_emit_built in He as (Hb & Hp).
      exists name. split; [exact Hb|]. split; [|congruence].
      apply leiq_lookahead_pattern in Hl; [|exact I].
      rewrite Hp. unfold pattern_ok in Hl. cbn [extractor_patterns].
      destruct (lv_pattern_used v) as [[|c p]|]; cbn [str_or];
        [now left|exact Hl|now left].
    - destruct (omniturm_emitted _ _ _ _ H Hin) as (i & pr & _ & Hat).
      apply omniturm_at_Some in Hat as (name & a & _ & _ & He).
      apply omniturm_emit_built in He as (Hb & Hp & Hu & Hh).
      exists name. rewrite Hp. cbn. auto.
    - unfold extract_generic in H. inversion H; subst; clear H.
      apply generic_assign_In in Hin as (id & l & info & _ & _ & ->).
      eexists. split; [|cbn; auto].
      unfold built_with, generic_room. cbn. repeat split; reflexivity. }
  destruct Hgoal as (name & Hb & Hp & Hl).
  apply built_with_shape in Hb as (? & ? & ? & ?). auto 8.
Qed.

Lemma emitted_room_shape_witness :
  page leiq_example_room = 0%nat /\ bbox leiq_example_room = None
  /\ room_name leiq_example_room <> []
  /\ category leiq_example_room
     = categorize_room (room_name leiq_example_room)
  /\ In (extraction_pattern leiq_example_room) (extractor_patterns fn_leiq)
  /\ (fn_leiq <> fn_leiq ->
      perimeter_m leiq_example_room = None
      /\ height_m leiq_example_room = None).
Proof.
  apply (emitted_room_shape fn_leiq leiq_example_lines 0 [leiq_example_room]).
  - vm_compute. reflexivity.
  - now left.
Defined.

(** ** The sign of the areas *)

Lemma round_half_even_nonneg y : 0 <= y -> (0 <= round_half_even y)%Z.
Proof.
  intros H. unfold round_half_even.
  assert (Hf : (0 <= Qfloor y)%Z).
  { change 0%Z with (Qfloor 0). now apply Qfloor_resp_le. }
  destruct (Qcompare (y - inject_Z (Qfloor y)) (1 # 2)); [|lia|lia].
  destruct (Z.even (Qfloor y)); lia.
Qed.

Lemma round2_nonneg x : 0 <= x -> 0 <= round2 x.
Proof.
  intros H. unfold round2. rewrite Qred_correct.
  assert (Hz : (0 <= round_half_even (x * 100))%Z).
  { apply round_half_even_nonneg. nra. }
  unfold Qle. cbn. lia.
Qed.

Lemma token_source_nonneg lines a : token_source lines a -> 0 <= a.
Proof.
  intros (line & token & _ & _ & Hp). exact (py_float_nonneg _ _ Hp).
Qed.

Lemma haardtring_balcony_nonneg lines k v :
  haardtring_balcony_at lines k = OK (Some v) -> 0 <= v.
Proof.
  unfold haardtring_balcony_at.
  destruct (k <? List.length lines)%nat; [|discriminate].
  destruct (re_match false haardtring_balcony (line_at lines k)) as [m|];
    [|discriminate].
  intros H. apply bind_OK in H as (w & Hp & H). inversion H; subst.
  exact (py_float_nonneg _ _ Hp).
Qed.

Lemma call_areas_positive f lines page_idx rooms r :
  call f lines page_idx = OK rooms -> In r rooms ->
  0 < area_m2 r /\ 0 <= counted_m2 r.
Proof.
  intros H Hin.
  assert (Hpos : forall a : Q, 0 <= a -> ~ a == 0 -> 0 < a).
  { intros a H0 Hn. destruct (Qlt_le_dec 0 a) as [|Hle]; [assumption|].
    exfalso. apply Hn. lra. }
  destruct f; cbn [call] in H.
  - destruct (haardtring_emitted _ _ _ _ H Hin) as (i & _ & Hat).
    apply haardtring_at_Some in Hat as (m & name & a & b & _ & Hl & He).
    apply haardtring_emit_Some in He as (-> & Hnz & _ & _ & _ & Hc).
    apply haardtring_lookahead_Some in Hl as (j & _ & Hf).
    assert (Ha : 0 < area_m2 r).
    { apply Hpos; [|exact Hnz].
      exact (token_source_nonneg _ _ (haardtring_found_token _ _ _ _ Hf)). }
    split; [exact Ha|].
    destruct (if_truthy b) as [v|] eqn:Eb.
    + destruct Hc as (-> & _). apply if_truthy_Some in Eb as [-> _].
      destruct Hf as [(_ & _ & _ & Hb)|(_ & _ & _ & _ & _ & Hb)];
        exact (haardtring_balcony_nonneg _ _ _ Hb).
    + destruct (cat_eqb (category r) OUTDOOR).
      * destruct Hc as (-> & _). apply round2_nonneg. lra.
      * destruct Hc as (-> & _). lra.
  - destruct (leiq_emitted _ _ _ _ H Hin) as (i & _ & Hat).
    apply leiq_at_Some in Hat as (m & name & v & _ & Hl & He).
    apply leiq_emit_Some in He as (Ha & Hnz & _ & _ & _ & Hc & _).
    destruct (leiq_lookahead_token _ _ _ _ _ Hl Ha) as [E|Ht];
      [discriminate|].
    apply token_source_nonneg in Ht. rewrite Hc.
    pose proof (Hpos _ Ht Hnz). split; lra.
  - destruct (omniturm_emitted _ _ _ _ H Hin) as (i & pr & _ & Hat).
    apply omniturm_at_Some in Hat as (name & a & _ & Hl & He).
    apply omniturm_emit_Some in He as (-> & Hnz & _ & _ & _ & Hc & _).
    apply omniturm_lookahead_token, token_source_nonneg in Hl.
    rewrite Hc. pose proof (Hpos _ Hl Hnz). split; lra.
  - destruct (generic_emitted _ _ _ _ H Hin)
      as (line & _ & _ & Hlo & _ & Hc & _).
    rewrite Hc. split; lra.
Qed.

(** X10.  No extractor emits a negative number: a record's area is
    positive and its counted area is not negative. *)
Theorem emitted_areas_positive : forall f lines page_idx rooms r,
  call f lines page_idx = OK rooms -> In r rooms ->
  0 < area_m2 r /\ 0 <= counted_m2 r.
Proof. exact call_areas_positive. Qed.

Lemma emitted_areas_positive_witness :
  0 < area_m2 leiq_example_room /\ 0 <= counted_m2 leiq_example_room.
Proof.
  apply (emitted_areas_positive fn_leiq leiq_example_lines 0
           [leiq_example_room]).
  - vm_compute. reflexivity.
  - now left.
Defined.

(** ** The page loop *)

Lemma acc_app_nil_r a : acc_app a ([], []) = a.
Proof. destruct a. unfold acc_app. cbn. now rewrite !app_nil_r. Qed.

Lemma acc_app_assoc a b c : acc_app (acc_app a b) c = acc_app a (acc_app b c).
Proof. unfold acc_app. cbn. now rewrite !app_assoc. Qed.

Lemma extract_room_areas_loop doc style pages :
  extract_room_areas doc style pages
  = (a <- page_loop (primary_extractor doc style) doc (requested doc pages)
            ([], initial_warnings doc style) ;;
     OK (result_of doc (working_style doc style) a)).
Proof.
  unfold extract_room_areas, primary_extractor, initial_warnings,
    working_style, requested.
  now destruct (dispatch _).
Qed.

(** The fallbacks add to the accumulators and do not read them. *)
Lemma try_alternatives_acc f alts lines p a :
  try_alternatives f alts lines p a
  = (r <- try_alternatives f alts lines p ([], []) ;; OK (acc_app a r)).
Proof.
  induction alts as [|[s g] alts IH]; cbn [try_alternatives].
  - cbn. now rewrite acc_app_nil_r.
  - destruct (negb (fn_eqb g f)); [|exact IH].
    destruct (call g lines p) as [[|x rs]|e]; cbn [bind]; [exact IH| |];
      reflexivity.
Qed.

Lemma process_page_acc f text p a :
  process_page f text p a
  = (r <- process_page f text p ([], []) ;; OK (acc_app a r)).
Proof.
  unfold process_page.
  destruct (call f (split newline text) p) as [[|x rs]|e]; cbn [bind].
  - cbn [fst snd app].
    rewrite (try_alternatives_acc _ _ _ _ (fst a ++ [], snd a)).
    destruct (try_alternatives f fallback_order (split newline text) p
                ([], [])) as [r|e]; cbn [bind]; [|reflexivity].
    destruct (negb (fn_eqb f fn_generic)).
    + unfold extract_generic. cbn [bind].
      destruct (generic_assign _ _ _ _ _) as [|g gs]; cbn [bind];
        unfold acc_app; cbn; rewrite ?app_nil_r, ?app_assoc; reflexivity.
    + cbn [bind]. unfold acc_app. cbn. now rewrite ?app_nil_r.
  - unfold acc_app. cbn. now rewrite app_nil_r.
  - reflexivity.
Qed.

Lemma page_loop_acc f doc ps :
  forall a,
    page_loop f doc ps a
    = (r <- page_loop f doc ps ([], []) ;; OK (acc_app a r)).
Proof.
  induction ps as [|p ps IH]; intros a; cbn [page_loop].
  - cbn. now rewrite acc_app_nil_r.
  - destruct (List.length doc <=? p)%nat.
    + cbn [fst snd app].
      match goal with
      | |- page_loop _ _ _ ?x = bind (page_loop _ _ _ ?y) _ =>
          rewrite (IH x), (IH y)
      end.
      destruct (page_loop f doc ps ([], [])) as [r|e]; cbn [bind];
        [|reflexivity].
      unfold acc_app. cbn. now rewrite <- app_assoc.
    + rewrite (process_page_acc f _ p a).
      destruct (process_page f (nth p doc []) p ([], [])) as [r1|e];
        cbn [bind]; [|reflexivity].
      rewrite (IH (acc_app a r1)), (IH r1).
      destruct (page_loop f doc ps ([], [])) as [r|e]; cbn [bind];
        [|reflexivity].
      now rewrite acc_app_assoc.
Qed.

Lemma page_loop_app f doc ps1 ps2 :
  forall a,
    page_loop f doc (ps1 ++ ps2) a
    = (a1 <- page_loop f doc ps1 a ;; page_loop f doc ps2 a1).
Proof.
  induction ps1 as [|p ps1 IH]; intros a; cbn [app page_loop];
    [reflexivity|].
  destruct (List.length doc <=? p)%nat; [apply IH|].
  destruct (process_page f (nth p doc []) p a); cbn [bind]; [apply IH|].
  reflexivity.
Qed.

(** X11.  The pages of a request are read one after the other and
    independently: a request for the pages [ps1 ++ ps2] succeeds exactly
    when the requests for [ps1] and for [ps2] do, and its rooms are theirs
    in this order. *)
Theorem pages_are_read_independently : forall doc style ps1 ps2 rs,
  (exists res,
      extract_room_areas doc style (Some (ps1 ++ ps2)) = OK res
      /\ rooms res = rs)
  <-> (exists res1 res2,
          extract_room_areas doc style (Some ps1) = OK res1
          /\ extract_room_areas doc style (Some ps2) = OK res2
          /\ rs = rooms res1 ++ rooms res2).
Proof.
  intros doc style ps1 ps2 rs. rewrite !extract_room_areas_loop.
  cbn [requested]. rewrite page_loop_app.
  set (f := primary_extractor doc style).
  set (w := initial_warnings doc style).
  rewrite (page_loop_acc f doc ps1 ([], w)).
  rewrite (page_loop_acc f doc ps2 ([], w)).
  destruct (page_loop f doc ps1 ([], [])) as [r1|e1]; cbn [bind].
  2:{ split; [intros (res & H & _); discriminate|].
      intros (res1 & res2 & H & _); discriminate. }
  rewrite (page_loop_acc f doc ps2 (acc_app ([], w) r1)).
  destruct (page_loop f doc ps2 ([], [])) as [r2|e2]; cbn [bind].
  2:{ split; [intros (res & H & _); discriminate|].
      intros (res1 & res2 & _ & H & _); discriminate. }
  split.
  - intros (res & H & <-). inversion H; subst; clear H.
    do 2 eexists. split; [reflexivity|]. split; [reflexivity|].
    reflexivity.
  - intros (res1 & res2 & H1 & H2 & ->).
    inversion H1; subst; clear H1. inversion H2; subst; clear H2.
    eexists. split; [reflexivity|]. reflexivity.
Qed.

Lemma page_loop_failing f doc ps p :
  In p ps -> page_loop f doc [p] ([], []) = Err ValueError ->
  forall a, page_loop f doc ps a = Err ValueError.
Proof.
  intros Hin E a. apply in_split in Hin as (ps1 & ps2 & ->).
  rewrite page_loop_app.
  destruct (page_loop f doc ps1 a) as [a1|[]]; cbn [bind]; [|reflexivity].
  change (p :: ps2) with ([p] ++ ps2). rewrite page_loop_app.
  rewrite (page_loop_acc f doc [p] a1), E. reflexivity.
Qed.

Lemma extract_room_areas_failing doc style pages p :
  In p (requested doc pages) ->
  extract_room_areas doc style (Some [p]) = Err ValueError ->
  extract_room_areas doc style pages = Err ValueError.
Proof.
  intros Hin H. rewrite extract_room_areas_loop in *. cbn [requested] in H.
  rewrite (page_loop_acc _ doc [p]) in H.
  destruct (page_loop (primary_extractor doc style) doc [p] ([], []))
    as [r|[]] eqn:E; [discriminate|].
  now rewrite (page_loop_failing _ _ _ _ Hin E).
Qed.

(** X12.  A page that fails on its own fails every request that includes
    it: the rooms of the other pages are not returned. *)
Theorem failing_page_fails_request : forall doc style pages p,
  In p (requested doc pages) ->
  extract_room_areas doc style (Some [p]) = Err ValueError ->
  extract_room_areas doc style pages = Err ValueError.
Proof. exact extract_room_areas_failing. Qed.

Lemma failing_page_fails_request_witness :
  extract_room_areas
    [join newline (text_lines ["R1B"; "Wohnen"; "F: 20,00 m2"]%string);
     join newline (text_lines ["R1A"; "Bad"; "F: 12,34,56 m2"]%string)]
    (Some HAARDTRING) (Some [0; 1]%nat)
  = Err ValueError.
Proof.
  apply (failing_page_fails_request _ _ (Some [0; 1]%nat) 1%nat).
  - right. now left.
  - vm_compute. reflexivity.
Defined.

(** ** Where the rooms of a result come from *)

Lemma call_page f lines p rooms r :
  call f lines p = OK rooms -> In r rooms -> page r = p.
Proof.
  intros H Hin. destruct f; cbn [call] in H.
  - destruct (haardtring_emitted _ _ _ _ H Hin) as (i & _ & Hat).
    apply haardtring_at_Some in Hat as (m & name & a & b & _ & _ & He).
    now apply haardtring_emit_Some in He.
  - destruct (leiq_emitted _ _ _ _ H Hin) as (i & _ & Hat).
    apply leiq_at_Some in Hat as (m & name & v & _ & _ & He).
    now apply leiq_emit_Some in He.
  - destruct (omniturm_emitted _ _ _ _ H Hin) as (i & pr & _ & Hat).
    apply omniturm_at_Some in Hat as (name & a & _ & _ & He).
    now apply omniturm_emit_Some in He.
  - unfold extract_generic in H. inversion H; subst; clear H.
    now apply generic_assign_In in Hin as (id & l & info & _ & _ & ->).
Qed.

(** A fallback that adds rooms adds a warning. *)
Lemma try_alternatives_rooms f alts lines p rs ws :
  try_alternatives f alts lines p ([], []) = OK (rs, ws) ->
  (forall r, In r rs -> page r = p) /\ (ws = [] -> rs = []).
Proof.
  induction alts as [|[s g] alts IH]; cbn [try_alternatives].
  - intros H. inversion H; subst. split; [intros r []|reflexivity].
  - destruct (negb (fn_eqb g f)); [|exact IH].
    destruct (call g lines p) as [[|x xs]|e] eqn:E; cbn [bind];
      [exact IH| |discriminate].
    intros H. inversion H; subst; clear H. split; [|discriminate].
    intros r Hr. exact (call_page _ _ _ _ _ E Hr).
Qed.

Lemma process_page_rooms f text p rs ws :
  process_page f text p ([], []) = OK (rs, ws) ->
  (forall r, In r rs -> page r = p)
  /\ (ws = [] -> call f (split newline text) p = OK rs).
Proof.
  unfold process_page.
  destruct (call f (split newline text) p) as [[|x xs]|e] eqn:E;
    cbn [bind fst snd app]; [| |discriminate].
  - destruct (try_alternatives f fallback_order (split newline text) p
                ([], [])) as [[rs1 ws1]|e1] eqn:E1; cbn [bind];
      [|discriminate].
    destruct (try_alternatives_rooms _ _ _ _ _ _ E1) as [Hp1 Hw1].
    destruct (negb (fn_eqb f fn_generic)).
    + destruct (extract_generic (split newline text) p) as [[|g gs]|e2]
        eqn:E2; cbn [bind fst snd]; [| |discriminate].
      * intros H. inversion H; subst; clear H. split; [exact Hp1|].
        intros Hw. now rewrite (Hw1 Hw).
      * intros H. inversion H; subst; clear H. split.
        -- intros r Hr. apply in_app_or in Hr as [Hr|Hr]; [now apply Hp1|].
           exact (call_page fn_generic _ _ _ _ E2 Hr).
        -- intros Hw. now destruct ws1.
    + intros H. inversion H; subst; clear H. split; [exact Hp1|].
      intros Hw. now rewrite (Hw1 Hw).
  - intros H. inversion H; subst; clear H. split; [|reflexivity].
    intros r Hr. exact (call_page _ _ _ _ _ E Hr).
Qed.

(** One step of the page loop, from empty accumulators. *)
Lemma page_loop_cons f doc p ps :
  page_loop f doc (p :: ps) ([], [])
  = (a1 <- (if (List.length doc <=? p)%nat
            then OK ([], [missing_page_warning p])
            else process_page f (nth p doc []) p ([], [])) ;;
     r <- page_loop f doc ps ([], []) ;; OK (acc_app a1 r)).
Proof.
  cbn [page_loop]. destruct (List.length doc <=? p)%nat; cbn [bind].
  - cbn [fst snd app]. apply page_loop_acc.
  - destruct (process_page f (nth p doc []) p ([], [])) as [a1|e];
      cbn [bind]; [apply page_loop_acc|reflexivity].
Qed.

Lemma page_loop_rooms f doc ps :
  forall rs ws,
    page_loop f doc ps ([], []) = OK (rs, ws) ->
    (forall r, In r rs -> In (page r) ps /\ (page r < List.length doc)%nat)
    /\ (forall p, In p ps -> (List.length doc <= p)%nat ->
                  In (missing_page_warning p) ws)
    /\ (ws = [] ->
        exists per_page,
          Forall2 (fun p prim => call f (page_lines doc p) p = OK prim)
            ps per_page
          /\ rs = concat per_page).
Proof.
  induction ps as [|p ps IH]; intros rs ws H.
  - cbn in H. inversion H; subst. split; [intros r []|].
    split; [intros p []|]. intros _. exists []. split; [constructor|].
    reflexivity.
  - rewrite page_loop_cons in H.
    apply bind_OK in H as ([rs1 ws1] & H1 & H).
    apply bind_OK in H as ([rs2 ws2] & H2 & H).
    inversion H; subst; clear H. cbn [fst snd].
    destruct (IH _ _ H2) as (Hr2 & Hm2 & Hw2).
    destruct (Nat.leb_spec (List.length doc) p) as [Hp|Hp].
    + inversion H1; subst; clear H1. cbn [app]. split; [|split].
      * intros r Hr. destruct (Hr2 r Hr). split; [now right|assumption].
      * intros q [<-|Hq] Hle; [now left|]. right. now apply Hm2.
      * discriminate.
    + destruct (process_page_rooms _ _ _ _ _ H1) as [Hp1 Hw1].
      split; [|split].
      * intros r Hr. apply in_app_or in Hr as [Hr|Hr].
        -- rewrite (Hp1 r Hr). split; [now left|exact Hp].
        -- destruct (Hr2 r Hr). split; [now right|assumption].
      * intros q [<-|Hq] Hle; [lia|]. apply in_or_app. right.
        now apply Hm2.
      * intros Hw. apply app_eq_nil in Hw as [E1 E2].
        destruct (Hw2 E2) as (per_page & Hf & ->).
        exists (rs1 :: per_page). split; [|reflexivity].
        constructor; [exact (Hw1 E1)|exact Hf].
Qed.

Lemma extract_room_areas_inv doc style pages res :
  extract_room_areas doc style pages = OK res ->
  exists rs ws,
    page_loop (primary_extractor doc style) doc (requested doc pages)
      ([], []) = OK (rs, ws)
    /\ res = result_of doc (working_style doc style)
               (rs, initial_warnings doc style ++ ws).
Proof.
  rewrite extract_room_areas_loop, page_loop_acc. intros H.
  apply bind_OK in H as (a & H & E).
  apply bind_OK in H as ([rs ws] & H & Ea).
  inversion Ea; subst; clear Ea. inversion E; subst; clear E.
  exists rs, ws. split; [exact H|reflexivity].
Qed.

(** X13.  Every room of a result was read from a page of the document
    that the request names (any page, when the request names none). *)
Theorem rooms_come_from_requested_pages : forall doc style pages res r,
  extract_room_areas doc style pages = OK res -> In r (rooms res) ->
  In (page r) (requested doc pages) /\ (page r < List.length doc)%nat.
Proof.
  intros doc style pages res r H Hr.
  apply extract_room_areas_inv in H as (rs & ws & H & ->).
  apply page_loop_rooms in H as (Hrs & _). exact (Hrs r Hr).
Qed.

Lemma rooms_come_from_requested_pages_witness :
  In (page leiq_example_room)
    (requested [join newline leiq_example_lines] None)
  /\ (page leiq_example_room
      < List.length [join newline leiq_example_lines])%nat.
Proof.
  eapply (rooms_come_from_requested_pages
            [join newline leiq_example_lines] None None).
  - vm_compute. reflexivity.
  - left. reflexivity.
Defined.

(** X14.  A requested page that the document does not have is reported
    by a warning and yields no room; the other pages are still read. *)
Theorem missing_page_is_reported : forall doc style ps res p,
  extract_room_areas doc style (Some ps) = OK res ->
  In p ps -> (List.length doc <= p)%nat ->
  In (missing_page_warning p) (warnings res)
  /\ forall r, In r (rooms res) -> page r <> p.
Proof.
  intros doc style ps res p H Hp Hle.
  apply extract_room_areas_inv in H as (rs & ws & H & ->).
  apply page_loop_rooms in H as (Hrs & Hm & _). cbn [requested] in *.
  split.
  - cbn. apply in_or_app. right. now apply Hm.
  - intros r Hr E. destruct (Hrs r Hr) as [_ Hlt]. cbn in Hr. lia.
Qed.

Lemma missing_page_is_reported_witness :
  In (missing_page_warning 7)
    (warnings
       (result_of example_doc HAARDTRING
          (rooms example_result, [missing_page_warning 7])))
  /\ forall r,
       In r (rooms
               (result_of example_doc HAARDTRING
                  (rooms example_result, [missing_page_warning 7]))) ->
       page r <> 7%nat.
Proof.
  apply (missing_page_is_reported example_doc None [0; 7]%nat).
  - vm_compute. reflexivity.
  - right. now left.
  - cbn. lia.
Defined.

Lemma page_loop_missing f doc ps :
  (forall p, In p ps -> (List.length doc <= p)%nat) ->
  page_loop f doc ps ([], []) = OK ([], map missing_page_warning ps).
Proof.
  induction ps as [|p ps IH]; intros H; [reflexivity|].
  rewrite page_loop_cons.
  destruct (Nat.leb_spec (List.length doc) p) as [Hp|Hp].
  - cbn [bind]. rewrite IH; [reflexivity|]. intros q Hq. apply H. now right.
  - specialize (H p (or_introl eq_refl)). lia.
Qed.

(** X15.  A request that names only pages the document does not have (any
    request, for a document without pages) does not fail: the result has
    no rooms, totals of zero, no category table, and one warning for each
    page named, after the warning for an unknown style if there is one. *)
Theorem request_outside_document : forall doc style ps,
  (forall p, In p ps -> (List.length doc <= p)%nat) ->
  exists res,
    extract_room_areas doc style (Some ps) = OK res
    /\ rooms res = [] /\ room_count res = 0%nat
    /\ total_area_m2 res = 0 /\ total_counted_m2 res = 0
    /\ totals_by_category res = []
    /\ page_count res = List.length doc
    /\ warnings res
       = initial_warnings doc style ++ map missing_page_warning ps.
Proof.
  intros doc style ps H.
  rewrite extract_room_areas_loop, page_loop_acc. cbn [requested].
  rewrite (page_loop_missing _ _ _ H). cbn [bind].
  eexists. split; [reflexivity|]. cbn. repeat split; reflexivity.
Qed.

Lemma request_outside_document_witness :
  exists res,
    extract_room_areas [] None (Some [0; 3]%nat) = OK res
    /\ rooms res = [] /\ room_count res = 0%nat
    /\ total_area_m2 res = 0 /\ total_counted_m2 res = 0
    /\ totals_by_category res = []
    /\ page_count res = 0%nat
    /\ warnings res
       = initial_warnings [] None ++ map missing_page_warning [0; 3]%nat.
Proof.
  apply (request_outside_document [] None [0; 3]%nat).
  intros p _. cbn. lia.
Defined.

(** X16.  A result without warnings is the work of the extraction
    function of its style alone: the style is a known one, every requested
    page exists, and the rooms are what this function returns for the
    pages, page after page. *)
Theorem result_without_warnings : forall doc style pages res,
  extract_room_areas doc style pages = OK res -> warnings res = [] ->
  exists f per_page,
    dispatch (blueprint_style res) = Some f
    /\ Forall2 (fun p prim => call f (page_lines doc p) p = OK prim)
         (requested doc pages) per_page
    /\ rooms res = concat per_page.
Proof.
  intros doc style pages res H Hw.
  apply extract_room_areas_inv in H as (rs & ws & H & ->).
  cbn in Hw. apply app_eq_nil in Hw as [Hw0 ->].
  apply page_loop_rooms in H as (_ & _ & Hper).
  destruct (Hper eq_refl) as (per_page & Hf & ->).
  exists (primary_extractor doc style), per_page. cbn.
  split; [|split; [exact Hf|reflexivity]].
  unfold initial_warnings in Hw0. unfold primary_extractor.
  now destruct (dispatch (working_style doc style)).
Qed.

Lemma result_without_warnings_witness :
  exists f per_page,
    dispatch (blueprint_style example_result) = Some f
    /\ Forall2 (fun p prim => call f (page_lines example_doc p) p = OK prim)
         (requested example_doc None) per_page
    /\ rooms example_result = concat per_page.
Proof.
  apply (result_without_warnings example_doc None None).
  - vm_compute. reflexivity.
  - vm_compute. reflexivity.
Defined.

(** ** What a match consumes and captures *)

Lemma rmatch_run ic (A : Type) r :
  forall (s : mst) (k : mst -> option A) x,
    rmatch ic r s k = Some x ->
    exists s' w,
      k s' = Some x /\ m_rest s = w ++ m_rest s'
      /\ m_pos s' = (m_pos s + List.length w)%nat
      /\ run ic r w (m_cap s) (m_cap s').
Proof.
  induction r as [d|items|r1 IH1 r2 IH2|r1 IH1 r2 IH2|r1 IH1|r1 IH1|r1 IH1
                  | | | |]; intros s k x H; cbn [rmatch] in H.
  - unfold advance in H. destruct (m_rest s) as [|c t] eqn:E;
      [discriminate|].
    destruct (chr_match ic d c) eqn:Ec; [|discriminate].
    eexists. exists [c]. split; [exact H|]. cbn.
    split; [reflexivity|]. split; [lia|]. now constructor.
  - unfold advance in H. destruct (m_rest s) as [|c t] eqn:E;
      [discriminate|].
    destruct (existsb (fun i => item_match ic i c) items) eqn:Ec;
      [|discriminate].
    eexists. exists [c]. split; [exact H|]. cbn.
    split; [reflexivity|]. split; [lia|]. now constructor.
  - destruct (IH1 _ _ _ H) as (s1 & w1 & H1 & R1 & P1 & L1).
    destruct (IH2 _ _ _ H1) as (s2 & w2 & H2 & R2 & P2 & L2).
    exists s2, (w1 ++ w2). split; [exact H2|].
    rewrite length_app, <- app_assoc, <- R2.
    split; [exact R1|]. split; [lia|]. econstructor; eassumption.
  - destruct (rmatch ic r1 s k) as [y|] eqn:E1.
    + inversion H; subst.
      destruct (IH1 _ _ _ E1) as (s1 & w1 & H1 & R1 & P1 & L1).
      exists s1, w1. repeat split; auto. now apply run_AltL.
    + destruct (IH2 _ _ _ H) as (s1 & w1 & H1 & R1 & P1 & L1).
      exists s1, w1. repeat split; auto. now apply run_AltR.
  - revert H. generalize (S (List.length (m_rest s))). intros n.
    revert s. induction n as [|n IHn]; intros s H; cbn [star_loop] in H.
    + exists s, []. cbn. rewrite Nat.add_0_r. repeat split; auto.
      constructor.
    + match type of H with
      | match ?m with _ => _ end = _ => destruct m as [y|] eqn:E1
      end.
      * inversion H; subst.
        destruct (IH1 _ _ _ E1) as (s1 & w1 & H1 & R1 & P1 & L1).
        destruct (m_pos s1 =? m_pos s)%nat; [discriminate|].
        destruct (IHn _ H1) as (s2 & w2 & H2 & R2 & P2 & L2).
        exists s2, (w1 ++ w2). split; [exact H2|].
        rewrite length_app, <- app_assoc, <- R2.
        split; [exact R1|]. split; [lia|]. econstructor; eassumption.
      * exists s, []. cbn. rewrite Nat.add_0_r. repeat split; auto.
        constructor.
  - destruct (rmatch ic r1 s k) as [y|] eqn:E1.
    + inversion H; subst.
      destruct (IH1 _ _ _ E1) as (s1 & w1 & H1 & R1 & P1 & L1).
      exists s1, w1. repeat split; auto. now apply run_OptS.
    + exists s, []. cbn. rewrite Nat.add_0_r. repeat split; auto.
      constructor.
  - destruct (IH1 _ _ _ H) as (s1 & w & H1 & R1 & P1 & L1).
    eexists. exists w. split; [exact H1|]. cbn.
    split; [exact R1|]. split; [exact P1|].
    replace (m_pos s1 - m_pos s)%nat with (List.length w) by lia.
    rewrite R1, firstn_app, Nat.sub_diag, firstn_all. cbn.
    rewrite app_nil_r. econstructor. exact L1.
  - destruct (m_pos s =? 0)%nat; [|discriminate].
    exists s, []. cbn. rewrite Nat.add_0_r. repeat split; auto. constructor.
  - destruct (at_eol s); [|discriminate].
    exists s, []. cbn. rewrite Nat.add_0_r. repeat split; auto. constructor.
  - destruct (xorb (word_before s) (word_after s)); [|discriminate].
    exists s, []. cbn. rewrite Nat.add_0_r. repeat split; auto. constructor.
  - exists s, []. cbn. rewrite Nat.add_0_r. repeat split; auto. constructor.
Qed.

Lemma run_groupless ic r w c c' :
  run ic r w c c' -> groupless r = true -> c' = c.
Proof.
  induction 1; cbn [groupless]; intros Hg;
    try apply andb_true_iff in Hg as [Hg1 Hg2];
    try reflexivity; try discriminate; auto.
  - rewrite IHrun2, IHrun1; auto.
  - rewrite IHrun2, IHrun1; auto.
Qed.

Lemma is_upper_ge c : is_upper c = true -> (65 <= c)%N.
Proof.
  unfold is_upper. rewrite orb_true_iff, !andb_true_iff, !N.leb_le. lia.
Qed.

Lemma is_lower_ge c : is_lower c = true -> (97 <= c)%N.
Proof.
  unfold is_lower. rewrite orb_true_iff, !andb_true_iff, !N.leb_le. lia.
Qed.

(** Case folding reaches no character below the letters. *)
Lemma fold_below_letters c d :
  (d < 65)%N -> to_lower c = d \/ to_upper c = d -> c = d.
Proof.
  unfold to_lower, to_upper. intros Hd [H|H].
  - destruct (is_upper c) eqn:E; [|exact H].
    apply is_upper_ge in E. lia.
  - destruct (is_lower c) eqn:E; [|exact H].
    apply is_lower_ge in E. lia.
Qed.

Lemma item_digit ic c : item_match ic CDigit c = true -> is_digit c = true.
Proof.
  unfold item_match. cbn [item_has]. intros H.
  apply orb_true_iff in H as [H|H]; [exact H|].
  apply andb_true_iff in H as [_ H].
  assert (Hd : forall x, is_digit x = true -> (x < 65)%N).
  { intros x. unfold is_digit. rewrite andb_true_iff, !N.leb_le. lia. }
  apply orb_true_iff in H as [H|H].
  - rewrite <- (fold_below_letters c (to_lower c)) in H; auto.
  - rewrite <- (fold_below_letters c (to_upper c)) in H; auto.
Qed.

Lemma item_char_exact ic d c :
  (d < 65)%N -> item_match ic (CChar d) c = true -> c = d.
Proof.
  unfold item_match. cbn [item_has]. intros Hd H.
  apply orb_true_iff in H as [H|H]; [now apply N.eqb_eq in H|].
  apply andb_true_iff in H as [_ H].
  apply fold_below_letters; [exact Hd|].
  apply orb_true_iff in H as [H|H]; apply N.eqb_eq in H; auto.
Qed.

Lemma run_Digit ic w c c' :
  run ic Digit w c c' -> exists x, w = [x] /\ is_digit x = true /\ c' = c.
Proof.
  unfold Digit. intros H. inversion H; subst.
  match goal with
  | E : existsb _ _ = true |- _ =>
      cbn [existsb] in E; rewrite orb_false_r in E; apply item_digit in E
  end.
  eauto.
Qed.

Lemma run_Star_Digit ic w c c' :
  run ic (Star Digit) w c c' -> all_digits w /\ c' = c.
Proof.
  remember (Star Digit) as r eqn:Er. induction 1; inversion Er; subst.
  - split; [constructor|reflexivity].
  - apply run_Digit in H as (x & -> & Hx & ->).
    destruct (IHrun2 eq_refl) as [Hd ->].
    split; [|reflexivity]. constructor; assumption.
Qed.

Lemma run_plumber_number ic w c c' :
  run ic plumber_number w c c' -> plumber_token w.
Proof.
  unfold plumber_number, Plus. cbn [seqs]. intros H.
  inversion H as [| | |? ? w1 w23 ? ? ? H1 H23| | | | | | | | | |]; subst.
  inversion H1 as [| | |? ? wd ws ? ? ? Hd Hs| | |  | | | | | | |]; subst.
  inversion H23 as [| | |? ? w2 w3 ? ? ? H2 H3| | | | | | | | | |]; subst.
  apply run_Digit in Hd as (x & -> & Hx & ->).
  apply run_Star_Digit in Hs as [Hs _].
  apply run_Star_Digit in H3 as [H3 _].
  exists ([x] ++ ws), w2, w3. split; [reflexivity|].
  split; [constructor; assumption|]. split; [discriminate|].
  split; [exact H3|].
  inversion H2 as [| | | | | | | |? ?|? ? ? ? Hc| | | |]; subst;
    [now left|].
  inversion Hc as [| |? y ? Hy| | | | | | | | | | |]; subst.
  cbn [existsb] in Hy. rewrite orb_false_r in Hy.
  apply orb_true_iff in Hy as [Hy|Hy];
    apply item_char_exact in Hy; subst;
    try (vm_compute; reflexivity); auto.
Qed.

Lemma run_area_pattern ic w c c' :
  run ic area_pattern w c c' ->
  exists g, c' = Some g /\ plumber_token g /\ substring_of g w.
Proof.
  unfold area_pattern. cbn [seqs]. intros H.
  inversion H as [| | |? ? w1 r1 ? ? ? _ H1| | | | | | | | | |]; subst.
  inversion H1 as [| | |? ? w2 r2 ? ? ? _ H2| | | | | | | | | |]; subst.
  inversion H2 as [| | |? ? w3 r3 ? ? ? _ H3| | | | | | | | | |]; subst.
  inversion H3 as [| | |? ? w4 r4 ? ? ? _ H4| | | | | | | | | |]; subst.
  inversion H4 as [| | |? ? g wu ? ? ? Hg Hu| | | | | | | | | |]; subst.
  inversion Hg as [| | | | | | | | | |? ? ? ? Hn| | |]; subst.
  apply run_groupless in Hu; [|reflexivity]. subst.
  exists g. split; [reflexivity|]. split; [exact (run_plumber_number _ _ _ _ Hn)|].
  exists (w1 ++ w2 ++ w3 ++ w4), wu. now rewrite <- !app_assoc.
Qed.

(** ** The numbers the fallback converts *)

Lemma replace_app a b x y :
  replace a b (x ++ y) = replace a b x ++ replace a b y.
Proof. unfold replace. apply flat_map_app. Qed.

Lemma digits_no_comma s : all_digits s -> has_char (ch ",") s = false.
Proof.
  induction 1 as [|c s Hc _ IH]; [reflexivity|].
  cbn [has_char existsb]. fold (has_char (ch ",") s). rewrite IH, orb_false_r.
  apply N.eqb_neq. intros <-. discriminate.
Qed.

Lemma plumber_token_float g :
  plumber_token g -> exists q, py_float (replace (ch ",") (u ".") g) = OK q.
Proof.
  intros (ip & sep & fp & -> & Hi & Hne & Hf & Hs).
  apply py_float_numeric.
  rewrite !replace_app.
  rewrite (replace_absent _ _ _ (digits_no_comma _ Hi)).
  rewrite (replace_absent _ _ _ (digits_no_comma _ Hf)).
  destruct Hs as [->|[->| ->]].
  - left. cbn [replace flat_map app]. split.
    + apply Forall_app. split; assumption.
    + intros E. apply app_eq_nil in E as [E _]. contradiction.
  - right. exists ip, fp. repeat split; auto.
    intros E. apply app_eq_nil in E as [E _]. contradiction.
  - right. exists ip, fp. repeat split; auto.
    intros E. apply app_eq_nil in E as [E _]. contradiction.
Qed.

(** ** The matches of a page *)

Lemma match_at_run ic r s sp :
  match_at ic r s = Some sp ->
  m_rest s = sp_group0 sp ++ m_rest (sp_end sp)
  /\ m_pos (sp_end sp) = (m_pos s + List.length (sp_group0 sp))%nat
  /\ run ic r (sp_group0 sp) None (sp_group1 sp).
Proof.
  unfold match_at. intros H.
  apply rmatch_run in H as (s' & w & H & R & P & L). cbn in R, P, L.
  inversion H; subst; clear H. cbn.
  replace (m_pos s' - m_pos s)%nat with (List.length w) by lia.
  rewrite R, firstn_app, Nat.sub_diag, firstn_all. cbn.
  rewrite app_nil_r. repeat split; auto.
Qed.

Lemma finditer_from_run ic r fuel :
  forall s sp,
    In sp (finditer_from ic r fuel s) ->
    substring_of (sp_group0 sp) (m_rest s)
    /\ run ic r (sp_group0 sp) None (sp_group1 sp).
Proof.
  induction fuel as [|fuel IH]; intros s sp H; [destruct H|].
  cbn [finditer_from] in H.
  assert (Hstep : In sp match advance s with
                        | Some (_, s') => finditer_from ic r fuel s'
                        | None => []
                        end ->
                  substring_of (sp_group0 sp) (m_rest s)
                  /\ run ic r (sp_group0 sp) None (sp_group1 sp)).
  { unfold advance. destruct (m_rest s) as [|c t] eqn:E; [intros []|].
    intros Hin. apply IH in Hin as [Hs Hr]. cbn in Hs.
    split; [|exact Hr]. now apply (substring_of_app_r [c]). }
  destruct (match_at ic r s) as [sp0|] eqn:E; [|exact (Hstep H)].
  destruct (match_at_run _ _ _ _ E) as (R & P & L).
  assert (H0 : substring_of (sp_group0 sp0) (m_rest s)
               /\ run ic r (sp_group0 sp0) None (sp_group1 sp0)).
  { split; [|exact L]. exists [], (m_rest (sp_end sp0)). exact R. }
  destruct (m_pos (sp_end sp0) =? m_pos s)%nat.
  - destruct H as [<-|H]; [exact H0|exact (Hstep H)].
  - destruct H as [<-|H]; [exact H0|].
    apply IH in H as [Hs Hr]. split; [|exact Hr].
    rewrite R. now apply substring_of_app_r.
Qed.

Lemma finditer_run ic r text sp :
  In sp (finditer ic r text) ->
  substring_of (sp_group0 sp) text
  /\ run ic r (sp_group0 sp) None (sp_group1 sp).
Proof. unfold finditer. intros H. now apply finditer_from_run in H. Qed.

Lemma plumber_room_OK room_counter page_idx m :
  run true area_pattern (sp_group0 m) None (sp_group1 m) ->
  exists q g,
    sp_group1 m = Some g /\ plumber_token g
    /\ substring_of g (sp_group0 m)
    /\ py_float (replace (ch ",") (u ".") g) = OK q
    /\ plumber_room room_counter page_idx m
       = OK (mkRoom (room_label room_counter) (u "Unknown") q q 1 page_idx
               (sp_group0 m) None OTHER None None None (u "NRF:")).
Proof.
  intros H. apply run_area_pattern in H as (g & Hg & Ht & Hs).
  destruct (plumber_token_float _ Ht) as (q & Hq).
  exists q, g. unfold plumber_room. rewrite Hg. cbn [group1].
  rewrite Hq. auto 8.
Qed.

(** A room of the fallback, read on page [page_idx] of text [text]. *)
Lemma plumber_matches_spec text page_idx ms :
  (forall m, In m ms -> In m (finditer true area_pattern text)) ->
  forall st,
    numbered st ->
    numbered (plumber_matches ms page_idx st)
    /\ forall r,
         In r (fst (plumber_matches ms page_idx st)) ->
         In r (fst st)
         \/ (page r = page_idx /\ substring_of (source_text r) text
             /\ (exists g,
                    plumber_token g /\ substring_of g (source_text r)
                    /\ py_float (replace (ch ",") (u ".") g)
                       = OK (area_m2 r))
             /\ counted_m2 r = area_m2 r /\ factor r = 1
             /\ category r = OTHER /\ room_name r = u "Unknown").
Proof.
  induction ms as [|m ms IH]; intros Hms st Hst; cbn [plumber_matches].
  - split; [exact Hst|]. intros r Hr. now left.
  - destruct (finditer_run _ _ _ _ (Hms m (or_introl eq_refl))) as [Hsub Hrun].
    destruct (plumber_room_OK (S (snd st)) page_idx m Hrun)
      as (q & g & _ & Ht & Hg & Hq & ->).
    set (room := mkRoom _ _ _ _ _ _ _ _ _ _ _ _ _).
    destruct (IH (fun x Hx => Hms x (or_intror Hx))
                (fst st ++ [room], S (snd st))) as [Hn Hr].
    { destruct Hst as [Hl Hm]. unfold numbered. cbn [fst snd].
      rewrite length_app, map_app, seq_S, map_app, <- Hm, <- Hl.
      cbn. split; [lia|reflexivity]. }
    split; [exact Hn|]. intros r Hin.
    destruct (Hr r Hin) as [Hold|Hnew]; [|now right].
    cbn [fst] in Hold. apply in_app_or in Hold as [Hold|[<-|[]]];
      [now left|].
    right. cbn. repeat split; auto. exists g. auto.
Qed.

Lemma plumber_pages_spec pdf ps :
  forall st,
    numbered st ->
    numbered (plumber_pages pdf ps st)
    /\ forall r,
         In r (fst (plumber_pages pdf ps st)) ->
         In r (fst st)
         \/ (In (page r) ps /\ (page r < List.length pdf)%nat
             /\ substring_of (source_text r)
                  (text_or_empty (nth (page r) pdf None))
             /\ (exists g,
                    plumber_token g /\ substring_of g (source_text r)
                    /\ py_float (replace (ch ",") (u ".") g)
                       = OK (area_m2 r))
             /\ counted_m2 r = area_m2 r /\ factor r = 1
             /\ category r = OTHER /\ room_name r = u "Unknown").
Proof.
  induction ps as [|p ps IH]; intros st Hst; cbn [plumber_pages].
  - split; [exact Hst|]. intros r Hr. now left.
  - destruct (Nat.leb_spec (List.length pdf) p) as [Hp|Hp].
    + destruct (IH st Hst) as [Hn Hr]. split; [exact Hn|].
      intros r Hin. destruct (Hr r Hin) as [?|(? & ?)]; [now left|].
      right. split; [now right|assumption].
    + destruct (plumber_matches_spec
                  (text_or_empty (nth p pdf None)) p
                  (finditer true area_pattern
                     (text_or_empty (nth p pdf None)))
                  (fun m Hm => Hm) st Hst) as [Hn1 Hr1].
      destruct (IH _ Hn1) as [Hn Hr]. split; [exact Hn|].
      intros r Hin. destruct (Hr r Hin) as [Hold|(? & ?)].
      * destruct (Hr1 r Hold) as [?|(Hpg & Hsrc & Hrest)]; [now left|].
        right. rewrite Hpg. split; [now left|]. split; [exact Hp|].
        split; [exact Hsrc|exact Hrest].
      * right. split; [now right|assumption].
Qed.

(** The fuel of [finditer] is never used up: more of it finds the same
    matches. *)
Lemma finditer_from_fuel ic r n :
  forall s k,
    (List.length (m_rest s) <= n)%nat ->
    finditer_from ic r (S n + k) s = finditer_from ic r (S n) s.
Proof.
  induction n as [|n IH]; intros s k Hn.
  - cbn [Nat.add finditer_from]. unfold advance.
    destruct (m_rest s) as [|c t] eqn:E; [|cbn in Hn; lia].
    destruct (match_at ic r s) as [sp|] eqn:Em; [|reflexivity].
    destruct (match_at_run _ _ _ _ Em) as (R & P & _).
    rewrite E in R. symmetry in R. apply app_eq_nil in R as [R _].
    rewrite R in P. cbn in P. rewrite Nat.add_0_r in P.
    now rewrite P, Nat.eqb_refl.
  - change (S (S n) + k)%nat with (S (S n + k)).
    cbn [finditer_from].
    assert (Hstep :
              match advance s with
              | Some (_, s') => finditer_from ic r (S n + k) s'
              | None => []
              end
              = match advance s with
                | Some (_, s') => finditer_from ic r (S n) s'
                | None => []
                end).
    { unfold advance. destruct (m_rest s) as [|c t] eqn:E; [reflexivity|].
      apply IH. cbn. cbn in Hn. lia. }
    rewrite Hstep.
    destruct (match_at ic r s) as [sp|] eqn:Em; [|reflexivity].
    destruct (match_at_run _ _ _ _ Em) as (R & P & _).
    destruct (Nat.eqb_spec (m_pos (sp_end sp)) (m_pos s)) as [E|E];
      [reflexivity|].
    f_equal. apply IH.
    rewrite R, length_app in Hn. lia.
Qed.

(** X17.  The fallback numbers its rooms room_001, room_002, ... without
    a gap, through all pages: the number it reads from a match always
    converts, so that the [except ValueError] branch drops no match. *)
Theorem fallback_rooms_are_numbered : forall pdf pages,
  map room_number (rooms (extract_room_areas_pdfplumber pdf pages))
  = map room_label
      (seq 1 (room_count (extract_room_areas_pdfplumber pdf pages))).
Proof.
  intros pdf pages. unfold extract_room_areas_pdfplumber. cbn [rooms room_count].
  set (ps := match pages with Some ps => ps | None => _ end).
  destruct (plumber_pages_spec pdf ps ([], 0%nat)) as [[Hl Hm] _].
  { split; reflexivity. }
  now rewrite <- Hl.
Qed.

(** X18.  Every room of the fallback quotes the page it was read from:
    its source text occurs literally in the text of a requested page of
    the document, and its area is the value of a number inside that
    quotation (digits with at most one comma or period), taken in full,
    with the category "other" and the name "Unknown". *)
Theorem fallback_room_quotes_page : forall pdf pages r,
  In r (rooms (extract_room_areas_pdfplumber pdf pages)) ->
  (page r < List.length pdf)%nat
  /\ substring_of (source_text r) (text_or_empty (nth (page r) pdf None))
  /\ (exists g,
         plumber_token g /\ substring_of g (source_text r)
         /\ py_float (replace (ch ",") (u ".") g) = OK (area_m2 r))
  /\ 0 <= area_m2 r
  /\ counted_m2 r = area_m2 r /\ factor r = 1
  /\ category r = OTHER /\ room_name r = u "Unknown".
Proof.
  intros pdf pages r. unfold extract_room_areas_pdfplumber. cbn [rooms].
  set (ps := match pages with Some ps => ps | None => _ end).
  destruct (plumber_pages_spec pdf ps ([], 0%nat)) as [_ Hr].
  { split; reflexivity. }
  intros Hin. destruct (Hr r Hin) as [[]|(_ & Hp & Hs & Hg & Hrest)].
  split; [exact Hp|]. split; [exact Hs|]. split; [exact Hg|].
  split; [|exact Hrest].
  destruct Hg as (g & _ & _ & Hq). exact (py_float_nonneg _ _ Hq).
Qed.

Lemma fallback_room_quotes_page_witness :
  (page fallback_example_room < List.length fallback_example_pdf)%nat
  /\ substring_of (source_text fallback_example_room)
       (text_or_empty
          (nth (page fallback_example_room) fallback_example_pdf None))
  /\ (exists g,
         plumber_token g /\ substring_of g (source_text fallback_example_room)
         /\ py_float (replace (ch ",") (u ".") g)
            = OK (area_m2 fallback_example_room))
  /\ 0 <= area_m2 fallback_example_room
  /\ counted_m2 fallback_example_room = area_m2 fallback_example_room
  /\ factor fallback_example_room = 1
  /\ category fallback_example_room = OTHER
  /\ room_name fallback_example_room = u "Unknown".
Proof.
  apply (fallback_room_quotes_page fallback_example_pdf None).
  vm_compute. left. reflexivity.
Defined.

(** Unlike the extractors, the fallback keeps a match whose number is
    zero. *)
Remark fallback_keeps_zero_area :
  exists r,
    In r (rooms (extract_room_areas_pdfplumber fallback_example_pdf None))
    /\ source_text r = u "NRF:0m" /\ area_m2 r = 0.
Proof.
  eexists. split; [vm_compute; right; left; reflexivity|].
  split; reflexivity.
Qed.

(** ** Style names *)

Lemma BlueprintStyle_of_OK v s :
  BlueprintStyle_of v = OK s <-> v = style_value s.
Proof.
  split.
  - unfold BlueprintStyle_of. cbn [find].
    repeat match goal with
           | |- context [str_eqb ?a ?b] =>
               let E := fresh "E" in
               destruct (str_eqb a b) eqn:E;
                 [apply str_eqb_eq in E;
                  intros H; inversion H; subst; reflexivity|clear E]
           end.
    discriminate.
  - intros ->. now destruct s.
Qed.

Lemma BlueprintStyle_of_Err v :
  (forall s, v <> style_value s) -> BlueprintStyle_of v = Err ValueError.
Proof.
  intros H. destruct (BlueprintStyle_of v) as [s|[]] eqn:E; [|reflexivity].
  apply BlueprintStyle_of_OK in E. now destruct (H s).
Qed.

(** X19.  A style is found by its value and by nothing else: the lookup
    of a string succeeds exactly when the string is, letter for letter,
    the value of a style, and it returns that style. *)
Theorem style_names_round_trip : forall v s,
  BlueprintStyle_of v = OK s <-> v = style_value s.
Proof. exact BlueprintStyle_of_OK. Qed.

(** X20.  The convenience API rejects a style name that is not the exact
    value of a style before it reads the document: it raises ValueError
    whatever the pages hold. *)
Theorem extract_to_dict_rejects_style : forall doc v pages,
  v <> [] -> (forall s, v <> style_value s) ->
  extract_to_dict doc (Some v) pages = Err ValueError.
Proof.
  intros doc v pages Hne H. unfold extract_to_dict, style_enum_of.
  destruct v as [|c v]; [contradiction|].
  now rewrite (BlueprintStyle_of_Err _ H).
Qed.

Lemma extract_to_dict_rejects_style_witness :
  extract_to_dict example_doc (Some (u "LeiQ")) None = Err ValueError.
Proof.
  apply extract_to_dict_rejects_style.
  - discriminate.
  - intros s. now destruct s.
Defined.

(** ** The dictionary of a room *)

Lemma category_value_inj c1 c2 :
  category_value c1 = category_value c2 -> c1 = c2.
Proof.
  destruct c1, c2; intros H; try reflexivity; vm_compute in H;
    discriminate.
Qed.

Lemma BoundingBox_to_dict_inj b1 b2 :
  BoundingBox_to_dict b1 = BoundingBox_to_dict b2 -> b1 = b2.
Proof.
  destruct b1 as [a1 b1 c1 d1], b2 as [a2 b2 c2 d2].
  unfold BoundingBox_to_dict. cbn. intros H. inversion H. reflexivity.
Qed.

(** The optional entries, looked up by their keys. *)
Lemma optional_entries_lookup (b : option BoundingBox) (p h : option Q)
    (s : option str) :
  let d :=
    opt_entry (u "bbox") b (fun b => VDict (BoundingBox_to_dict b))
    ++ opt_entry (u "perimeter_m") p VFloat
    ++ opt_entry (u "height_m") h VFloat
    ++ opt_entry (u "factor_source") s VStr in
  dict_lookup (u "bbox") d
  = option_map (fun b => VDict (BoundingBox_to_dict b)) b
  /\ dict_lookup (u "perimeter_m") d = option_map VFloat p
  /\ dict_lookup (u "height_m") d = option_map VFloat h
  /\ dict_lookup (u "factor_source") d = option_map VStr s.
Proof.
  destruct b, p, h, s; repeat split; vm_compute; reflexivity.
Qed.

Lemma option_map_inj {A B} (f : A -> B) (x y : option A) :
  (forall a b, f a = f b -> a = b) ->
  option_map f x = option_map f y -> x = y.
Proof.
  intros Hf. destruct x, y; cbn; intros H; inversion H; auto.
  f_equal. now apply Hf.
Qed.

Lemma opt_entries_inj (b1 b2 : option BoundingBox) (p1 p2 h1 h2 : option Q)
    (s1 s2 : option str) :
  opt_entry (u "bbox") b1 (fun b => VDict (BoundingBox_to_dict b))
  ++ opt_entry (u "perimeter_m") p1 VFloat
  ++ opt_entry (u "height_m") h1 VFloat
  ++ opt_entry (u "factor_source") s1 VStr
  = opt_entry (u "bbox") b2 (fun b => VDict (BoundingBox_to_dict b))
    ++ opt_entry (u "perimeter_m") p2 VFloat
    ++ opt_entry (u "height_m") h2 VFloat
    ++ opt_entry (u "factor_source") s2 VStr ->
  b1 = b2 /\ p1 = p2 /\ h1 = h2 /\ s1 = s2.
Proof.
  intros H.
  destruct (optional_entries_lookup b1 p1 h1 s1) as (B1 & P1 & H1 & S1).
  destruct (optional_entries_lookup b2 p2 h2 s2) as (B2 & P2 & H2 & S2).
  rewrite H in B1, P1, H1, S1.
  rewrite B2 in B1. rewrite P2 in P1. rewrite H2 in H1. rewrite S2 in S1.
  repeat split; symmetry.
  - apply (option_map_inj (fun b => VDict (BoundingBox_to_dict b)));
      [|exact B1].
    intros a b E. apply BoundingBox_to_dict_inj. congruence.
  - apply (option_map_inj VFloat); [|exact P1]. intros a b E. now inversion E.
  - apply (option_map_inj VFloat); [|exact H1]. intros a b E. now inversion E.
  - apply (option_map_inj VStr); [|exact S1]. intros a b E. now inversion E.
Qed.

(** X21.  The dictionary of a room keeps every field, except that a
    perimeter or a height of zero and an empty factor source are dropped
    like missing ones: two rooms have the same dictionary exactly when
    they agree up to this. *)
Theorem to_dict_keeps_fields : forall r1 r2,
  ExtractedRoom_to_dict r1 = ExtractedRoom_to_dict r2 <-> kept r1 = kept r2.
Proof.
  intros r1 r2. split.
  - unfold ExtractedRoom_to_dict. cbn [app]. intros H.
    injection H as E1 E2 E3 E4 E5 E6 E7 E8 E9 Et.
    apply category_value_inj in E8.
    apply opt_entries_inj in Et as (Eb & Ep & Eh & Es).
    unfold kept. congruence.
  - unfold kept. intros H.
    injection H as E1 E2 E3 E4 E5 E6 E7 E8 E9 E10 E11 E12 E13.
    unfold ExtractedRoom_to_dict. congruence.
Qed.

(** A perimeter of zero is read by the leiq extractor and lost in the
    dictionary. *)
Remark leiq_zero_perimeter_is_dropped :
  exists r,
    extract_leiq
      (text_lines ["B.00.2.002"; "Flur"; "U: 0 m"; "NRF: 10,00 m2"]%string) 0
    = OK [r]
    /\ perimeter_m r = Some 0
    /\ ExtractedRoom_to_dict r
       = ExtractedRoom_to_dict
           (mkRoom (room_number r) (room_name r) (area_m2 r) (counted_m2 r)
              (factor r) (page r) (source_text r) None (category r) None
              None None (extraction_pattern r)).
Proof. eexists. split; [vm_compute; reflexivity|]. split; reflexivity. Qed.

(** ** The HTTP endpoint *)

Lemma to_lower_idem c : to_lower (to_lower c) = to_lower c.
Proof.
  unfold to_lower. destruct (is_upper c) eqn:E; [|now rewrite E].
  assert (Hc : (65 <= c <= 90 \/ 192 <= c <= 222)%N).
  { unfold is_upper in E. rewrite orb_true_iff, !andb_true_iff in E.
    rewrite !N.leb_le in E. lia. }
  assert (Hn : is_upper (c + 32) = false).
  { unfold is_upper.
    destruct (N.leb_spec 65 (c + 32)), (N.leb_spec (c + 32) 90),
      (N.leb_spec 192 (c + 32)), (N.leb_spec (c + 32) 222);
      cbn; try reflexivity; lia. }
  now rewrite Hn.
Qed.

Lemma lower_idem s : lower (lower s) = lower s.
Proof.
  unfold lower. rewrite map_map. apply map_ext. apply to_lower_idem.
Qed.

(** X22.  The endpoint reads the style parameter without regard to case:
    a name and its lower-case form give the same answer. *)
Theorem endpoint_style_ignores_case : forall filename doc v,
  extract_areas filename doc (Some v)
  = extract_areas filename doc (Some (lower v)).
Proof.
  intros filename doc v. unfold extract_areas.
  destruct (negb (ends_with (u ".pdf") (lower filename))); [reflexivity|].
  destruct v as [|c v]; [reflexivity|].
  change (lower (c :: v)) with (to_lower c :: lower v) at 2.
  cbv iota. change (to_lower c :: lower v) with (lower (c :: v)).
  now rewrite lower_idem.
Qed.

(** X23.  One page that fails on its own turns the answer for the whole
    upload into HTTP 500: no room of any page is returned. *)
Theorem endpoint_unparsable_page : forall filename doc style style_enum p,
  ends_with (u ".pdf") (lower filename) = true ->
  style_enum_of (option_map lower style) = OK style_enum ->
  (p < List.length doc)%nat ->
  extract_room_areas doc style_enum (Some [p]) = Err ValueError ->
  extract_areas filename doc style = inl (Http 500).
Proof.
  intros filename doc style style_enum p Hpdf Hs Hp H.
  unfold extract_areas. rewrite Hpdf. cbn [negb].
  assert (Hfail : extract_room_areas doc style_enum None = Err ValueError).
  { apply (extract_room_areas_failing _ _ _ p); [|exact H].
    cbn [requested]. apply py_range_In. lia. }
  destruct style as [[|c s]|]; cbn [option_map] in Hs.
  - cbn in Hs. inversion Hs; subst. now rewrite Hfail.
  - change (lower (c :: s)) with (to_lower c :: lower s) in Hs.
    cbn [style_enum_of] in Hs.
    change (to_lower c :: lower s) with (lower (c :: s)) in Hs.
    destruct (BlueprintStyle_of (lower (c :: s))) as [st|]; [|discriminate].
    cbn in Hs. inversion Hs; subst. now rewrite Hfail.
  - cbn in Hs. inversion Hs; subst. now rewrite Hfail.
Qed.

Lemma endpoint_unparsable_page_witness :
  extract_areas (u "Plan.PDF")
    [join newline (text_lines ["R1B"; "Wohnen"; "F: 20,00 m2"]%string);
     join newline (text_lines ["R1A"; "Bad"; "F: 12,34,56 m2"]%string)]
    (Some (u "Haardtring"))
  = inl (Http 500).
Proof.
  apply (endpoint_unparsable_page _ _ _ (Some HAARDTRING) 1%nat).
  - vm_compute. reflexivity.
  - vm_compute. reflexivity.
  - cbn. lia.
  - vm_compute. reflexivity.
Defined.

(** ** The tokens the number parser accepts *)

Lemma has_char_count c s :
  has_char c s = true <-> (0 < count_occ N.eq_dec s c)%nat.
Proof.
  unfold has_char. rewrite existsb_exists. split.
  - intros (x & Hx & E). apply N.eqb_eq in E. subst.
    now apply (count_occ_In N.eq_dec) in Hx.
  - intros H. apply (count_occ_In N.eq_dec) in H.
    exists c. split; [exact H|apply N.eqb_refl].
Qed.

Lemma has_char_false_count c s :
  has_char c s = false <-> count_occ N.eq_dec s c = 0%nat.
Proof.
  pose proof (has_char_count c s) as H.
  destruct (has_char c s); split; intros E; try discriminate;
    try reflexivity.
  - destruct H as [H _]. specialize (H eq_refl). lia.
  - destruct (count_occ N.eq_dec s c); [reflexivity|].
    destruct H as [_ H]. assert (false = true) by (apply H; lia).
    discriminate.
Qed.

Lemma count_replace_other a b c s :
  c <> a -> ~ In c b ->
  count_occ N.eq_dec (replace a b s) c = count_occ N.eq_dec s c.
Proof.
  intros Hca Hcb. induction s as [|x s IH]; [reflexivity|].
  rewrite replace_cons, count_occ_app, IH.
  destruct (N.eqb_spec x a) as [->|Hxa].
  - rewrite (proj1 (count_occ_not_In N.eq_dec b c) Hcb).
    cbn [count_occ]. destruct (N.eq_dec a c); [congruence|reflexivity].
  - cbn [count_occ]. destruct (N.eq_dec x c); reflexivity.
Qed.

Lemma periods_after_commas s :
  periods (replace (ch ",") (u ".") s) = (periods s + commas s)%nat.
Proof.
  unfold periods, commas. induction s as [|x s IH]; [reflexivity|].
  rewrite replace_cons, count_occ_app, IH. cbn [count_occ].
  destruct (N.eqb_spec x (ch ",")) as [->|Hx].
  - change (u ".") with [ch "."]. cbn [count_occ].
    destruct (N.eq_dec (ch ".") (ch ".")); [|congruence].
    destruct (N.eq_dec (ch ",") (ch ".")); [discriminate|].
    destruct (N.eq_dec (ch ",") (ch ",")); [|congruence]. lia.
  - cbn [count_occ].
    destruct (N.eq_dec x (ch ".")), (N.eq_dec x (ch ","));
      try congruence; lia.
Qed.

Lemma periods_removed s : periods (replace (ch ".") [] s) = 0%nat.
Proof.
  unfold periods. apply has_char_false_count, replace_period_gone.
Qed.

Lemma commas_without_periods s :
  commas (replace (ch ".") [] s) = commas s.
Proof.
  unfold commas. apply count_replace_other; [discriminate|intros []].
Qed.

Lemma has_digit_replace a b s :
  is_digit a = false -> has_digit b = false ->
  has_digit (replace a b s) = has_digit s.
Proof.
  intros Ha Hb. unfold has_digit. induction s as [|x s IH]; [reflexivity|].
  rewrite replace_cons, existsb_app, IH. cbn [existsb].
  destruct (N.eqb_spec x a) as [->|Hx].
  - fold (has_digit b). now rewrite Hb, Ha.
  - cbn [existsb]. now rewrite orb_false_r.
Qed.

(** After the commas have become periods a token holds digits and
    periods only. *)
Lemma token_after_commas s :
  is_token s ->
  Forall (fun c => is_digit c = true \/ c = ch ".")
    (replace (ch ",") (u ".") s).
Proof.
  induction 1 as [|c s Hc _ IH]; [constructor|].
  rewrite replace_cons. destruct (N.eqb_spec c (ch ",")) as [->|Hne].
  - constructor; [now right|exact IH].
  - constructor; [|exact IH].
    unfold token_char in Hc. apply orb_true_iff in Hc as [Hc|Hc].
    + apply orb_true_iff in Hc as [Hc|Hc]; [now left|].
      right. now apply N.eqb_eq in Hc.
    + apply N.eqb_eq in Hc. contradiction.
Qed.

Lemma digits_of_no_period t :
  Forall (fun c => is_digit c = true \/ c = ch ".") t ->
  ~ In (ch ".") t -> all_digits t.
Proof.
  induction 1 as [|c t Hc _ IH]; intros Hn; [constructor|].
  constructor.
  - destruct Hc as [Hc| ->]; [exact Hc|]. exfalso. apply Hn. now left.
  - apply IH. intros Hin. apply Hn. now right.
Qed.

Lemma all_digits_periods t : all_digits t -> periods t = 0%nat.
Proof.
  intros H. unfold periods. apply count_occ_not_In. intros Hin.
  unfold all_digits in H. rewrite Forall_forall in H.
  specialize (H _ Hin). discriminate.
Qed.

Lemma all_digits_has_digit t : all_digits t -> t <> [] -> has_digit t = true.
Proof. intros H Hne. destruct H; [contradiction|]. cbn. now rewrite H. Qed.

(** What [float] accepts among the strings of digits and periods. *)
Lemma numeric_count t :
  Forall (fun c => is_digit c = true \/ c = ch ".") t ->
  (numeric t <-> has_digit t = true /\ (periods t <= 1)%nat).
Proof.
  intros Ht. split.
  - intros [[Hd Hne]|(ip & fp & Hi & Hf & Hne & ->)].
    + split; [now apply all_digits_has_digit|].
      rewrite (all_digits_periods _ Hd). lia.
    + split.
      * unfold has_digit. rewrite existsb_app. cbn [existsb].
        fold (has_digit ip) (has_digit fp).
        destruct ip as [|c ip].
        -- rewrite (all_digits_has_digit fp Hf); [btrue|].
           intros ->. now apply Hne.
        -- rewrite (all_digits_has_digit (c :: ip) Hi); [btrue|discriminate].
      * unfold periods. rewrite count_occ_app. cbn [count_occ].
        fold (periods ip) (periods fp).
        rewrite (all_digits_periods _ Hi), (all_digits_periods _ Hf).
        destruct (N.eq_dec (ch ".") (ch ".")); [lia|congruence].
  - intros [Hd Hp].
    destruct (in_dec N.eq_dec (ch ".") t) as [Hin|Hn].
    + right. apply in_split in Hin as (ip & fp & ->).
      unfold periods in Hp. rewrite count_occ_app in Hp.
      cbn [count_occ] in Hp.
      destruct (N.eq_dec (ch ".") (ch ".")); [|congruence].
      apply Forall_app in Ht as [Hi Hf]. inversion Hf; subst.
      assert (Hip : all_digits ip).
      { apply digits_of_no_period; [exact Hi|].
        apply (count_occ_not_In N.eq_dec). lia. }
      assert (Hfp : all_digits fp).
      { apply digits_of_no_period; [assumption|].
        apply (count_occ_not_In N.eq_dec). lia. }
      exists ip, fp. repeat split; auto.
      intros E. apply app_eq_nil in E as [-> ->].
      cbn in Hd. discriminate.
    + left. split; [now apply digits_of_no_period|].
      intros ->. discriminate.
Qed.

Lemma parse_accepts_iff s :
  is_token s ->
  ((exists q, parse_german_number s = OK q)
   <-> has_digit s = true /\ (commas s <= 1)%nat
       /\ (commas s = 1%nat \/ (periods s <= 1)%nat)).
Proof.
  intros Ht. unfold parse_german_number. rewrite (strip_token _ Ht).
  rewrite py_float_numeric.
  destruct (has_char (ch ".") s && has_char (ch ",") s) eqn:E.
  - apply andb_true_iff in E as [_ Ec]. apply has_char_count in Ec.
    fold (commas s) in Ec.
    rewrite numeric_count
      by (apply token_after_commas, replace_period_token, Ht).
    rewrite periods_after_commas, periods_removed, commas_without_periods.
    rewrite !has_digit_replace by reflexivity.
    split; intros (Hd & H); (split; [exact Hd|]); lia.
  - rewrite numeric_count by (apply token_after_commas, Ht).
    rewrite periods_after_commas, has_digit_replace by reflexivity.
    apply andb_false_iff in E as [E|E]; apply has_char_false_count in E.
    + fold (periods s) in E. rewrite E.
      split; intros (Hd & H); (split; [exact Hd|]); lia.
    + fold (commas s) in E. rewrite E.
      split; intros (Hd & H); (split; [exact Hd|]); lia.
Qed.

(** X24.  A token of digits, periods and commas parses exactly when it
    has a digit, at most one comma and, unless it has a comma, at most
    one period; every other token raises ValueError. *)
Theorem parse_german_number_accepts : forall s,
  is_token s ->
  ((exists q, parse_german_number s = OK q)
   <-> has_digit s = true /\ (commas s <= 1)%nat
       /\ (commas s = 1%nat \/ (periods s <= 1)%nat)).
Proof. exact parse_accepts_iff. Qed.

Lemma parse_german_number_accepts_witness :
  (exists q, parse_german_number (u "1.070,55") = OK q)
  <-> has_digit (u "1.070,55") = true /\ (commas (u "1.070,55") <= 1)%nat
      /\ (commas (u "1.070,55") = 1%nat \/ (periods (u "1.070,55") <= 1)%nat).
Proof.
  apply parse_german_number_accepts. repeat constructor.
Defined.

(** ** Where a ValueError comes from *)

Lemma bind_Err {A B} (m : result A) (f : A -> result B) e :
  bind m f = Err e -> m = Err e \/ exists a, m = OK a /\ f a = Err e.
Proof.
  destruct m as [a|e0]; cbn; [eauto|]. intros _. left. now destruct e0, e.
Qed.

Lemma run_groups ic r w c c' :
  run ic r w c c' ->
  c' = c
  \/ exists g r' c0 c1,
       c' = Some g /\ In r' (groups r) /\ run ic r' g c0 c1.
Proof.
  induction 1; cbn [groups]; try (now left).
  - destruct IHrun2 as [->|(g & r' & c0 & c1' & -> & Hin & Hr)].
    + destruct IHrun1 as [->|(g & r' & c0 & c1' & -> & Hin & Hr)];
        [now left|].
      right. exists g, r', c0, c1'. repeat split; auto.
      apply in_or_app. now left.
    + right. exists g, r', c0, c1'. repeat split; auto.
      apply in_or_app. now right.
  - destruct IHrun as [->|(g & r' & c0 & c1' & -> & Hin & Hr)]; [now left|].
    right. exists g, r', c0, c1'. repeat split; auto.
    apply in_or_app. now left.
  - destruct IHrun as [->|(g & r' & c0 & c1' & -> & Hin & Hr)]; [now left|].
    right. exists g, r', c0, c1'. repeat split; auto.
    apply in_or_app. now right.
  - destruct IHrun2 as [->|(g & r' & c0 & c1' & -> & Hin & Hr)].
    + exact IHrun1.
    + right. exists g, r', c0, c1'. repeat split; auto.
  - exact IHrun.
  - right. exists w, r, c, c'. repeat split; auto. now left.
Qed.

Lemma item_token ic i c :
  i = CDigit \/ i = CChar (ch ",") \/ i = CChar (ch ".") ->
  item_match ic i c = true -> token_char c = true.
Proof.
  unfold token_char. intros [->|[->| ->]] H.
  - apply item_digit in H. now rewrite H.
  - apply item_char_exact in H; [|reflexivity]. subst. btrue.
  - apply item_char_exact in H; [|reflexivity]. subst. btrue.
Qed.

Lemma run_Cls_token ic items w c c' :
  Forall (fun i => i = CDigit \/ i = CChar (ch ",") \/ i = CChar (ch "."))
    items ->
  run ic (Cls items) w c c' -> is_token w.
Proof.
  intros Hi H. inversion H; subst. constructor; [|constructor].
  match goal with E : existsb _ _ = true |- _ => rename E into Hx end.
  apply existsb_exists in Hx as (i & Hin & Hm).
  rewrite Forall_forall in Hi. exact (item_token _ _ _ (Hi i Hin) Hm).
Qed.

Lemma run_Star_Cls_token ic items w c c' :
  Forall (fun i => i = CDigit \/ i = CChar (ch ",") \/ i = CChar (ch "."))
    items ->
  run ic (Star (Cls items)) w c c' -> is_token w.
Proof.
  intros Hi. remember (Star (Cls items)) as r eqn:Er.
  induction 1; inversion Er; subst.
  - constructor.
  - apply Forall_app. split; [|now apply IHrun2].
    exact (run_Cls_token _ _ _ _ _ Hi H).
Qed.

Lemma run_number_token ic g w c c' :
  g = num_comma \/ g = num_any -> run ic g w c c' -> is_token w.
Proof.
  intros Hg H.
  assert (Hp : exists items,
             g = Plus (Cls items)
             /\ Forall (fun i => i = CDigit \/ i = CChar (ch ",")
                                 \/ i = CChar (ch ".")) items).
  { destruct Hg as [->| ->]; eexists; (split; [reflexivity|]);
      repeat (apply Forall_cons || apply Forall_nil); auto. }
  destruct Hp as (items & -> & Hi). unfold Plus in H.
  inversion H; subst. apply Forall_app. split.
  - eapply run_Cls_token; eassumption.
  - eapply run_Star_Cls_token; eassumption.
Qed.

(** The number a pattern captures is a token. *)
Lemma re_match_token ic r s m :
  captures_number r -> re_match ic r s = Some m -> is_token (group1 m).
Proof.
  unfold re_match. intros Hc H.
  apply rmatch_run in H as (s' & w & H & _ & _ & L). cbn in L.
  inversion H; subst m; clear H.
  apply run_groups in L as [->|(g & r' & c0 & c1 & -> & Hin & Hr)].
  - constructor.
  - unfold captures_number in Hc. rewrite Forall_forall in Hc.
    exact (run_number_token _ _ _ _ _ (Hc r' Hin) Hr).
Qed.

Lemma parse_Err_unparsable token :
  is_token token -> parse_german_number token = Err ValueError ->
  unparsable token.
Proof.
  intros Ht He. split; [exact Ht|].
  pose proof (parse_accepts_iff token Ht) as [_ H].
  destruct (has_digit token) eqn:Ed; [|now left]. right.
  destruct (le_lt_dec 2 (commas token)) as [?|Hc]; [now left|]. right.
  destruct (Nat.eq_dec (commas token) 0) as [E0|E0].
  - split; [exact E0|].
    destruct (le_lt_dec 2 (periods token)) as [?|Hp]; [assumption|].
    exfalso. destruct H as (q & Hq); [|congruence].
    split; [reflexivity|]. split; lia.
  - exfalso. destruct H as (q & Hq); [|congruence].
    split; [reflexivity|]. split; lia.
Qed.

Lemma bad_token_of_match lines k ic r m :
  (k < List.length lines)%nat -> captures_number r ->
  re_match ic r (line_at lines k) = Some m ->
  parse_german_number (group1 m) = Err ValueError ->
  bad_token lines.
Proof.
  intros Hk Hc Hm Hp.
  exists (nth k lines []), (group1 m). split; [now apply nth_In|].
  split.
  - eapply substring_of_trans; [|apply strip_substring].
    exact (re_match_group _ _ _ _ Hm).
  - split; [|exact Hp].
    exact (parse_Err_unparsable _ (re_match_token _ _ _ _ Hc Hm) Hp).
Qed.

Ltac captures :=
  unfold captures_number; cbv [groups]; cbn [app];
  repeat (apply Forall_cons || apply Forall_nil);
  first [left; reflexivity | right; reflexivity].

Lemma err_is_ValueError {A} (m : result A) e : m = Err e -> m = Err ValueError.
Proof. now destruct e. Qed.

Lemma haardtring_balcony_Err lines k e :
  haardtring_balcony_at lines k = Err e -> bad_token lines.
Proof.
  unfold haardtring_balcony_at.
  destruct (Nat.ltb_spec k (List.length lines)) as [Hk|Hk]; [|discriminate].
  destruct (re_match false haardtring_balcony (line_at lines k)) as [m|]
    eqn:Em; [|discriminate].
  intros H. apply bind_Err in H as [H|(v & _ & H)]; [|discriminate].
  apply err_is_ValueError in H.
  apply (bad_token_of_match lines k _ _ _ Hk) with (2 := Em); [|exact H].
  captures.
Qed.

Lemma haardtring_lookahead_Err lines js e :
  (forall j, In j js -> (j < List.length lines)%nat) ->
  haardtring_lookahead lines js = Err e -> bad_token lines.
Proof.
  induction js as [|j js IH]; intros Hjs; cbn [haardtring_lookahead];
    [discriminate|].
  pose proof (Hjs j (or_introl eq_refl)) as Hj.
  destruct (re_match true haardtring_area (line_at lines j)) as [m|] eqn:Em.
  - intros H. apply bind_Err in H as [H|(a & _ & H)].
    + apply err_is_ValueError in H.
      apply (bad_token_of_match lines j _ _ _ Hj) with (2 := Em);
        [captures|exact H].
    + apply bind_Err in H as [H|(b & _ & H)]; [|discriminate].
      exact (haardtring_balcony_Err _ _ _ H).
  - destruct (str_eqb (line_at lines j) (u "F:")) eqn:Ef; cbn [andb].
    + destruct (Nat.ltb_spec (j + 1) (List.length lines)) as [Hj1|Hj1].
      * destruct (re_match false value_comma (line_at lines (j + 1)))
          as [m|] eqn:Ev.
        -- intros H. apply bind_Err in H as [H|(a & _ & H)].
           ++ apply err_is_ValueError in H.
              apply (bad_token_of_match lines (j + 1) _ _ _ Hj1)
                with (2 := Ev); [captures|exact H].
           ++ apply bind_Err in H as [H|(b & _ & H)]; [|discriminate].
              exact (haardtring_balcony_Err _ _ _ H).
        -- destruct (haardtring_stop (line_at lines j)); [discriminate|].
           apply IH. intros k Hk. apply Hjs. now right.
      * destruct (haardtring_stop (line_at lines j)); [discriminate|].
        apply IH. intros k Hk. apply Hjs. now right.
    + destruct (haardtring_stop (line_at lines j)); [discriminate|].
      apply IH. intros k Hk. apply Hjs. now right.
Qed.

Lemma leiq_lookahead_Err lines js :
  forall v e,
    (forall j, In j js -> (j < List.length lines)%nat) ->
    leiq_lookahead lines js v = Err e -> bad_token lines.
Proof.
  induction js as [|j js IH]; intros v e Hjs H; [discriminate|].
  pose proof (Hjs j (or_introl eq_refl)) as Hj.
  assert (IH' : forall v1, leiq_lookahead lines js v1 = Err e ->
                           bad_token lines).
  { intros v1. apply IH. intros k Hk. apply Hjs. now right. }
  assert (Hset : forall k ic r m (cont : Q -> result leiq_vars),
             (k < List.length lines)%nat -> captures_number r ->
             re_match ic r (line_at lines k) = Some m ->
             (forall a, cont a = Err e -> bad_token lines) ->
             bind (parse_german_number (group1 m)) cont = Err e ->
             bad_token lines).
  { intros k ic r m cont Hk Hc Hm Hcont Hb.
    apply bind_Err in Hb as [Hb|(a & _ & Hb)]; [|exact (Hcont a Hb)].
    apply err_is_ValueError in Hb.
    exact (bad_token_of_match _ _ _ _ _ Hk Hc Hm Hb). }
  cbn [leiq_lookahead] in H.
  destruct (if is_none (lv_area v)
            then re_match true leiq_nrf (line_at lines j) else None)
    as [m|] eqn:E1.
  { destruct (is_none (lv_area v)); [|discriminate].
    apply (Hset j _ _ _ _ Hj) with (2 := E1) (4 := H); [captures|].
    intros a. apply IH'. }
  destruct (if is_none (lv_area v)
            then re_match true leiq_f (line_at lines j) else None)
    as [m|] eqn:E2.
  { destruct (is_none (lv_area v)); [|discriminate].
    apply (Hset j _ _ _ _ Hj) with (2 := E2) (4 := H); [captures|].
    intros a. apply IH'. }
  unfold leiq_rest in H.
  destruct (if str_in (line_at lines j) split_labels
               && (j + 1 <? List.length lines)%nat
            then
              match re_match false value_any (line_at lines (j + 1)) with
              | Some area_match =>
                  if is_none (lv_area v) then Some area_match else None
              | None => None
              end
            else None) as [m|] eqn:E3.
  { destruct (str_in (line_at lines j) split_labels); [|discriminate].
    cbn [andb] in E3.
    destruct (Nat.ltb_spec (j + 1) (List.length lines)) as [Hj1|Hj1];
      [|discriminate].
    destruct (re_match false value_any (line_at lines (j + 1)))
      as [m'|] eqn:E4; [|discriminate].
    destruct (is_none (lv_area v)); [|discriminate].
    inversion E3; subst m'.
    apply (Hset (j + 1)%nat _ _ _ _ Hj1) with (2 := E4) (4 := H);
      [captures|].
    intros a. apply IH'. }
  destruct (re_match true leiq_u (line_at lines j)) as [m|] eqn:E5.
  { apply (Hset j _ _ _ _ Hj) with (2 := E5) (4 := H); [captures|].
    intros a. apply IH'. }
  destruct (re_match true leiq_lh (line_at lines j)) as [m|] eqn:E6.
  { apply (Hset j _ _ _ _ Hj) with (2 := E6) (4 := H); [captures|].
    intros a. apply IH'. }
  destruct (matches false leiq_room_pattern (line_at lines j));
    [discriminate|].
  exact (IH' _ H).
Qed.

Lemma omniturm_lookahead_Err lines js :
  forall name e,
    (forall j, In j js -> (j < List.length lines)%nat) ->
    omniturm_lookahead lines js name = Err e -> bad_token lines.
Proof.
  induction js as [|j js IH]; intros name e Hjs H; [discriminate|].
  pose proof (Hjs j (or_introl eq_refl)) as Hj.
  assert (IH' : forall n1, omniturm_lookahead lines js n1 = Err e ->
                           bad_token lines).
  { intros n1. apply IH. intros k Hk. apply Hjs. now right. }
  assert (Hset : forall k ic r m (cont : Q -> result (option str * option Q)),
             (k < List.length lines)%nat -> captures_number r ->
             re_match ic r (line_at lines k) = Some m ->
             (forall a, cont a <> Err e) ->
             bind (parse_german_number (group1 m)) cont = Err e ->
             bad_token lines).
  { intros k ic r m cont Hk Hc Hm Hcont Hb.
    apply bind_Err in Hb as [Hb|(a & _ & Hb)]; [|now destruct (Hcont a)].
    apply err_is_ValueError in Hb.
    exact (bad_token_of_match _ _ _ _ _ Hk Hc Hm Hb). }
  cbn [omniturm_lookahead] in H.
  destruct (matches false omniturm_room_pattern (line_at lines j));
    [discriminate|].
  destruct (re_match true omniturm_ngf (line_at lines j)) as [m|] eqn:E1.
  { apply (Hset j _ _ _ _ Hj) with (2 := E1) (4 := H); [captures|].
    discriminate. }
  destruct (if str_eqb (line_at lines j) (u "NGF:")
               && (j + 1 <? List.length lines)%nat
            then re_match false value_any (line_at lines (j + 1))
            else None) as [m|] eqn:E2.
  { destruct (str_eqb (line_at lines j) (u "NGF:")); [|discriminate].
    cbn [andb] in E2.
    destruct (Nat.ltb_spec (j + 1) (List.length lines)) as [Hj1|Hj1];
      [|discriminate].
    apply (Hset (j + 1)%nat _ _ _ _ Hj1) with (2 := E2) (4 := H);
      [captures|]. discriminate. }
  destruct (re_match false omniturm_schacht (line_at lines j)) as [m|];
    [|exact (IH' _ H)].
  destruct (Nat.ltb_spec (j + 2) (List.length lines)) as [Hj2|Hj2];
    [|exact (IH' _ H)].
  destruct (re_match false value_comma (line_at lines (j + 2)))
    as [m2|] eqn:E3; [|exact (IH' _ H)].
  apply (Hset (j + 2)%nat _ _ _ _ Hj2) with (2 := E3) (4 := H);
    [captures|]. discriminate.
Qed.

Lemma collect_Err body idxs e :
  collect body idxs = Err e -> exists i e', In i idxs /\ body i = Err e'.
Proof.
  induction idxs as [|i idxs IH]; cbn [collect]; [discriminate|].
  intros H. apply bind_Err in H as [H|(o & _ & H)].
  - exists i, e. split; [now left|exact H].
  - apply bind_Err in H as [H|(rest & _ & H)]; [|discriminate].
    destruct (IH H) as (j & e' & Hj & Hb). exists j, e'.
    split; [now right|exact Hb].
Qed.

Lemma omniturm_loop_Err lines page_idx idxs :
  forall rooms processed e,
    omniturm_loop lines page_idx idxs rooms processed = Err e ->
    exists i processed' e',
      In i idxs /\ omniturm_at lines page_idx processed' i = Err e'.
Proof.
  induction idxs as [|i idxs IH]; intros rooms processed e;
    cbn [omniturm_loop]; [discriminate|].
  intros H. apply bind_Err in H as [H|(o & _ & H)].
  - exists i, processed, e. split; [now left|exact H].
  - destruct o as [room|]; apply IH in H as (j & p' & e' & Hj & Hb);
      exists j, p', e'; (split; [now right|exact Hb]).
Qed.

Lemma window_lt (lines : list str) i j :
  In j (py_range (i + 1) (Nat.min (List.length lines) (i + 15))) ->
  (j < List.length lines)%nat.
Proof. intros H. apply py_range_In in H. lia. Qed.

Lemma call_Err_bad_token f lines page_idx :
  call f lines page_idx = Err ValueError -> bad_token lines.
Proof.
  destruct f; cbn [call]; intros H.
  - apply collect_Err in H as (i & e & _ & H). unfold haardtring_at in H.
    destruct (first_match false haardtring_room_patterns (line_at lines i));
      [|discriminate].
    apply bind_Err in H as [H|(x & _ & H)]; [|discriminate].
    exact (haardtring_lookahead_Err _ _ _ (window_lt lines i) H).
  - apply collect_Err in H as (i & e & _ & H). unfold leiq_at in H.
    destruct (re_match false leiq_room_pattern (line_at lines i));
      [|discriminate].
    apply bind_Err in H as [H|(x & _ & H)]; [|discriminate].
    exact (leiq_lookahead_Err _ _ _ _ (window_lt lines i) H).
  - apply omniturm_loop_Err in H as (i & pr & e & _ & H).
    unfold omniturm_at in H.
    destruct (matches false omniturm_room_pattern (line_at lines i)
              && negb (str_in (line_at lines i) pr)); [|discriminate].
    apply bind_Err in H as [H|(x & _ & H)]; [|discriminate].
    exact (omniturm_lookahead_Err _ _ _ _ (window_lt lines i) H).
  - discriminate.
Qed.

(** X25.  A page extractor raises only over a number it cannot read: when
    it fails, one of the page's lines holds a token of digits, commas and
    periods that the number parser rejects, namely one without a digit,
    with two commas or more, or with no comma and two periods or more. *)
Theorem error_comes_from_a_token : forall f lines page_idx,
  call f lines page_idx = Err ValueError ->
  exists line token,
    In line lines /\ substring_of token line
    /\ is_token token
    /\ (has_digit token = false \/ (2 <= commas token)%nat
        \/ (commas token = 0%nat /\ (2 <= periods token)%nat))
    /\ parse_german_number token = Err ValueError.
Proof.
  intros f lines page_idx H.
  destruct (call_Err_bad_token _ _ _ H)
    as (line & token & Hin & Hs & (Ht & Hu) & Hp).
  exists line, token. auto 8.
Qed.

Lemma error_comes_from_a_token_witness :
  exists line token,
    In line (text_lines ["R1A"; "Bad"; "F: 12,34,56 m2"]%string)
    /\ substring_of token line
    /\ is_token token
    /\ (has_digit token = false \/ (2 <= commas token)%nat
        \/ (commas token = 0%nat /\ (2 <= periods token)%nat))
    /\ parse_german_number token = Err ValueError.
Proof.
  apply (error_comes_from_a_token fn_haardtring _ 0%nat).
  vm_compute. reflexivity.
Defined.

(** ** The sign of the totals *)

Lemma try_alternatives_all (P : ExtractedRoom -> Prop) f alts lines p rs ws :
  (forall g rooms r, call g lines p = OK rooms -> In r rooms -> P r) ->
  try_alternatives f alts lines p ([], []) = OK (rs, ws) ->
  forall r, In r rs -> P r.
Proof.
  intros HP. induction alts as [|[s g] alts IH]; cbn [try_alternatives].
  - intros H. inversion H; subst. intros r [].
  - destruct (negb (fn_eqb g f)); [|exact IH].
    destruct (call g lines p) as [[|x xs]|e] eqn:E; cbn [bind];
      [exact IH| |discriminate].
    intros H. inversion H; subst; clear H.
    intros r Hr. exact (HP _ _ _ E Hr).
Qed.

Lemma process_page_all (P : ExtractedRoom -> Prop) f text p rs ws :
  (forall g rooms r,
      call g (split newline text) p = OK rooms -> In r rooms -> P r) ->
  process_page f text p ([], []) = OK (rs, ws) ->
  forall r, In r rs -> P r.
Proof.
  intros HP. unfold process_page.
  destruct (call f (split newline text) p) as [[|x xs]|e] eqn:E;
    cbn [bind fst snd app]; [| |discriminate].
  - destruct (try_alternatives f fallback_order (split newline text) p
                ([], [])) as [[rs1 ws1]|e1] eqn:E1; cbn [bind];
      [|discriminate].
    pose proof (try_alternatives_all P _ _ _ _ _ _ HP E1) as H1.
    destruct (negb (fn_eqb f fn_generic)).
    + destruct (extract_generic (split newline text) p) as [[|g gs]|e2]
        eqn:E2; cbn [bind fst snd]; [| |discriminate].
      * intros H. inversion H; subst. exact H1.
      * intros H. inversion H; subst; clear H. intros r Hr.
        apply in_app_or in Hr as [Hr|Hr]; [now apply H1|].
        exact (HP fn_generic _ _ E2 Hr).
    + intros H. inversion H; subst. exact H1.
  - intros H. inversion H; subst; clear H.
    intros r Hr. exact (HP _ _ _ E Hr).
Qed.

Lemma page_loop_all (P : ExtractedRoom -> Prop) f doc ps :
  (forall g lines p rooms r,
      call g lines p = OK rooms -> In r rooms -> P r) ->
  forall rs ws,
    page_loop f doc ps ([], []) = OK (rs, ws) ->
    forall r, In r rs -> P r.
Proof.
  intros HP. induction ps as [|p ps IH]; intros rs ws H.
  - cbn in H. inversion H; subst. intros r [].
  - rewrite page_loop_cons in H.
    apply bind_OK in H as ([rs1 ws1] & H1 & H).
    apply bind_OK in H as ([rs2 ws2] & H2 & H).
    inversion H; subst; clear H. cbn [fst snd].
    intros r Hr. apply in_app_or in Hr as [Hr|Hr]; [|exact (IH _ _ H2 r Hr)].
    destruct (List.length doc <=? p)%nat.
    + inversion H1; subst. destruct Hr.
    + exact (process_page_all P _ _ _ _ _
               (fun g rooms r0 => HP g _ p rooms r0) H1 r Hr).
Qed.

Lemma sum_list_nonneg xs : Forall (fun x => 0 <= x) xs -> 0 <= sum_list xs.
Proof.
  induction 1 as [|x xs Hx _ IH]; cbn [sum_list fold_right]; [lra|].
  fold (sum_list xs). lra.
Qed.

Lemma py_sum_nonneg xs : Forall (fun x => 0 <= x) xs -> 0 <= py_sum xs.
Proof.
  intros H. rewrite py_sum_sum_list. now apply sum_list_nonneg.
Qed.

Lemma dict_add_nonneg d k x :
  Forall (fun kv => 0 <= snd kv) d -> 0 <= x ->
  Forall (fun kv => 0 <= snd kv) (dict_add d k x).
Proof.
  intros Hd Hx. induction Hd as [|[k0 v] d Hv Hd' IH]; cbn [dict_add].
  - constructor; [cbn; lra|constructor].
  - destruct (cat_eqb k0 k).
    + constructor; [cbn in *; lra|assumption].
    + constructor; assumption.
Qed.

Lemma category_sums_nonneg rooms :
  Forall (fun r => 0 <= counted_m2 r) rooms ->
  Forall (fun kv => 0 <= snd kv) (category_sums rooms).
Proof.
  unfold category_sums. intros H.
  assert (Hgen : forall d, Forall (fun kv => 0 <= snd kv) d ->
                 Forall (fun kv => 0 <= snd kv)
                   (fold_left
                      (fun d room =>
                         dict_add d (category room) (counted_m2 room))
                      rooms d)).
  { induction H as [|r rooms Hr _ IH]; intros d Hd; [exact Hd|].
    cbn [fold_left]. apply IH. now apply dict_add_nonneg. }
  apply Hgen. constructor.
Qed.

(** X26.  No result has a negative number in it: every room has a
    positive area and a counted area that is not negative, whatever
    extractor or fallback produced it, and the two totals and the total
    of every category are not negative. *)
Theorem totals_are_not_negative : forall doc style pages res,
  extract_room_areas doc style pages = OK res ->
  (forall r, In r (rooms res) -> 0 < area_m2 r /\ 0 <= counted_m2 r)
  /\ 0 <= total_area_m2 res /\ 0 <= total_counted_m2 res
  /\ forall c v, In (c, v) (totals_by_category res) -> 0 <= v.
Proof.
  intros doc style pages res H.
  apply extract_room_areas_inv in H as (rs & ws & H & ->). cbn.
  pose proof (page_loop_all
                (fun r => 0 < area_m2 r /\ 0 <= counted_m2 r) _ _ _
                (fun g lines p rooms r => call_areas_positive g lines p rooms r)
                _ _ H) as Hr.
  split; [exact Hr|]. split; [|split].
  - apply round2_nonneg, py_sum_nonneg. apply Forall_map, Forall_forall.
    intros r Hin. destruct (Hr r Hin). lra.
  - apply round2_nonneg, py_sum_nonneg. apply Forall_map, Forall_forall.
    intros r Hin. now destruct (Hr r Hin).
  - intros c v Hin. apply in_map_iff in Hin as ([k x] & E & Hin).
    cbn in E. inversion E; subst. apply round2_nonneg.
    assert (Hall : Forall (fun kv => 0 <= snd kv) (category_sums rs)).
    { apply category_sums_nonneg, Forall_forall. intros r Hr'.
      now destruct (Hr r Hr'). }
    rewrite Forall_forall in Hall. exact (Hall _ Hin).
Qed.

Lemma totals_are_not_negative_witness :
  (forall r, In r (rooms example_result) ->
             0 < area_m2 r /\ 0 <= counted_m2 r)
  /\ 0 <= total_area_m2 example_result
  /\ 0 <= total_counted_m2 example_result
  /\ forall c v, In (c, v) (totals_by_category example_result) -> 0 <= v.
Proof.
  apply (totals_are_not_negative example_doc None None).
  vm_compute. reflexivity.
Defined.

(** ** The detected style *)

(** X27.  The style is detected in the text of the whole document, not in
    the requested pages: two requests on the same document with the same
    style argument report the same blueprint_style and page_count,
    whatever pages they name; and a result of unknown style always
    carries the warning that says so. *)
Theorem style_does_not_depend_on_pages :
  forall doc style pages1 pages2 res1 res2,
    extract_room_areas doc style pages1 = OK res1 ->
    extract_room_areas doc style pages2 = OK res2 ->
    blueprint_style res1 = blueprint_style res2
    /\ page_count res1 = page_count res2
    /\ (blueprint_style res1 = UNKNOWN ->
        In (u "Unknown blueprint style, trying flexible extraction")
          (warnings res1)).
Proof.
  intros doc style pages1 pages2 res1 res2 H1 H2.
  apply extract_room_areas_inv in H1 as (rs1 & ws1 & _ & ->).
  apply extract_room_areas_inv in H2 as (rs2 & ws2 & _ & ->).
  cbn. split; [reflexivity|]. split; [reflexivity|].
  intros E. unfold initial_warnings. rewrite E. now left.
Qed.

Lemma style_does_not_depend_on_pages_witness :
  blueprint_style example_result = HAARDTRING
  /\ page_count example_result = 1%nat
  /\ (blueprint_style example_result = UNKNOWN ->
      In (u "Unknown blueprint style, trying flexible extraction")
        (warnings example_result)).
Proof.
  apply (style_does_not_depend_on_pages example_doc None None
           (Some [5]%nat) example_result
           (result_of example_doc HAARDTRING ([], [missing_page_warning 5]))).
  - vm_compute. reflexivity.
  - vm_compute. reflexivity.
Defined.

(** ** Where names, perimeters and heights come from *)

Lemma name_after_on_page f not_name lines i :
  name_ok f lines (name_after not_name lines i).
Proof.
  unfold name_after.
  destruct (Nat.ltb_spec (i + 1) (List.length lines)) as [Hi|Hi];
    [|exact I].
  destruct (nonempty (line_at lines (i + 1))
            && negb (not_name (line_at lines (i + 1)))); [|exact I].
  left. exists (i + 1)%nat. split; [exact Hi|reflexivity].
Qed.

Lemma omniturm_lookahead_name lines js :
  forall name name' a,
    (forall j, In j js -> (j < List.length lines)%nat) ->
    omniturm_lookahead lines js name = OK (name', a) ->
    name_ok fn_omniturm lines name -> name_ok fn_omniturm lines name'.
Proof.
  induction js as [|j js IH]; intros name name' a Hjs H Hn.
  - cbn in H. inversion H; subst. exact Hn.
  - pose proof (Hjs j (or_introl eq_refl)) as Hj.
    assert (IH' : forall n1 n' a',
               omniturm_lookahead lines js n1 = OK (n', a') ->
               name_ok fn_omniturm lines n1 -> name_ok fn_omniturm lines n').
    { intros n1 n' a'. apply IH. intros k Hk. apply Hjs. now right. }
    cbn [omniturm_lookahead] in H.
    destruct (matches false omniturm_room_pattern (line_at lines j)).
    { inversion H; subst. exact Hn. }
    set (name1 := if is_none name && nonempty (line_at lines j)
                     && negb (matches false omniturm_not_name
                                (line_at lines j))
                  then Some (line_at lines j) else name) in H.
    assert (Hn1 : name_ok fn_omniturm lines name1).
    { unfold name1.
      destruct (is_none name && nonempty (line_at lines j)
                && negb (matches false omniturm_not_name (line_at lines j)));
        [|exact Hn].
      left. exists j. split; [exact Hj|reflexivity]. }
    clearbody name1.
    destruct (re_match true omniturm_ngf (line_at lines j)) as [m|].
    { apply bind_OK in H as (x & _ & H). inversion H; subst. exact Hn1. }
    destruct (if str_eqb (line_at lines j) (u "NGF:")
                 && (j + 1 <? List.length lines)%nat
              then re_match false value_any (line_at lines (j + 1))
              else None) as [m|].
    { apply bind_OK in H as (x & _ & H). inversion H; subst. exact Hn1. }
    destruct (re_match false omniturm_schacht (line_at lines j)) as [m|]
      eqn:Em; [|exact (IH' _ _ _ H Hn1)].
    assert (Hs : name_ok fn_omniturm lines (Some (group1 m))).
    { right. split; [reflexivity|]. exists j, m. auto. }
    destruct (Nat.ltb_spec (j + 2) (List.length lines)) as [Hj2|Hj2];
      [|exact (IH' _ _ _ H Hs)].
    set (name2 := if negb (matches false digit_or_comma_first
                             (line_at lines (j + 1)))
                  then Some (group1 m ++ u " (" ++ line_at lines (j + 1)
                               ++ u ")")
                  else Some (group1 m)) in H.
    assert (Hn2 : name_ok fn_omniturm lines name2).
    { unfold name2.
      destruct (negb (matches false digit_or_comma_first
                        (line_at lines (j + 1)))); [|exact Hs].
      right. split; [reflexivity|]. exists j, m.
      split; [exact Hj|]. split; [exact Em|]. right.
      split; [lia|reflexivity]. }
    clearbody name2.
    destruct (re_match false value_comma (line_at lines (j + 2))) as [m2|];
      [|exact (IH' _ _ _ H Hn2)].
    apply bind_OK in H as (x & _ & H). inversion H; subst. exact Hn2.
Qed.

Lemma generic_room_name_on_page lines js :
  name_ok fn_generic lines (generic_room_name lines js).
Proof.
  induction js as [|j js IH]; cbn [generic_room_name]; [exact I|].
  destruct (Nat.ltb_spec j (List.length lines)) as [Hj|Hj];
    cbn [andb]; [|exact IH].
  destruct (name_candidate (line_at lines j)); [|exact IH].
  left. exists j. split; [exact Hj|reflexivity].
Qed.

Lemma built_with_name f lines name page_idx r :
  name_ok f lines name -> built_with name page_idx r ->
  room_name r = u "Unknown" \/ name_on_page f lines (room_name r).
Proof.
  intros Hn (E & _). rewrite E.
  destruct name as [[|c n]|]; cbn [str_or]; [now left| |now left].
  right. exact Hn.
Qed.

(** X28.  The name of a record is never made up: it is "Unknown", or the
    stripped text of a line of the page, or, for the omniturm extractor,
    the shaft designation captured at the start of a line, alone or
    followed by the next line in brackets. *)
Theorem room_name_origin : forall f lines page_idx rooms r,
  call f lines page_idx = OK rooms -> In r rooms ->
  room_name r = u "Unknown" \/ name_on_page f lines (room_name r).
Proof.
  intros f lines page_idx rooms r H Hin. destruct f; cbn [call] in H.
  - destruct (haardtring_emitted _ _ _ _ H Hin) as (i & _ & Hat).
    unfold haardtring_at in Hat.
    destruct (first_match false haardtring_room_patterns (line_at lines i));
      [|discriminate].
    apply bind_OK in Hat as (x & _ & Hat). inversion Hat as [He].
    apply haardtring_emit_built in He as (Hb & _).
    exact (built_with_name _ _ _ _ _ (name_after_on_page _ _ _ _) Hb).
  - destruct (leiq_emitted _ _ _ _ H Hin) as (i & _ & Hat).
    unfold leiq_at in Hat.
    destruct (re_match false leiq_room_pattern (line_at lines i));
      [|discriminate].
    apply bind_OK in Hat as (x & _ & Hat). inversion Hat as [He].
    apply leiq_emit_built in He as (Hb & _).
    exact (built_with_name _ _ _ _ _ (name_after_on_page _ _ _ _) Hb).
  - destruct (omniturm_emitted _ _ _ _ H Hin) as (i & pr & _ & Hat).
    unfold omniturm_at in Hat.
    destruct (matches false omniturm_room_pattern (line_at lines i)
              && negb (str_in (line_at lines i) pr)); [|discriminate].
    apply bind_OK in Hat as ([n a] & Hl & Hat). inversion Hat as [He].
    apply omniturm_emit_built in He as (Hb & _).
    apply omniturm_lookahead_name in Hl; [|exact (window_lt lines i)|exact I].
    exact (built_with_name _ _ _ _ _ Hl Hb).
  - unfold extract_generic in H. inversion H; subst; clear H.
    apply generic_assign_In in Hin as (id & l & info & _ & _ & ->).
    apply (built_with_name fn_generic lines
             (generic_room_name lines
                (py_range (l + 1)
                   (Nat.min (line_idx info) (l + 1 + 5)))) page_idx).
    + apply generic_room_name_on_page.
    + unfold built_with, generic_room. cbn. repeat split; reflexivity.
Qed.

Lemma room_name_origin_witness :
  room_name leiq_example_room = u "Unknown"
  \/ name_on_page fn_leiq leiq_example_lines (room_name leiq_example_room).
Proof.
  apply (room_name_origin fn_leiq leiq_example_lines 0 [leiq_example_room]).
  - vm_compute. reflexivity.
  - now left.
Defined.

Lemma leiq_lookahead_measures lines js :
  forall v v',
    leiq_lookahead lines js v = OK v' ->
    measures_ok lines v -> measures_ok lines v'.
Proof.
  induction js as [|j js IH]; intros v v' H Hv.
  - cbn in H. inversion H; subst. exact Hv.
  - cbn [leiq_lookahead] in H.
    destruct (if is_none (lv_area v)
              then re_match true leiq_nrf (line_at lines j) else None)
      as [m|].
    { apply bind_OK in H as (area & _ & H). exact (IH _ _ H Hv). }
    destruct (if is_none (lv_area v)
              then re_match true leiq_f (line_at lines j) else None)
      as [m|].
    { apply bind_OK in H as (area & _ & H). exact (IH _ _ H Hv). }
    unfold leiq_rest in H.
    destruct (if str_in (line_at lines j) split_labels
                 && (j + 1 <? List.length lines)%nat
              then
                match re_match false value_any (line_at lines (j + 1)) with
                | Some area_match =>
                    if is_none (lv_area v) then Some area_match else None
                | None => None
                end
              else None) as [m|].
    { apply bind_OK in H as (area & _ & H). exact (IH _ _ H Hv). }
    destruct (re_match true leiq_u (line_at lines j)) as [m|] eqn:Eu.
    { apply bind_OK in H as (p & Hp & H). apply (IH _ _ H).
      destruct Hv as [_ Hh]. split; [|exact Hh]. cbn.
      intros q Eq. inversion Eq; subst.
      exact (token_source_of_match _ _ _ _ _ _ Eu Hp). }
    destruct (re_match true leiq_lh (line_at lines j)) as [m|] eqn:Eh.
    { apply bind_OK in H as (h & Hp & H). apply (IH _ _ H).
      destruct Hv as [Hu _]. split; [exact Hu|]. cbn.
      intros q Eq. inversion Eq; subst.
      exact (token_source_of_match _ _ _ _ _ _ Eh Hp). }
    destruct (matches false leiq_room_pattern (line_at lines j)).
    { inversion H; subst. exact Hv. }
    exact (IH _ _ H Hv).
Qed.

Lemma leiq_emit_measures room_num name v page_idx r :
  leiq_emit room_num name v page_idx = Some r ->
  perimeter_m r = lv_perimeter v /\ height_m r = lv_height v.
Proof.
  unfold leiq_emit.
  destruct (if_truthy (lv_area v)) as [a|]; [|discriminate].
  intros H; inversion H; subst; cbn. auto.
Qed.

(** X29.  The perimeter and the height of a leiq record are read, like
    its area, from the page: each is the parse of a token that occurs
    literally in one of the page's lines, and neither is negative. *)
Theorem leiq_measures_origin : forall lines page_idx rooms r q,
  extract_leiq lines page_idx = OK rooms -> In r rooms ->
  perimeter_m r = Some q \/ height_m r = Some q ->
  token_source lines q /\ 0 <= q.
Proof.
  intros lines page_idx rooms r q H Hin Hq.
  destruct (leiq_emitted _ _ _ _ H Hin) as (i & _ & Hat).
  apply leiq_at_Some in Hat as (m & name & v & _ & Hl & He).
  apply leiq_emit_measures in He as [Ep Eh].
  apply leiq_lookahead_measures in Hl as [Hu Hh].
  2:{ split; intros x E; discriminate. }
  assert (Ht : token_source lines q).
  { destruct Hq as [Hq|Hq]; [apply Hu|apply Hh]; congruence. }
  split; [exact Ht|exact (token_source_nonneg _ _ Ht)].
Qed.

Lemma leiq_measures_origin_witness :
  token_source
    (text_lines ["B.00.2.002"; "Flur"; "NRF: 10,00 m2"; "U: 12,5 m"]%string)
    (Qred 12.5)
  /\ 0 <= Qred 12.5.
Proof.
  eapply (leiq_measures_origin _ 0%nat).
  - vm_compute. reflexivity.
  - left. reflexivity.
  - left. reflexivity.
Defined.
